(** * css-blocks: the Block model and the conflict-resolution compiler

    A shallow embedding of [src/BlockCompiler.ts],
    [src/BlockCompiler/ConflictResolver.ts], the [Block] class,
    [Style.resolveStyles], [discoverName] and the name and guid
    registries of [BlockFactory], with the properties of the compile
    passes stated and proved over it.

    The PostCSS tree is modelled as the fragment the compiler works on:
    rules hold declarations and comments, at-rules hold rules, at-rules
    and comments.  Exceptions are values of a sum type; mutation of the
    tree is explicit state passing. *)

From Stdlib Require Import String Ascii List Bool Arith Lia.
From stdpp Require Import base option list strings pretty gmap.

Import ListNotations.
Local Open Scope string_scope.
Local Open Scope list_scope.

Set Default Proof Using "Type".
Set Warnings "-register-all".

(** ** Exceptions *)

Module Errors.

(** [errors.InvalidBlockSyntax] and [CssBlockError] carry a message; a
    JavaScript [TypeError] is raised by the runtime (or by hand, in
    [resolveConflictWith]); [JsError] is a plain [Error], as a library
    may throw. *)
Inductive Error : Type :=
| InvalidBlockSyntax (message : string)
| CssBlockError (message : string)
| TypeError (message : string)
| JsError (message : string).

Definition Result (A : Type) : Type := (Error + A)%type.

Definition ret {A} (a : A) : Result A := inr a.
Definition throw {A} (e : Error) : Result A := inl e.

Definition bind {A B} (m : Result A) (k : A -> Result B) : Result B :=
  match m with
  | inl e => inl e
  | inr a => k a
  end.

(** A loop whose body may throw: the accumulator is threaded through
    the elements in order, and the first exception ends the loop. *)
Fixpoint foldM {A S} (f : S -> A -> Result S) (l : list A) (s : S)
  : Result S :=
  match l with
  | [] => inr s
  | a :: l' => bind (f s a) (foldM f l')
  end.

(** The result of a computation, mapped. *)
Definition mapR {A B} (g : A -> B) (r : Result A) : Result B :=
  match r with
  | inl e => inl e
  | inr a => inr (g a)
  end.

Definition is_syntax_error {A} (r : Result A) : Prop :=
  exists msg, r = inl (InvalidBlockSyntax msg).

Definition throws {A} (r : Result A) : Prop := exists e, r = inl e.

End Errors.
Import Errors.

Declare Scope result_scope.
Delimit Scope result_scope with result.
Notation "x <- m ;; k" := (bind m (fun x => k))
  (at level 100, m at next level, right associativity) : result_scope.
Local Open Scope result_scope.

(** ** The conflict classification *)

Module Conflict.

(** [enum ConflictType { conflict, noconflict, samevalues }] *)
Inductive ConflictType : Type := conflict | noconflict | samevalues.

#[global] Instance ConflictType_eq_dec : EqDecision ConflictType.
Proof. solve_decision. Defined.

Definition updateConflict (t1 t2 : ConflictType) : ConflictType :=
  match t1 with
  | conflict => conflict
  | noconflict => t2
  | samevalues =>
      match t2 with
      | conflict => conflict
      | _ => samevalues
      end
  end.

End Conflict.
Import Conflict.

(** ** The regular expressions of the compiler

    JavaScript strings are matched here as byte strings; every pattern
    below is made of ASCII literals, so the match is the same. *)

Module Regex.

(** [strip_prefix p s] is [Some rest] when [s = p ++ rest]. *)
Fixpoint strip_prefix (p s : string) : option string :=
  match p with
  | EmptyString => Some s
  | String c p' =>
      match s with
      | EmptyString => None
      | String d s' => if Ascii.eqb c d then strip_prefix p' s' else None
      end
  end.

(** Unanchored search for a literal. *)
Fixpoint contains (lit s : string) : bool :=
  match strip_prefix lit s with
  | Some _ => true
  | None =>
      match s with
      | EmptyString => false
      | String _ s' => contains lit s'
      end
  end.

(** [/\.root/], the selector filter of [walkRules] in [compile]. *)
Definition ROOT_RE (sel : string) : bool := contains ".root" sel.

(** [/^(extends|implements|block-name)$/] *)
Definition BLOCK_PROP_RE (prop : string) : bool :=
  String.eqb prop "extends" || String.eqb prop "implements"
  || String.eqb prop "block-name".

(** The character with code 2: inside a character class a backslash
    followed by 2 is an octal escape, so the class of group 3 is any
    character but U+0002. *)
Definition char2 : ascii := ascii_of_nat 2.

(** The double quote. *)
Definition dquote : ascii := ascii_of_nat 34.

(** The third group and what follows it, after the opening quote [q]:
    a greedy star over the class "not U+0002", then the quote again (the
    back-reference to group 2) and a closing parenthesis.  The capture is
    the longest run free of U+0002 that is followed by the closing quote
    and the parenthesis. *)
Fixpoint resolve_body (q : ascii) (s : string) : option string :=
  match s with
  | EmptyString => None
  | String c rest =>
      let longer :=
        if Ascii.eqb c char2 then None
        else String c <$> resolve_body q rest in
      match longer with
      | Some r => Some r
      | None =>
          if Ascii.eqb c q then
            match rest with
            | String ")"%char _ => Some EmptyString
            | _ => None
            end
          else None
      end
  end.

(** An opening parenthesis, a quote (double or single, group 2), then
    [resolve_body]. *)
Definition resolve_args (s : string) : option string :=
  match s with
  | String "("%char (String q rest) =>
      if Ascii.eqb q dquote || Ascii.eqb q "'"%char then resolve_body q rest
      else None
  | _ => None
  end.

(** A match of [RESOLVE_RE] anchored at the start of [s]: group 1 is
    tried present first, as [?] is greedy. *)
Definition resolve_at (s : string) : option (bool * string) :=
  match strip_prefix "resolve" s with
  | None => None
  | Some r1 =>
      let plain := pair false <$> resolve_args r1 in
      match strip_prefix "-inherited" r1 with
      | Some r2 =>
          match resolve_args r2 with
          | Some ref => Some (true, ref)
          | None => plain
          end
      | None => plain
      end
  end.

(** [value.match(RESOLVE_RE)]: the pattern is the word resolve, an
    optional -inherited (group 1), then [resolve_args]; it is not
    anchored, so the leftmost match is taken.  The result is
    [(!!match[1], match[3])]. *)
Fixpoint RESOLVE_RE (s : string) : option (bool * string) :=
  match resolve_at s with
  | Some m => Some m
  | None =>
      match s with
      | EmptyString => None
      | String _ s' => RESOLVE_RE s'
      end
  end.

Definition isResolve (value : string) : bool :=
  match RESOLVE_RE value with Some _ => true | None => false end.

End Regex.
Import Regex.

(** ** The PostCSS tree *)

Module PostCSS.

(** A declaration: the compiler reads [prop] and [value] only. *)
Record Declaration : Type := decl { prop : string; value : string }.

(** The children of a rule. *)
Inductive ChildNode : Type :=
| Decl (d : Declaration)
| Comment (text : string).

Record Rule : Type := rule { selector : string; nodes : list ChildNode }.

(** The children of the root and of an at-rule. *)
Inductive Node : Type :=
| NRule (r : Rule)
| NAtRule (name params : string) (children : list Node)
| NComment (text : string).

Definition Root : Type := list Node.

(** [container.walkDecls(prop, callback)] on a rule calls back on every
    child declaration whose property is [prop], with the index of the
    child among the rule's nodes.  [declsFrom i] lists these calls for a
    list of children that starts at index [i]. *)
Fixpoint declsFrom (p : string) (i : nat) (l : list ChildNode)
  : list (nat * Declaration) :=
  match l with
  | [] => []
  | Decl d :: l' =>
      if String.eqb (prop d) p then (i, d) :: declsFrom p (S i) l'
      else declsFrom p (S i) l'
  | Comment _ :: l' => declsFrom p (S i) l'
  end.

Definition walkDecls (p : string) (r : Rule) : list (nat * Declaration) :=
  declsFrom p 0 (nodes r).

(** The properties of all declarations of a rule, [rule.walkDecls] with
    no filter. *)
Definition declProps (l : list ChildNode) : list string :=
  omap (fun c => match c with Decl d => Some (prop d) | Comment _ => None end) l.

(** [root.walkAtRules(name, atRule => atRule.remove())]: [None] stands
    for a removed node. *)
Fixpoint removeAtRules (nm : string) (n : Node) : option Node :=
  match n with
  | NAtRule nm' ps ch =>
      if String.eqb nm' nm then None
      else Some (NAtRule nm' ps (omap (removeAtRules nm) ch))
  | _ => Some n
  end.

(** [rule.walkDecls(re, decl => decl.remove())] *)
Definition removeDecls (re : string -> bool) (l : list ChildNode)
  : list ChildNode :=
  List.filter
    (fun c => match c with Decl d => negb (re (prop d)) | Comment _ => true end)
    l.

End PostCSS.
Import PostCSS.

(** ** Parsed selectors

    [parseSelector.ts] is not among the sources; the operations of
    [CompoundSelector] and [ParsedSelector] that the resolver calls are
    modelled from the specification, except [mergeNodes], which is a
    parameter of the resolver. *)

Module Selector.

(** [selectorParser.Combinator]: only [value] is read. *)
Definition Combinator : Type := string.

(** One compound selector: its simple selectors ([nodes] in the source,
    each kept here as its source text) and its pseudo-element, if any. *)
Record Compound : Type :=
  compound { cnodes : list string; pseudoelement : option string }.

(** A [CompoundSelector] is the head of a linked list: [next], when set,
    holds a combinator and the following compound selector. *)
Inductive CompoundSelector : Type :=
| CSLast (c : Compound)
| CSNext (c : Compound) (combinator : Combinator) (next : CompoundSelector).

(** [new ParsedSelector(sel)]; [psel] is the field [selector] of the
    source. *)
Record ParsedSelector : Type := parsed { psel : CompoundSelector }.

(** Modelled from the spec: [ParsedSelector.key], the final compound
    selector of the chain (the key selector). *)
Fixpoint lastCompound (s : CompoundSelector) : Compound :=
  match s with
  | CSLast c => c
  | CSNext _ _ s' => lastCompound s'
  end.

Definition key (s : ParsedSelector) : Compound := lastCompound (psel s).

(** Modelled from the spec: [ParsedSelector.length], the number of
    compound selectors, one more than the number of combinators. *)
Fixpoint compounds (s : CompoundSelector) : nat :=
  match s with
  | CSLast _ => 1
  | CSNext _ _ s' => S (compounds s')
  end.

Definition plength (s : ParsedSelector) : nat := compounds (psel s).

(** Modelled from the spec: [CompoundSelector.clone], a deep copy.  The
    model has values, not objects, so the copy is the value itself. *)
Definition clone (s : CompoundSelector) : CompoundSelector := s.

(** Modelled from the spec: [CompoundSelector.removeLast] unlinks the
    final compound selector and returns it with its combinator, or
    [undefined] when the chain has a single element.  The first component
    is the receiver after the call. *)
Fixpoint removeLast (s : CompoundSelector)
  : CompoundSelector * option (Combinator * CompoundSelector) :=
  match s with
  | CSLast c => (CSLast c, None)
  | CSNext c comb (CSLast k) => (CSLast c, Some (comb, CSLast k))
  | CSNext c comb s' =>
      let (rest, last) := removeLast s' in (CSNext c comb rest, last)
  end.

(** Modelled from the spec: [a.append(combinator, b)] links [b] after the
    final compound selector of [a] and returns [a]. *)
Fixpoint append (a : CompoundSelector) (comb : Combinator)
  (b : CompoundSelector) : CompoundSelector :=
  match a with
  | CSLast c => CSNext c comb b
  | CSNext c comb' a' => CSNext c comb' (append a' comb b)
  end.

End Selector.
Import Selector.

(** ** Blocks and block objects *)

Module BlockModel.

(** The fields of [Block] that the compiler and the name setter use.
    [base] chains are finite: a block is built after the block it
    extends. *)
Inductive Block : Type := mkBlock {
  _identifier : string;
  _name : string;
  hasHadNameReset : bool;
  _base : option Block;
  _baseName : option string;
  _implements : list Block;
  _dependencies : list string;
  root : option Root
}.

(** [new Block(name, identifier)] *)
Definition newBlock (name identifier : string) : Block :=
  {| _identifier := identifier; _name := name; hasHadNameReset := false;
     _base := None; _baseName := None; _implements := [];
     _dependencies := []; root := None |}.

(** [get name()] *)
Definition name (b : Block) : string := _name b.

(** [set name(name)]: the block is returned unchanged along with the
    exception when the setter throws. *)
Definition set_name (n : string) (b : Block) : Result Block :=
  if hasHadNameReset b then
    throw (CssBlockError "Can not set block name more than once.")
  else
    ret {| _identifier := _identifier b; _name := n; hasHadNameReset := true;
           _base := _base b; _baseName := _baseName b;
           _implements := _implements b; _dependencies := _dependencies b;
           root := root b |}.

Definition base (b : Block) : option Block := _base b.
Definition baseName (b : Block) : option string := _baseName b.
Definition identifier (b : Block) : string := _identifier b.

(** [setBase(baseName, base)] *)
Definition setBase (bn : string) (bs : Block) (b : Block) : Block :=
  {| _identifier := _identifier b; _name := _name b;
     hasHadNameReset := hasHadNameReset b;
     _base := Some bs; _baseName := Some bn;
     _implements := _implements b; _dependencies := _dependencies b;
     root := root b |}.

(** [addDependency(filepath)]: [_dependencies] is a [Set]. *)
Definition addDependency (path : string) (b : Block) : Block :=
  {| _identifier := _identifier b; _name := _name b;
     hasHadNameReset := hasHadNameReset b;
     _base := _base b; _baseName := _baseName b;
     _implements := _implements b;
     _dependencies :=
       if bool_decide (path ∈ _dependencies b) then _dependencies b
       else _dependencies b ++ [path];
     root := root b |}.

(** [addImplementation(b)] *)
Definition addImplementation (i : Block) (b : Block) : Block :=
  {| _identifier := _identifier b; _name := _name b;
     hasHadNameReset := hasHadNameReset b;
     _base := _base b; _baseName := _baseName b;
     _implements := _implements b ++ [i];
     _dependencies := _dependencies b; root := root b |}.

(** Assignment to the public field [root]. *)
Definition setRoot (r : Root) (b : Block) : Block :=
  {| _identifier := _identifier b; _name := _name b;
     hasHadNameReset := hasHadNameReset b;
     _base := _base b; _baseName := _baseName b;
     _implements := _implements b;
     _dependencies := _dependencies b; root := Some r |}.

(** The calls a client can make on a block between two uses of the name
    setter. *)
Inductive BlockCall : Type :=
| CallSetName (n : string)
| CallSetBase (bn : string) (bs : Block)
| CallAddDependency (path : string)
| CallAddImplementation (i : Block)
| CallSetRoot (r : Root).

(** One call: the block afterwards, and the exception if one was thrown. *)
Definition call (c : BlockCall) (b : Block) : Block * option Error :=
  match c with
  | CallSetName n =>
      match set_name n b with
      | inl e => (b, Some e)
      | inr b' => (b', None)
      end
  | CallSetBase bn bs => (setBase bn bs b, None)
  | CallAddDependency p => (addDependency p b, None)
  | CallAddImplementation i => (addImplementation i b, None)
  | CallSetRoot r => (setRoot r b, None)
  end.

Definition notSetName (c : BlockCall) : Prop :=
  match c with CallSetName _ => False | _ => True end.

Fixpoint calls (cs : list BlockCall) (b : Block) : Block :=
  match cs with
  | [] => b
  | c :: cs' => calls cs' (fst (call c b))
  end.

(** [this.equal(other)]: [other && this.identifier === other.identifier] *)
Definition equal (this : Block) (other : option Block) : bool :=
  match other with
  | None => false
  | Some o => String.eqb (identifier this) (identifier o)
  end.

(** The [while (base)] loop of [isAncestor], started at [base]. *)
Fixpoint isAncestorLoop (this : Block) (b : Block) : bool :=
  if equal this (Some b) then true
  else match _base b with
       | None => false
       | Some b' => isAncestorLoop this b'
       end.

(** [this.isAncestor(other)] *)
Definition isAncestor (this : Block) (other : option Block) : bool :=
  match other with
  | None => false
  | Some o =>
      match base o with
      | None => false
      | Some b => isAncestorLoop this b
      end
  end.

(** [ancestorOf a b]: [a] is, by identifier, a block reached from [b]
    by one or more [base] pointers. *)
Inductive ancestorOf (a : Block) : Block -> Prop :=
| ancestor_base b bb :
    base b = Some bb -> identifier a = identifier bb -> ancestorOf a b
| ancestor_step b bb :
    base b = Some bb -> ancestorOf a bb -> ancestorOf a b.

(** A [BlockObject]: its source selector, its owning block and the
    object it overrides in the base block.  For a [Block] seen as a block
    object, [block] is the block itself. *)
Inductive BlockObject : Type := mkObject {
  source : string;
  block : Block;
  obase : option BlockObject
}.

(** The chain [o; o.base; o.base.base; ...]. *)
Fixpoint baseChain (o : BlockObject) : list BlockObject :=
  o :: match obase o with
       | None => []
       | Some b => baseChain b
       end.

End BlockModel.
Import BlockModel.

(** ** The collaborators of the resolver

    Code of the repository that the resolver calls and that is not among
    the sources: the scope lookup, the selector parser and printer, the
    key-selector query and the conflict detector.  The resolver is
    defined over any implementation of them. *)

Module External.

(** An entry of a query result: [s.parsedSelector] and [s.rule]. *)
Record ClassifiedSelector : Type :=
  classified { parsedSelector : ParsedSelector; crule : Rule }.

(** The result of [QueryKeySelector.execute]: [main], and [other] keyed
    by pseudo-element. *)
Record QueryResult : Type :=
  queryResult { main : list ClassifiedSelector;
                other : gmap string (list ClassifiedSelector) }.

Class Externals : Type := {
  (** [block.lookup(reference)] *)
  lookup : Block -> string -> option BlockObject;
  (** [parseSelector(selector)] *)
  parseSelector : string -> list ParsedSelector;
  (** [ParsedSelector.toString()] *)
  selectorToString : ParsedSelector -> string;
  (** [block.rewriteSelectorToString(selector, opts)] *)
  rewriteSelectorToString : Block -> ParsedSelector -> string;
  (** [new QueryKeySelector(obj).execute(root, obj.block)] *)
  queryKeySelector : BlockObject -> Root -> QueryResult;
  (** [BlockParser.getBlockNode(key)] followed by
      [block.nodeAndTypeToBlockObject(blockNode)] *)
  keyBlockObject : Block -> Compound -> option BlockObject;
  (** [conflictDetection.detectConflicts(obj, base)], read through
      [getConflictSet(pseudoelement)]: pairs of properties. *)
  detectConflicts :
    BlockObject -> BlockObject -> option string -> list (string * string);
  (** [a.mergeNodes(b)] of [CompoundSelector], called on a clone [a]:
      the selector returned, or the exception thrown.  [parseSelector.ts]
      is not among the sources, and nothing is assumed of the merge. *)
  mergeNodes : CompoundSelector -> CompoundSelector -> Result CompoundSelector
}.

End External.
Import External.

(** ** ConflictResolver.ts *)

Module ConflictResolver.

Definition SIBLING_COMBINATORS : list string := ["+"; "~"].
Definition HIERARCHICAL_COMBINATORS : list string := [" "; ">"].
Definition CONTIGUOUS_COMBINATORS : list string := ["+"; ">"].
Definition NONCONTIGUOUS_COMBINATORS : list string := ["~"; " "].

(** [Set.has] on a set of strings. *)
Definition has (s : list string) (x : string) : bool :=
  existsb (String.eqb x) s.

(** [assertBlockObject(obj, key, source)] *)
Definition assertBlockObject (obj : option BlockObject) (key : string)
  : Result BlockObject :=
  match obj with
  | None => throw (InvalidBlockSyntax ("Cannot find " +:+ key))
  | Some o => ret o
  end.

(** [splitSelector(s)]: context, combinator and key. *)
Definition splitSelector (s : CompoundSelector)
  : option CompoundSelector * option Combinator * CompoundSelector :=
  let (s', last) := removeLast (clone s) in
  match last with
  | Some (comb, sel) => (Some s', Some comb, sel)
  | None => (None, None, s')
  end.

Definition multiCombinatorError : Error :=
  InvalidBlockSyntax
    "Cannot resolve selectors with more than 1 combinator at this time [FIXME].".

Definition cannotMergeError (c1 c2 : Combinator) : Error :=
  InvalidBlockSyntax
    ("Cannot merge selectors with combinators: '" +:+ c1 +:+ "' and '"
       +:+ c2 +:+ "' [FIXME?].").

Section Merge.
Context `{Externals}.

(** The branch of [mergeKeySelectors] taken when both selectors have a
    context. *)
Definition mergeContexts (context1 context2 : CompoundSelector)
  (combinator1 combinator2 : Combinator) (mergedKey : CompoundSelector)
  : Result (list CompoundSelector) :=
  if has CONTIGUOUS_COMBINATORS combinator1
     && String.eqb combinator1 combinator2 then
    m <- mergeNodes (clone context1) context2 ;;
    ret [append m combinator1 mergedKey]
  else if has SIBLING_COMBINATORS combinator1
          && has HIERARCHICAL_COMBINATORS combinator2 then
    ret [append (append (clone context2) combinator2 context1)
           combinator1 mergedKey]
  else if has HIERARCHICAL_COMBINATORS combinator1
          && has SIBLING_COMBINATORS combinator2 then
    ret [append (append (clone context1) combinator1 context2)
           combinator2 mergedKey]
  else if has NONCONTIGUOUS_COMBINATORS combinator1
          && has NONCONTIGUOUS_COMBINATORS combinator2 then
    m <- mergeNodes (clone context1) context2 ;;
    ret [append m combinator2 mergedKey;
         append (append (clone context1) combinator1 (clone context2))
           combinator2 (clone mergedKey);
         append (append (clone context2) combinator1 (clone context1))
           combinator2 (clone mergedKey)]
  else if has NONCONTIGUOUS_COMBINATORS combinator1
          && has CONTIGUOUS_COMBINATORS combinator2
          && ((has HIERARCHICAL_COMBINATORS combinator1
               && has HIERARCHICAL_COMBINATORS combinator2)
              || (has SIBLING_COMBINATORS combinator1
                  && has SIBLING_COMBINATORS combinator2)) then
    m <- mergeNodes (clone context1) context2 ;;
    ret [append m combinator2 mergedKey;
         append (append (clone context1) combinator1 (clone context2))
           combinator2 (clone mergedKey)]
  else if has NONCONTIGUOUS_COMBINATORS combinator2
          && has CONTIGUOUS_COMBINATORS combinator1
          && ((has HIERARCHICAL_COMBINATORS combinator2
               && has HIERARCHICAL_COMBINATORS combinator1)
              || (has SIBLING_COMBINATORS combinator2
                  && has SIBLING_COMBINATORS combinator1)) then
    m <- mergeNodes (clone context1) context2 ;;
    ret [append m combinator1 mergedKey;
         append (append (clone context2) combinator2 (clone context1))
           combinator1 (clone mergedKey)]
  else throw (cannotMergeError combinator1 combinator2).

(** [mergeKeySelectors(s1, s2)] *)
Definition mergeKeySelectors (s1 s2 : ParsedSelector)
  : Result (list ParsedSelector) :=
  if Nat.ltb 2 (plength s1) && Nat.ltb 2 (plength s2) then
    throw multiCombinatorError
  else
    let '(context1, combinator1, key1) := splitSelector (psel s1) in
    let '(context2, combinator2, key2) := splitSelector (psel s2) in
    mergedKey <- mergeNodes (clone key1) key2 ;;
    mergedSels <-
      match context1, context2, combinator1, combinator2 with
      | Some c1, Some c2, Some k1, Some k2 => mergeContexts c1 c2 k1 k2 mergedKey
      | Some c1, _, Some k1, _ => ret [append (clone c1) k1 mergedKey]
      | _, Some c2, _, Some k2 => ret [append (clone c2) k2 mergedKey]
      | _, _, _, _ => ret [mergedKey]
      end ;;
    ret (List.map parsed mergedSels).

End Merge.

Section WithExternals.
Context `{Externals}.

(** Identity of block objects: the owning block and the source
    selector. *)
Definition sameObject (a b : BlockObject) : bool :=
  String.eqb (identifier (block a)) (identifier (block b))
  && String.eqb (source a) (source b).

(** The loop state of one rule in [resolveInheritance]: the two
    [Conflicts] caches, keyed by pseudo-element, and the rule's nodes. *)
Record InheritState : Type := inheritState {
  handledConflicts : gmap (option string) (list string);
  handledObjects : gmap (option string) (list BlockObject);
  inodes : list ChildNode
}.

Definition resolveInheritedValue (blockBaseName baseSource : string)
  : string :=
  "resolve-inherited(" +:+ String dquote (blockBaseName +:+ baseSource)
    +:+ String dquote ")".

(** The body of [conflictingProps.forEach]. *)
Definition injectResolution (blockBaseName baseSource : string)
  (pe : option string) (ruleProps : list string)
  (st : InheritState) (c : string * string) : InheritState :=
  let thisProp := fst c in
  let handledConflictSet := default [] (handledConflicts st !! pe) in
  if has ruleProps thisProp && negb (has handledConflictSet thisProp) then
    {| handledConflicts :=
         <[pe := handledConflictSet ++ [thisProp]]> (handledConflicts st);
       handledObjects := handledObjects st;
       inodes :=
         Decl {| prop := thisProp;
                 value := resolveInheritedValue blockBaseName baseSource |}
         :: inodes st |}
  else st.

(** The body of [parsedSelectors.forEach]. *)
Definition inheritSelector (blk : Block) (blockBaseName : string)
  (st : InheritState) (sel : ParsedSelector) : InheritState :=
  let k := key sel in
  match keyBlockObject blk k with
  | None => st
  | Some obj =>
      let pe := pseudoelement k in
      let objectConflicts := default [] (handledObjects st !! pe) in
      if existsb (sameObject obj) objectConflicts then st
      else
        let st1 :=
          {| handledConflicts := handledConflicts st;
             handledObjects :=
               <[pe := objectConflicts ++ [obj]]> (handledObjects st);
             inodes := inodes st |} in
        match obase obj with
        | None => st1
        | Some bs =>
            let baseSource := source bs in
            let conflictingProps := detectConflicts obj bs pe in
            match conflictingProps with
            | [] => st1
            | _ =>
                let ruleProps := declProps (inodes st1) in
                fold_left
                  (injectResolution blockBaseName baseSource pe ruleProps)
                  conflictingProps st1
            end
        end
  end.

(** The callback of [root.walkRules] in [resolveInheritance]. *)
Definition inheritRule (blk : Block) (blockBaseName : string) (r : Rule)
  : Rule :=
  let st0 := {| handledConflicts := ∅; handledObjects := ∅;
                inodes := nodes r |} in
  let st := fold_left (inheritSelector blk blockBaseName)
              (parseSelector (selector r)) st0 in
  {| selector := selector r; nodes := inodes st |}.

(** [root.walkRules(callback)]: the tree after the walk, and the rules
    the callback was called on, in order. *)
Fixpoint walkRules (f : Rule -> Rule) (n : Node) : Node * list Rule :=
  match n with
  | NRule r => (NRule (f r), [r])
  | NAtRule nm ps ch =>
      let rs := List.map (walkRules f) ch in
      (NAtRule nm ps (List.map fst rs), concat (List.map snd rs))
  | NComment t => (n, [])
  end.

Definition walkRulesRoot (f : Rule -> Rule) (rt : Root) : Root * list Rule :=
  let rs := List.map (walkRules f) rt in
  (List.map fst rs, concat (List.map snd rs)).

(** JavaScript truthiness of [blockBase && blockBaseName]: the empty
    string is falsy. *)
Definition truthy (s : option string) : bool :=
  match s with
  | None => false
  | Some EmptyString => false
  | Some _ => true
  end.

(** [resolveInheritance(root, block)]: the tree afterwards and the rules
    visited. *)
Definition resolveInheritance (rt : Root) (blk : Block) : Root * list Rule :=
  match base blk, baseName blk with
  | Some blockBase, Some blockBaseName =>
      if truthy (Some blockBaseName) then
        walkRulesRoot (inheritRule blk blockBaseName) rt
      else (rt, [])
  | _, _ => (rt, [])
  end.

(** *** [resolve] *)

(** The variables of the sibling scan: [otherDecls], [isOverride],
    [foundOtherValue] and [foundResolve]. *)
Record Scan : Type := scan {
  otherDecls : list Declaration;
  isOverride : bool;
  foundOtherValue : option nat;
  foundResolve : option nat
}.

Definition scanInit : Scan :=
  {| otherDecls := []; isOverride := false;
     foundOtherValue := None; foundResolve := None |}.

Definition mixedOrderError (p : string) : Error :=
  InvalidBlockSyntax
    ("Resolving " +:+ p +:+ " must happen either before or after all other values for "
       +:+ p +:+ ".").

Definition noConcreteValueError (p : string) : Error :=
  InvalidBlockSyntax
    ("Cannot resolve " +:+ p +:+ " without a concrete value.").

Definition ownBlockError : Error :=
  InvalidBlockSyntax "Cannot resolve conflicts with your own block.".

Definition ancestorError : Error :=
  InvalidBlockSyntax
    "Cannot resolve conflicts with ancestors of your own block.".

Definition noConflictError (p referenceStr : string) : Error :=
  InvalidBlockSyntax
    ("There are no conflicting values for " +:+ p
       +:+ " found in any selectors targeting " +:+ referenceStr +:+ ".").

Definition missingRootError (referenceStr : string) : Error :=
  TypeError
    ("Cannot resolve. The block for " +:+ referenceStr
       +:+ " is missing a stylesheet root").

(** Reading a property of [undefined]. *)
Definition undefinedError : Error :=
  TypeError "Cannot read property of undefined".

(** The callback of [decl.parent.walkDecls(decl.prop, ...)]. *)
Definition scanStep (d : Declaration) (st : Scan) (x : nat * Declaration)
  : Result Scan :=
  let (idx, otherDecl) := x in
  if isResolve (value otherDecl) then
    if negb (String.eqb (value otherDecl) (value d)) then ret st
    else
      ret {| otherDecls := otherDecls st;
             isOverride := bool_decide (foundOtherValue st <> None);
             foundOtherValue := foundOtherValue st;
             foundResolve := Some idx |}
  else
    let continue :=
      ret {| otherDecls := otherDecls st ++ [otherDecl];
             isOverride := isOverride st;
             foundOtherValue := Some idx;
             foundResolve := foundResolve st |} in
    match foundOtherValue st, foundResolve st with
    | Some v, Some r =>
        if Nat.ltb v r then throw (mixedOrderError (prop d)) else continue
    | _, _ => continue
    end.

Definition scanSiblings (d : Declaration) (parent : Rule) : Result Scan :=
  foldM (scanStep d) (walkDecls (prop d) parent) scanInit.

(** The same-values check: [d] and [sameValues] after the walk over the
    declarations of the target rule; the walk ends at the first
    difference. *)
Fixpoint sameValuesLoop (others : list Declaration) (d : nat)
  (l : list (nat * Declaration)) : Result (nat * bool) :=
  match l with
  | [] => ret (d, true)
  | (_, overrideDecl) :: l' =>
      if negb (isResolve (value overrideDecl)) then
        if Nat.eqb (length others) d then ret (d, false)
        else
          match others !! d with
          | None => throw undefinedError
          | Some od =>
              if negb (String.eqb (value overrideDecl) (value od)) then
                ret (S d, false)
              else sameValuesLoop others (S d) l'
          end
      else sameValuesLoop others d l'
  end.

(** The values of the concrete declarations of [p] in a rule. *)
Definition concreteValues (p : string) (r : Rule) : list string :=
  List.map (fun x => value (snd x))
    (List.filter (fun x => negb (isResolve (value (snd x)))) (walkDecls p r)).

(** The state of [resolveConflictWith]: [foundConflict],
    [resolvedSelectors], the query result (its arrays are reversed in
    place) and the rules that follow [decl.parent] in the tree because
    they were inserted after it. *)
Record Walk : Type := walk {
  foundConflict : ConflictType;
  resolvedSelectors : list string;
  result : QueryResult;
  inserted : list Rule
}.

(** The same state in a tree where the rules [extra] already followed
    [decl.parent]. *)
Definition withFollowing (extra : list Rule) (st : Walk) : Walk :=
  {| foundConflict := foundConflict st;
     resolvedSelectors := resolvedSelectors st;
     result := result st;
     inserted := inserted st ++ extra |}.

Definition newline : string := String (ascii_of_nat 10) EmptyString.

(** [block.rewriteSelector(selector, opts)]: the first selector of the
    reparsed string. *)
Definition rewriteSelector (blk : Block) (sel : ParsedSelector)
  : option ParsedSelector :=
  head (parseSelector (rewriteSelectorToString blk sel)).

(** The body of [resultSels.reverse().forEach]. *)
Definition resolveSelector (otherObj : BlockObject) (d : Declaration)
  (others : list Declaration) (override : bool) (cs : ParsedSelector)
  (st : Walk) (s : ClassifiedSelector) : Result Walk :=
  s1 <- match rewriteSelector (block otherObj) (parsedSelector s) with
        | None => throw undefinedError
        | Some s1 => ret s1
        end ;;
  newSels <- mergeKeySelectors s1 cs ;;
  let newSelStr :=
    String.concat ("," +:+ newline) (List.map selectorToString newSels) in
  if has (resolvedSelectors st) newSelStr then ret st
  else
    let resolved := resolvedSelectors st ++ [newSelStr] in
    same <- sameValuesLoop others 0 (walkDecls (prop d) (crule s)) ;;
    if snd same && Nat.eqb (length others) (fst same) then
      ret {| foundConflict := updateConflict (foundConflict st) samevalues;
             resolvedSelectors := resolved;
             result := result st; inserted := inserted st |}
    else
      let targetValues := concreteValues (prop d) (crule s) in
      let found :=
        fold_left (fun fc _ => updateConflict fc conflict)
          targetValues (foundConflict st) in
      let newNodes :=
        if override then
          List.map (fun v => Decl {| prop := prop d; value := v |}) targetValues
        else
          match targetValues with
          | [] => []
          | _ =>
              List.map
                (fun od => Decl {| prop := prop d; value := value od |})
                others
          end in
      ret {| foundConflict := found;
             resolvedSelectors := resolved;
             result := result st;
             inserted :=
               match newNodes with
               | [] => inserted st
               | _ => {| selector := newSelStr; nodes := newNodes |}
                        :: inserted st
               end |}.

(** The body of [curSel.forEach]. *)
Definition resolveCurrentSelector (otherObj : BlockObject) (d : Declaration)
  (others : list Declaration) (override : bool)
  (st : Walk) (cs : ParsedSelector) : Result Walk :=
  let resultSels :=
    match pseudoelement (key cs) with
    | Some pe => other (result st) !! pe
    | None => Some (main (result st))
    end in
  match resultSels with
  | None | Some [] => ret st
  | Some sels =>
      let reversed := rev sels in
      let result' :=
        match pseudoelement (key cs) with
        | Some pe =>
            {| main := main (result st);
               other := <[pe := reversed]> (other (result st)) |}
        | None => {| main := reversed; other := other (result st) |}
        end in
      foldM (resolveSelector otherObj d others override cs) reversed
        {| foundConflict := foundConflict st;
           resolvedSelectors := resolvedSelectors st;
           result := result'; inserted := inserted st |}
  end.

(** [resolveConflictWith(referenceStr, other, decl, otherDecls,
    isOverride)]: the classification and the rules that now follow
    [decl.parent]. *)
Definition resolveConflictWith (referenceStr : string)
  (otherObj : BlockObject) (parent : Rule) (d : Declaration)
  (others : list Declaration) (override : bool) (ins : list Rule)
  : Result (ConflictType * list Rule) :=
  let curSel := parseSelector (selector parent) in
  match root (block otherObj) with
  | None => throw (missingRootError referenceStr)
  | Some rt =>
      st <- foldM (resolveCurrentSelector otherObj d others override) curSel
              {| foundConflict := noconflict; resolvedSelectors := [];
                 result := queryKeySelector otherObj rt; inserted := ins |} ;;
      ret (foundConflict st, inserted st)
  end.

(** The classification of one level of the chain. *)
Definition classify (referenceStr : string) (parent : Rule) (d : Declaration)
  (others : list Declaration) (override : bool) (otherObj : BlockObject)
  : Result ConflictType :=
  r <- resolveConflictWith referenceStr otherObj parent d others override [] ;;
  ret (fst r).

(** The outcome of the walk up the inheritance chain: the final value
    of [foundConflict], the rules that follow [decl.parent], and the
    levels [resolveConflictWith] was called on, in order. *)
Record ChainWalk : Type := chainWalk {
  found : ConflictType;
  after : list Rule;
  levels : list BlockObject
}.

(** The loop [while (other && foundConflict === noconflict)]. *)
Fixpoint walkChain (referenceStr : string) (parent : Rule) (d : Declaration)
  (others : list Declaration) (override : bool)
  (otherObj : BlockObject) (ins : list Rule) : Result ChainWalk :=
  r <- resolveConflictWith referenceStr otherObj parent d others override ins ;;
  match fst r with
  | noconflict =>
      match obase otherObj with
      | None =>
          ret {| found := noconflict; after := snd r; levels := [otherObj] |}
      | Some b =>
          w <- walkChain referenceStr parent d others override b (snd r) ;;
          ret {| found := found w; after := after w;
                 levels := otherObj :: levels w |}
      end
  | fc => ret {| found := fc; after := snd r; levels := [otherObj] |}
  end.

(** The two checks on the target of a resolution. *)
Definition checkTarget (blk : Block) (resolveInherited : bool)
  (otherObj : BlockObject) : Result unit :=
  if equal blk (Some (block otherObj)) then throw ownBlockError
  else if negb resolveInherited && isAncestor (block otherObj) (Some blk) then
    throw ancestorError
  else ret tt.

(** The callback of [root.walkDecls] in [resolve], for a declaration
    [d] of the rule [parent] followed by the rules [ins]: [None] when
    the declaration is not a resolution; otherwise the walk up the chain,
    after which the declaration is removed. *)
Definition resolveDecl (blk : Block) (parent : Rule) (d : Declaration)
  (ins : list Rule) : Result (option ChainWalk) :=
  match RESOLVE_RE (value d) with
  | None => ret None
  | Some (resolveInherited, referenceStr) =>
      st <- scanSiblings d parent ;;
      match foundOtherValue st with
      | None => throw (noConcreteValueError (prop d))
      | Some _ =>
          otherObj <- assertBlockObject (lookup blk referenceStr) referenceStr ;;
          _ <- checkTarget blk resolveInherited otherObj ;;
          w <- walkChain referenceStr parent d (otherDecls st) (isOverride st)
                 otherObj ins ;;
          if negb resolveInherited
             && bool_decide (found w = noconflict) then
            throw (noConflictError (prop d) referenceStr)
          else ret (Some w)
      end
  end.

(** The walk over the children of one rule: [done] are the children
    already passed (resolutions among them removed), [todo] the children
    still to visit. *)
Fixpoint resolveChildren (blk : Block) (sel : string)
  (done todo : list ChildNode) (ins : list Rule)
  : Result (list ChildNode * list Rule) :=
  match todo with
  | [] => ret (done, ins)
  | Comment t :: todo' =>
      resolveChildren blk sel (done ++ [Comment t]) todo' ins
  | Decl d :: todo' =>
      r <- resolveDecl blk {| selector := sel; nodes := done ++ todo |} d ins ;;
      match r with
      | None => resolveChildren blk sel (done ++ [Decl d]) todo' ins
      | Some w => resolveChildren blk sel done todo' (after w)
      end
  end.

(** [root.walkDecls] over the tree.  A rule is followed in the result
    by the rules inserted after it; these hold concrete declarations
    only, so the walk passes over them. *)
Fixpoint resolveNode (blk : Block) (n : Node) : Result (list Node) :=
  match n with
  | NRule r =>
      x <- resolveChildren blk (selector r) [] (nodes r) [] ;;
      ret (NRule {| selector := selector r; nodes := fst x |}
             :: List.map NRule (snd x))
  | NAtRule nm ps ch =>
      ch' <- (fix go (l : list Node) : Result (list Node) :=
                match l with
                | [] => ret []
                | c :: l' =>
                    a <- resolveNode blk c ;;
                    b <- go l' ;;
                    ret (a ++ b)
                end) ch ;;
      ret [NAtRule nm ps ch']
  | NComment t => ret [n]
  end.

(** [resolve(root, block)] *)
Fixpoint resolve (rt : Root) (blk : Block) : Result Root :=
  match rt with
  | [] => ret []
  | n :: rt' =>
      a <- resolveNode blk n ;;
      b <- resolve rt' blk ;;
      ret (a ++ b)
  end.

End WithExternals.

End ConflictResolver.
Import ConflictResolver.

(** ** BlockCompiler.ts *)

Module BlockCompiler.

(** What [compile] uses of the options, of [parseBlockDebug] and of the
    block: none of it is among the sources. *)
Class CompilerExternals : Type := {
  (** [opts.importer.debugIdentifier(identifier, opts)] *)
  debugIdentifier : string -> string;
  (** [parseBlockDebug(atRule, sourceFile, block)] read from the at-rule
      parameters: the block referred to and the channel. *)
  parseBlockDebug : string -> string -> Block -> Block * string;
  (** [block.debug(opts)] *)
  debug : Block -> list string;
  (** [opts.interoperableCSS] *)
  interoperableCSS : bool;
  (** [block.merged()], in the order of [Object.keys]. *)
  merged : Block -> list (string * list BlockObject);
  (** [obj.localName()] *)
  localName : BlockObject -> string;
  (** [obj.cssClass(opts)] *)
  cssClass : BlockObject -> string
}.

Section WithExternals.
Context `{Externals} `{CompilerExternals}.

(** The callback of [root.walkAtRules("block-debug", ...)]. *)
Fixpoint processDebugStatement (sourceFile : string) (blk : Block) (n : Node)
  : option Node :=
  match n with
  | NAtRule nm ps ch =>
      if String.eqb nm "block-debug" then
        let (ref, channel) := parseBlockDebug ps sourceFile blk in
        if String.eqb channel "comment" then
          Some (NComment (String.concat (newline +:+ "   ") (debug ref)))
        else None
      else Some (NAtRule nm ps (omap (processDebugStatement sourceFile blk) ch))
  | _ => Some n
  end.

(** [processDebugStatements(sourceFile, root, block)] *)
Definition processDebugStatements (sourceFile : string) (rt : Root)
  (blk : Block) : Root :=
  omap (processDebugStatement sourceFile blk) rt.

(** The callback of [root.walkRules(/\.root/, ...)]: the block-only
    declarations are removed, then the rule itself if no node is left. *)
Fixpoint cleanRootRule (n : Node) : option Node :=
  match n with
  | NRule r =>
      if ROOT_RE (selector r) then
        match removeDecls BLOCK_PROP_RE (nodes r) with
        | [] => None
        | ns => Some (NRule {| selector := selector r; nodes := ns |})
        end
      else Some n
  | NAtRule nm ps ch => Some (NAtRule nm ps (omap cleanRootRule ch))
  | NComment _ => Some n
  end.

(** "Clean up CSS Block specific properties": the two walks that follow
    the debug statements in [compile]. *)
Definition stripBlockSyntax (rt : Root) : Root :=
  omap cleanRootRule (omap (removeAtRules "block-reference") rt).

(** The second [root.walkRules] of [compile]: the selector of every rule
    is rewritten.  [block.getParsedSelectors(rule)] is the parse of the
    rule's selector, cached by rule. *)
Definition rewriteRule (blk : Block) (r : Rule) : Rule :=
  {| selector :=
       String.concat ("," +:+ newline)
         (List.map (rewriteSelectorToString blk) (parseSelector (selector r)));
     nodes := nodes r |}.

(** [injectExports(root, block)] *)
Definition exportDecl (e : string * list BlockObject) : Result ChildNode :=
  match snd e with
  | [] => throw undefinedError
  | o :: _ =>
      ret (Decl {| prop := localName o;
                   value := String.concat " " (List.map cssClass (snd e)) |})
  end.

Definition injectExports (rt : Root) (blk : Block) : Result Root :=
  ds <- foldM (fun acc e => d <- exportDecl e ;; ret (acc ++ [d]))
          (merged blk) [] ;;
  ret (NRule {| selector := ":export"; nodes := ds |} :: rt).

(** The tree handed to [resolver.resolveInheritance]. *)
Definition beforeInheritance (blk : Block) (rt : Root) : Root :=
  let filename := debugIdentifier (identifier blk) in
  stripBlockSyntax (processDebugStatements filename rt blk).

(** [compile(block, root, analysis)] *)
Definition compile (blk : Block) (rt : Root) : Result Root :=
  let rt1 := beforeInheritance blk rt in
  let rt2 := fst (resolveInheritance rt1 blk) in
  let rt3 := fst (walkRulesRoot (rewriteRule blk) rt2) in
  rt4 <- resolve rt3 blk ;;
  if interoperableCSS then injectExports rt4 blk else ret rt4.

End WithExternals.

End BlockCompiler.
Import BlockCompiler.

(** ** Style.resolveStyles

    Styles and sets are objects: a heap maps the identity of a style to
    its fields and the identity of a [Set] to its contents, kept in
    insertion order. *)

Module Style.

Abbreviation StyleId := nat (only parsing).
Abbreviation SetRef := nat (only parsing).

Record StyleObj : Type :=
  styleObj { sbase : option StyleId; _resolvedStyles : option SetRef }.

Record Heap : Type :=
  heap { styles : gmap nat StyleObj; sets : gmap nat (list nat) }.

(** [set.add(x)] *)
Definition setAdd (x : StyleId) (l : list StyleId) : list StyleId :=
  if bool_decide (x ∈ l) then l else l ++ [x].

(** The contents of [new Set(iterable)]. *)
Definition setOf (l : list StyleId) : list StyleId :=
  fold_left (fun acc x => setAdd x acc) l [].

(** [new Set(iterable)]: a set object that is not in the heap yet. *)
Definition newSet (contents : list StyleId) (h : Heap) : SetRef * Heap :=
  let r := fresh (dom (sets h)) in
  (r, {| styles := styles h; sets := <[r := setOf contents]> (sets h) |}).

(** The mutations a caller can apply to a set it holds. *)
Inductive SetCall : Type :=
| CallAdd (x : StyleId)
| CallDelete (x : StyleId)
| CallClear.

Definition setCall (c : SetCall) (l : list StyleId) : list StyleId :=
  match c with
  | CallAdd x => setAdd x l
  | CallDelete x => List.filter (fun y => negb (Nat.eqb x y)) l
  | CallClear => []
  end.

Definition mutate (r : SetRef) (c : SetCall) (h : Heap) : Heap :=
  {| styles := styles h; sets := alter (setCall c) r (sets h) |}.

Definition mutations (r : SetRef) (cs : list SetCall) (h : Heap) : Heap :=
  fold_left (fun h c => mutate r c h) cs h.

(** Assignment to [this._resolvedStyles]. *)
Definition setResolved (this : StyleId) (c : SetRef) (h : Heap) : Heap :=
  {| styles :=
       alter (fun o => {| sbase := sbase o; _resolvedStyles := Some c |})
         this (styles h);
     sets := sets h |}.

(** Assignment to [base], by the parser. *)
Definition setStyleBase (this : StyleId) (b : option StyleId) (h : Heap)
  : Heap :=
  {| styles :=
       alter (fun o => {| sbase := b; _resolvedStyles := _resolvedStyles o |})
         this (styles h);
     sets := sets h |}.

(** Modelled from the spec: [Inheritable.resolveInheritance] is missing;
    it walks the [base] pointers and returns the styles met.  The walk
    does not return when the pointers form a cycle: [None] stands for a
    walk longer than [fuel]. *)
Fixpoint basesFrom (fuel : nat) (h : Heap) (b : option StyleId)
  : option (list StyleId) :=
  match b with
  | None => Some []
  | Some i =>
      match fuel with
      | 0 => None
      | S fuel' =>
          o ← styles h !! i;
          l ← basesFrom fuel' h (sbase o);
          Some (i :: l)
      end
  end.

Definition resolveInheritance (fuel : nat) (h : Heap) (this : StyleId)
  : option (list StyleId) :=
  o ← styles h !! this; basesFrom fuel h (sbase o).

(** [impliedStyles()]: the placeholder returns [undefined]. *)
Definition impliedStyles (s : StyleId) : option (list StyleId) := None.

(** Modelled from the spec: [unionInto(target, source)] of [util], which
    is missing, adds the elements of [source] to [target]. *)
Definition unionInto (target : SetRef) (source : list StyleId) (h : Heap)
  : Heap :=
  {| styles := styles h;
     sets := alter (fun l => fold_left (fun acc x => setAdd x acc) source l)
               target (sets h) |}.

Fixpoint foldO {A S} (f : S -> A -> option S) (l : list A) (s : S)
  : option S :=
  match l with
  | [] => Some s
  | a :: l' => s' ← f s a; foldO f l' s'
  end.

(** [this.resolveStyles()]: the set returned and the heap afterwards.
    [fuel] bounds the depth of the calls through implied styles and the
    length of the walk over [base]. *)
Fixpoint resolveStyles (fuel : nat) (this : StyleId) (h : Heap)
  : option (SetRef * Heap) :=
  match fuel with
  | 0 => None
  | S fuel' =>
      o ← styles h !! this;
      match _resolvedStyles o with
      | Some c =>
          contents ← sets h !! c;
          Some (newSet contents h)
      | None =>
          inheritedStyles ← resolveInheritance fuel' h this;
          let (c, h1) := newSet inheritedStyles h in
          let h2 := setResolved this c h1 in
          let h3 := mutate c (CallAdd this) h2 in
          h4 ← foldO
                 (fun h s =>
                    match impliedStyles s with
                    | None => Some h
                    | Some implied =>
                        foldO
                          (fun h i =>
                             x ← resolveStyles fuel' i h;
                             rs ← sets (snd x) !! fst x;
                             Some (unionInto c rs (snd x)))
                          implied h
                    end)
                 inheritedStyles h3;
          contents ← sets h4 !! c;
          Some (newSet contents h4)
      end
  end.

(** The styles reachable from [s] by one or more [base] pointers. *)
Inductive inherits (h : Heap) : StyleId -> StyleId -> Prop :=
| inherits_base s o b :
    styles h !! s = Some o -> sbase o = Some b -> inherits h s b
| inherits_trans s o b x :
    styles h !! s = Some o -> sbase o = Some b -> inherits h b x ->
    inherits h s x.

(** The chain of [base] pointers that starts at [b] is finite and is
    [l]. *)
Inductive baseList (h : Heap) : option StyleId -> list StyleId -> Prop :=
| baseList_nil : baseList h None []
| baseList_cons i o l :
    styles h !! i = Some o -> baseList h (sbase o) l ->
    baseList h (Some i) (i :: l).

End Style.

(** ** Occurrence in a tree *)

Module Tree.

(** A node and all the nodes below it, in document order. *)
Fixpoint subnodes (n : Node) : list Node :=
  n :: match n with
       | NAtRule _ _ ch => flat_map subnodes ch
       | _ => []
       end.

(** All the nodes of a tree, at any depth. *)
Definition allNodes (rt : Root) : list Node := flat_map subnodes rt.

Definition isAtRuleNamed (nm : string) (n : Node) : Prop :=
  match n with NAtRule nm' _ _ => nm' = nm | _ => False end.

(** A declaration of a block-only property. *)
Definition isBlockOnlyDecl (c : ChildNode) : Prop :=
  match c with Decl d => BLOCK_PROP_RE (prop d) = true | Comment _ => False end.

(** A concrete declaration of [p]: one whose value is not a
    resolution. *)
Definition isConcrete (p : string) (c : ChildNode) : Prop :=
  match c with
  | Decl d => prop d = p /\ isResolve (value d) = false
  | Comment _ => False
  end.

(** A declaration of the property of [d] with the value of [d]: the
    sibling scan takes it for the resolution [d] itself. *)
Definition isSameResolve (d : Declaration) (c : ChildNode) : Prop :=
  match c with
  | Decl d' => prop d' = prop d /\ value d' = value d
  | Comment _ => False
  end.

(** What the clean-up of [compile] leaves of a rule whose selector
    matches [ROOT_RE]: no block-only declaration, and at least one
    node. *)
Definition cleanedRootRule (n : Node) : Prop :=
  match n with
  | NRule r =>
      ROOT_RE (selector r) = true ->
      Forall (fun c => ~ isBlockOnlyDecl c) (nodes r) /\ nodes r <> []
  | _ => True
  end.

(** A rule that holds a resolution of a property and no concrete value
    of that property. *)
Definition unresolvable (n : Node) : Prop :=
  match n with
  | NRule r =>
      exists d, In (Decl d) (nodes r) /\ isResolve (value d) = true /\
                Forall (fun c => ~ isConcrete (prop d) c) (nodes r)
  | _ => False
  end.

(** A rule whose declarations are all concrete. *)
Definition concreteOnly (r : Rule) : Prop :=
  Forall (fun c => match c with
                   | Decl d => isResolve (value d) = false
                   | Comment _ => True
                   end) (nodes r).

End Tree.
Import Tree.

(** ** A small stylesheet world for the examples

    Selectors are single class selectors; a query returns the rules of
    the target block whose selector is the source of the object. *)

Module Examples.

Definition cls (n : string) : Compound :=
  {| cnodes := [n]; pseudoelement := None |}.

(** [.a > .b] and the like. *)
Definition sel2 (a : string) (c : Combinator) (k : string) : ParsedSelector :=
  parsed (CSNext (cls a) c (CSLast (cls k))).

Definition printCompound (c : Compound) : string :=
  String.concat EmptyString (cnodes c)
    +:+ match pseudoelement c with Some pe => pe | None => EmptyString end.

Fixpoint printSelector (s : CompoundSelector) : string :=
  match s with
  | CSLast c => printCompound c
  | CSNext c comb s' =>
      printCompound c +:+ " " +:+ comb +:+ " " +:+ printSelector s'
  end.

Definition color (v : string) : ChildNode :=
  Decl {| prop := "color"; value := v |}.

(** Modelled from the spec: [a.mergeNodes(b)] adds the nodes of the
    first compound selector of [b] to those of [a] ([.foo] and [.bar]
    give [.foo.bar]) and keeps the rest of [a]; a node that is already
    there is not added again (the key of [.a > .b] merged with
    [.c > .b] is [.b]).  The examples merge selectors with no
    pseudo-element; two different pseudo-elements cannot be merged. *)
Definition addNode (acc : list string) (n : string) : list string :=
  if has acc n then acc else acc ++ [n].

Definition mergeCompound (a b : Compound) : Result Compound :=
  match pseudoelement a, pseudoelement b with
  | Some pa, Some pb =>
      if String.eqb pa pb then
        ret {| cnodes := fold_left addNode (cnodes a ++ cnodes b) [];
               pseudoelement := Some pb |}
      else
        throw (JsError
                 "Cannot merge two compound selectors with different pseudoelements")
  | pa, None =>
      ret {| cnodes := fold_left addNode (cnodes a ++ cnodes b) [];
             pseudoelement := pa |}
  | None, pb =>
      ret {| cnodes := fold_left addNode (cnodes a ++ cnodes b) [];
             pseudoelement := pb |}
  end.

Definition exampleMergeNodes (a b : CompoundSelector)
  : Result CompoundSelector :=
  let hb := match b with CSLast c => c | CSNext c _ _ => c end in
  match a with
  | CSLast c => c' <- mergeCompound c hb ;; ret (CSLast c')
  | CSNext c comb a' => c' <- mergeCompound c hb ;; ret (CSNext c' comb a')
  end.

Definition baseBlock : Block :=
  setRoot [NRule {| selector := ".root"; nodes := [color "blue"] |};
           NRule {| selector := ".foo"; nodes := [color "blue"] |}]
    (newBlock "base" "base.css").

Definition otherBlock : Block :=
  setRoot [NRule {| selector := ".foo"; nodes := [color "red"] |}]
    (setBase "base" baseBlock (newBlock "other" "other.css")).

Definition appBlock : Block := newBlock "app" "app.css".

Definition childBlock : Block :=
  setBase "base" baseBlock (newBlock "child" "child.css").

Definition baseFoo : BlockObject :=
  {| source := ".foo"; block := baseBlock; obase := None |}.

Definition otherFoo : BlockObject :=
  {| source := ".foo"; block := otherBlock; obase := Some baseFoo |}.

(** An object of [otherBlock] that no rule of the block targets. *)
Definition otherBar : BlockObject :=
  {| source := ".bar"; block := otherBlock; obase := Some baseFoo |}.

Definition appFoo : BlockObject :=
  {| source := ".foo"; block := appBlock; obase := None |}.

Definition baseRoot : BlockObject :=
  {| source := ".root"; block := baseBlock; obase := None |}.

Definition childRoot : BlockObject :=
  {| source := ".root"; block := childBlock; obase := Some baseRoot |}.

Definition rulesNamed (src : string) (rt : Root) : list ClassifiedSelector :=
  omap (fun n =>
          match n with
          | NRule r =>
              if String.eqb (selector r) src then
                Some {| parsedSelector := parsed (CSLast (cls src)); crule := r |}
              else None
          | _ => None
          end) rt.

#[local] Instance exampleExternals : Externals := {|
  lookup := fun _ ref =>
    if String.eqb ref "other.foo" then Some otherFoo
    else if String.eqb ref "base.foo" then Some baseFoo
    else if String.eqb ref "app.foo" then Some appFoo
    else if String.eqb ref "base.root" then Some baseRoot
    else None;
  parseSelector := fun s => [parsed (CSLast (cls s))];
  selectorToString := fun s => printSelector (psel s);
  rewriteSelectorToString := fun _ s => printSelector (psel s);
  queryKeySelector := fun o rt =>
    {| main := rulesNamed (source o) rt; other := ∅ |};
  keyBlockObject := fun _ k =>
    match cnodes k with
    | [".root"] => Some childRoot
    | _ => None
    end;
  detectConflicts := fun _ _ _ => [("color", "color")];
  mergeNodes := exampleMergeNodes
|}.

#[local] Instance exampleCompiler : CompilerExternals := {|
  debugIdentifier := fun i => i;
  parseBlockDebug := fun _ _ b => (b, "comment");
  debug := fun b => [BlockModel.name b];
  interoperableCSS := false;
  merged := fun _ => [];
  localName := source;
  cssClass := source
|}.

(** [.nav { color: red; color: resolve('other.foo') }] *)
Definition overrideRule : Rule :=
  {| selector := ".nav";
     nodes := [color "red"; color "resolve('other.foo')"] |}.

(** Three styles: 3 inherits from 2, which inherits from 1. *)
Definition exampleHeap : Style.Heap :=
  {| Style.styles :=
       {[ 1 := {| Style.sbase := None; Style._resolvedStyles := None |};
          2 := {| Style.sbase := Some 1; Style._resolvedStyles := None |};
          3 := {| Style.sbase := Some 2; Style._resolvedStyles := None |} ]};
     Style.sets := ∅ |}.

End Examples.

(** ** The callers of [resolveStyles]

    A caller holds the sets that its calls returned, and nothing else
    of the heap: [_resolvedStyles] is private. *)

Module StyleClient.

(** What a caller can do after the first call: call again, change a set
    it holds (the [k]-th one returned, counted from 0), or, as the
    parser does, assign [base]. *)
Inductive ClientStep : Type :=
| StepResolve
| StepMutate (k : nat) (c : Style.SetCall)
| StepSetBase (b : option nat).

(** What a call returned: the set, whether it was a new object, and its
    contents at the return. *)
Record Returned : Type :=
  returned { rref : nat; rnew : bool; rcontents : list nat }.

Record Client : Type := client { cheap : Style.Heap; held : list nat }.

Definition step (fuel : nat) (s : nat) (st : Client) (a : ClientStep)
  : option (Client * list Returned) :=
  match a with
  | StepResolve =>
      x ← Style.resolveStyles fuel s (cheap st);
      X ← Style.sets (snd x) !! fst x;
      Some ({| cheap := snd x; held := held st ++ [fst x] |},
            [{| rref := fst x;
                rnew := match Style.sets (cheap st) !! fst x with
                        | None => true
                        | Some _ => false
                        end;
                rcontents := X |}])
  | StepMutate k c =>
      Some (match held st !! k with
            | Some r => {| cheap := Style.mutate r c (cheap st);
                           held := held st |}
            | None => st
            end, [])
  | StepSetBase b =>
      Some ({| cheap := Style.setStyleBase s b (cheap st); held := held st |},
            [])
  end.

(** The steps of a list, one after the other, with what the calls
    returned. *)
Fixpoint run (fuel : nat) (s : nat) (steps : list ClientStep) (st : Client)
  : option (Client * list Returned) :=
  match steps with
  | [] => Some (st, [])
  | a :: steps' =>
      x ← step fuel s st a;
      y ← run fuel s steps' (fst x);
      Some (fst y, snd x ++ snd y)
  end.

(** The number of calls of [resolveStyles] among the steps. *)
Definition resolveCalls (steps : list ClientStep) : nat :=
  length (List.filter (fun a => match a with StepResolve => true | _ => false end)
            steps).

End StyleClient.

(** ** Shapes used in the statements about the passes *)

Module Shapes.

(** The chain [noconflict < samevalues < conflict]. *)
Definition severity (t : ConflictType) : nat :=
  match t with
  | noconflict => 0
  | samevalues => 1
  | conflict => 2
  end.

(** The four combinators of CSS. *)
Definition cssCombinators : list string := [" "; ">"; "+"; "~"].

(** The combinator before the key selector, as [splitSelector] finds
    it. *)
Definition keyCombinator (s : ParsedSelector) : option Combinator :=
  snd (fst (splitSelector (psel s))).

(** The context of the key selector, as [splitSelector] finds it. *)
Definition keyContext (s : ParsedSelector) : option CompoundSelector :=
  fst (fst (splitSelector (psel s))).

(** The children of a rule that are not resolutions. *)
Definition keepChild (c : ChildNode) : bool :=
  match c with
  | Decl d => negb (isResolve (value d))
  | Comment _ => true
  end.

(** A rule emitted for a resolution of [p]: it is not empty and holds
    concrete declarations of [p] only. *)
Definition resolutionOf (p : string) (r : Rule) : Prop :=
  nodes r <> [] /\
  Forall (fun c => exists v, c = Decl {| prop := p; value := v |} /\
                             isResolve v = false) (nodes r).

(** A node that is not a rule, or a rule of concrete declarations. *)
Definition resolved (n : Node) : Prop :=
  match n with
  | NRule r => concreteOnly r
  | _ => True
  end.

(** A query that found no selector, for the element or for any
    pseudo-element. *)
Definition emptyQuery (q : QueryResult) : Prop :=
  main q = [] /\
  forall pe, other q !! pe = None \/ other q !! pe = Some [].

(** A declaration injected by [resolveInheritance] for the base named
    [bn], for a property that the rule [old] declares. *)
Definition injectedDecl (bn : string) (old : list ChildNode) (c : ChildNode)
  : Prop :=
  exists p src,
    c = Decl {| prop := p; value := resolveInheritedValue bn src |} /\
    In p (declProps old).

(** The values of the concrete declarations in a list of calls of
    [walkDecls]. *)
Definition concreteOf (l : list (nat * Declaration)) : list string :=
  List.map (fun x => value (snd x))
    (List.filter (fun x => negb (isResolve (value (snd x)))) l).

End Shapes.
Import Shapes.

(** ** More of the example world *)

Module MoreExamples.

(** An object of [otherBlock] with no base and no rule. *)
Definition otherZap : BlockObject :=
  {| source := ".zap"; block := Examples.otherBlock; obase := None |}.

(** The example collaborators, with a scope that also knows
    [other.zap]. *)
#[local] Instance zapExternals : Externals := {|
  lookup := fun b ref =>
    if String.eqb ref "other.zap" then Some otherZap
    else @lookup Examples.exampleExternals b ref;
  parseSelector := @parseSelector Examples.exampleExternals;
  selectorToString := @selectorToString Examples.exampleExternals;
  rewriteSelectorToString := @rewriteSelectorToString Examples.exampleExternals;
  queryKeySelector := @queryKeySelector Examples.exampleExternals;
  keyBlockObject := @keyBlockObject Examples.exampleExternals;
  detectConflicts := @detectConflicts Examples.exampleExternals;
  mergeNodes := @mergeNodes Examples.exampleExternals
|}.

Definition baseBar : BlockObject :=
  {| source := ".bar"; block := Examples.baseBlock; obase := None |}.

(** Two objects of [childBlock], each with a base of its own. *)
Definition childFoo : BlockObject :=
  {| source := ".foo"; block := Examples.childBlock;
     obase := Some Examples.baseFoo |}.

Definition childBar : BlockObject :=
  {| source := ".bar"; block := Examples.childBlock; obase := Some baseBar |}.

(** The example collaborators, with a parser that knows the selector
    list [.foo, .bar] and a block whose classes [.foo] and [.bar] both
    inherit. *)
#[local] Instance listExternals : Externals := {|
  lookup := @lookup Examples.exampleExternals;
  parseSelector := fun s =>
    if String.eqb s ".foo, .bar" then
      [parsed (CSLast (Examples.cls ".foo"));
       parsed (CSLast (Examples.cls ".bar"))]
    else @parseSelector Examples.exampleExternals s;
  selectorToString := @selectorToString Examples.exampleExternals;
  rewriteSelectorToString := @rewriteSelectorToString Examples.exampleExternals;
  queryKeySelector := @queryKeySelector Examples.exampleExternals;
  keyBlockObject := fun b k =>
    match cnodes k with
    | [".foo"] => Some childFoo
    | [".bar"] => Some childBar
    | _ => @keyBlockObject Examples.exampleExternals b k
    end;
  detectConflicts := @detectConflicts Examples.exampleExternals;
  mergeNodes := @mergeNodes Examples.exampleExternals
|}.

(** [.foo, .bar { color: red }] *)
Definition listRule : Rule :=
  {| selector := ".foo, .bar"; nodes := [Examples.color "red"] |}.

(** [.nav { color: blue; color: resolve('other.foo') }] *)
Definition blueRule : Rule :=
  {| selector := ".nav";
     nodes := [Examples.color "blue"; Examples.color "resolve('other.foo')"] |}.

End MoreExamples.

(** ** More of the [Block] class *)

Module BlockCalls.

(** [get dependencies()]: the elements of the set, in insertion order. *)
Definition dependencies (b : Block) : list string := _dependencies b.

Definition notSetBase (c : BlockCall) : Prop :=
  match c with CallSetBase _ _ => False | _ => True end.

End BlockCalls.
Import BlockCalls.

(** ** BlockParser/features/discover-name.ts

    [BLOCK_NAME] and [CLASS_NAME_IDENT] come from [BlockSyntax], which is
    not among the sources: the property name and the test of the regular
    expression are parameters.  The promise that the function returns is
    its result; a rejected promise is an exception. *)

Module DiscoverName.

(** The rules of a tree, at any depth, in document order. *)
Definition rulesOf (rt : Root) : list Rule :=
  omap (fun n => match n with NRule r => Some r | _ => None end)
       (allNodes rt).

Definition illegalBlockName (v : string) : Error :=
  InvalidBlockSyntax
    ("Illegal block name. '" +:+ v +:+ "' is not a legal CSS identifier.").

Section WithSyntax.
Variable BLOCK_NAME : string.
Variable CLASS_NAME_IDENT : string -> bool.

(** The declarations that the two nested walks call back on, in the
    order of the calls: [root.walkRules(":scope", ...)] visits the rules
    whose selector is the string [:scope], [rule.walkDecls(BLOCK_NAME,
    ...)] their declarations of that property. *)
Definition blockNameDecls (rt : Root) : list Declaration :=
  flat_map (fun r => map snd (walkDecls BLOCK_NAME r))
    (List.filter (fun r => String.eqb (selector r) ":scope") (rulesOf rt)).

(** The callback on one declaration; the state is [defaultName]. *)
Definition discoverDecl (defaultName : string) (d : Declaration)
  : Result string :=
  if CLASS_NAME_IDENT (value d) then ret (value d)
  else throw (illegalBlockName (value d)).

Definition discoverName (rt : Root) (defaultName : string) : Result string :=
  foldM discoverDecl (blockNameDecls rt) defaultName.

End WithSyntax.

End DiscoverName.

(** ** BlockFactory: block names and guids

    [blockNames] is a plain object used as a dictionary, created by an
    empty object literal: a read of a key that is not an own property
    finds the members of [Object.prototype].  [guids] is a [Set]. *)

Module BlockFactory.

(** The property names of [Object.prototype]. *)
Definition objectPrototypeKeys : list string :=
  ["constructor"; "hasOwnProperty"; "isPrototypeOf"; "propertyIsEnumerable";
   "toLocaleString"; "toString"; "valueOf"; "__defineGetter__";
   "__defineSetter__"; "__lookupGetter__"; "__lookupSetter__"; "__proto__"].

Record Factory : Type :=
  factory { blockNames : gmap string string; guids : list string }.

(** [new BlockFactory(...)], and the factory after [reset()]. *)
Definition newFactory : Factory := {| blockNames := ∅; guids := [] |}.

Definition reset (f : Factory) : Factory := newFactory.

(** [this.blockNames[name]] read as a condition: an own property is a
    string, which is falsy when empty; the inherited members of
    [Object.prototype] are objects and functions, which are truthy. *)
Definition registered (f : Factory) (name : string) : bool :=
  match blockNames f !! name with
  | Some identifier => negb (String.eqb identifier EmptyString)
  | None => bool_decide (name ∈ objectPrototypeKeys)
  end.

(** [this.blockNames[name] = identifier]: the assignment creates or
    updates an own property, except that [__proto__], when it is not an
    own property, is the accessor of [Object.prototype], whose setter
    ignores a string. *)
Definition assign (name identifier : string) (f : Factory) : Factory :=
  if String.eqb name "__proto__" && bool_decide (blockNames f !! name = None)
  then f
  else {| blockNames := <[name := identifier]> (blockNames f);
          guids := guids f |}.

(** The template literal: the name, a dash and the decimal digits of
    [i].  The counter stays far below 2^53, where the numbers of
    JavaScript are exact. *)
Definition suffixed (name : string) (i : nat) : string :=
  name +:+ "-" +:+ pretty i.

(** The [while] loop, started at [i]: the first suffix from [i] on that
    is not registered.  [None] stands for a loop longer than [fuel]. *)
Fixpoint freeSuffix (fuel : nat) (f : Factory) (name : string) (i : nat)
  : option nat :=
  match fuel with
  | 0 => None
  | S fuel' =>
      if registered f (suffixed name i) then freeSuffix fuel' f name (S i)
      else Some i
  end.

(** [getUniqueBlockName(name, identifier, doNotOverride)]: the value
    returned ([None] inside is [null]) and the factory afterwards.  The
    loop is given one more turn than the dictionary has own properties. *)
Definition getUniqueBlockName (name identifier : string)
  (doNotOverride : bool) (f : Factory) : option (option string * Factory) :=
  if negb (registered f name) then
    Some (Some name, assign name identifier f)
  else if doNotOverride then Some (None, f)
  else
    i ← freeSuffix (S (size (blockNames f))) f name 2;
    Some (Some (suffixed name i), assign (suffixed name i) identifier f).

(** A request for a name: the arguments of one call. *)
Record NameRequest : Type :=
  nameRequest { reqName : string; reqIdentifier : string;
                reqDoNotOverride : bool }.

(** The calls of a list, one after the other, with the values
    returned. *)
Fixpoint getUniqueBlockNames (reqs : list NameRequest) (f : Factory)
  : option (list (option string) * Factory) :=
  match reqs with
  | [] => Some ([], f)
  | q :: reqs' =>
      x ← getUniqueBlockName (reqName q) (reqIdentifier q)
             (reqDoNotOverride q) f;
      y ← getUniqueBlockNames reqs' (snd x);
      Some (fst x :: fst y, snd y)
  end.

(** [registerGuid(guid)] *)
Definition registerGuid (guid : string) (f : Factory) : bool * Factory :=
  if bool_decide (guid ∈ guids f) then (false, f)
  else (true, {| blockNames := blockNames f; guids := guids f ++ [guid] |}).

Fixpoint registerGuids (gs : list string) (f : Factory)
  : list bool * Factory :=
  match gs with
  | [] => ([], f)
  | g :: gs' =>
      let (r, f1) := registerGuid g f in
      let (rs, f2) := registerGuids gs' f1 in
      (r :: rs, f2)
  end.

(** A dash occurs in the string. *)
Fixpoint hasDash (s : string) : bool :=
  match s with
  | EmptyString => false
  | String c s' => Ascii.eqb c "-" || hasDash s'
  end.

End BlockFactory.

(** * Properties *)

(** ** The regular expressions on the values of the tests *)

Example RESOLVE_RE_resolve :
  RESOLVE_RE "resolve('other.foo')" = Some (false, "other.foo").
Proof. reflexivity. Qed.

Example RESOLVE_RE_inherited :
  RESOLVE_RE ("resolve-inherited(" +:+ String dquote "base.root"
                +:+ String dquote ")") = Some (true, "base.root").
Proof. reflexivity. Qed.

Example RESOLVE_RE_concrete : RESOLVE_RE "red" = None.
Proof. reflexivity. Qed.

Example RESOLVE_RE_mismatched_quotes :
  RESOLVE_RE ("resolve(" +:+ String dquote "a')") = None.
Proof. reflexivity. Qed.

Example ROOT_RE_scope : ROOT_RE ":scope" = false /\ ROOT_RE ".root" = true.
Proof. split; reflexivity. Qed.

(** ** The classification lattice *)

(** C7: [updateConflict] returns [conflict] whenever either argument is
    [conflict]; it returns its second argument when the first is
    [noconflict]; when the first is [samevalues] it returns [conflict] if
    the second is [conflict] and [samevalues] otherwise.  Hence [conflict]
    dominates and [noconflict] is an identity on both sides. *)
Theorem updateConflict_lattice :
  (forall t, updateConflict conflict t = conflict) /\
  (forall t, updateConflict t conflict = conflict) /\
  (forall t, updateConflict noconflict t = t) /\
  (forall t, updateConflict samevalues t =
             if decide (t = conflict) then conflict else samevalues) /\
  (forall t, updateConflict t noconflict = t).
Proof.
  repeat split; intros t; by destruct t.
Qed.

(** ** The name of a block *)

Lemma call_keeps_reset c b :
  hasHadNameReset b = true ->
  hasHadNameReset (fst (call c b)) = true /\
  BlockModel.name (fst (call c b)) = BlockModel.name b.
Proof.
  intros Hr. destruct c; simpl; try done.
  unfold set_name. by rewrite Hr.
Qed.

Lemma calls_keep_reset cs b :
  hasHadNameReset b = true ->
  hasHadNameReset (calls cs b) = true /\
  BlockModel.name (calls cs b) = BlockModel.name b.
Proof.
  revert b. induction cs as [|c cs IH]; intros b Hr; simpl; [done|].
  destruct (call_keeps_reset c b Hr) as [Hr' Hn].
  destruct (IH _ Hr') as [? ?]. split; [done | congruence].
Qed.

Lemma calls_without_set_name cs b :
  Forall notSetName cs ->
  hasHadNameReset (calls cs b) = hasHadNameReset b.
Proof.
  intros Hcs. revert b. induction Hcs as [|c cs Hc _ IH]; intros b; simpl; [done|].
  rewrite IH. by destruct c.
Qed.

(** C8: on a block built by the constructor, the first assignment
    through the [name] setter succeeds and sets the name, whatever other
    calls came before it; after that, every assignment through the setter
    throws "Can not set block name more than once." and leaves the name
    as it is, whatever calls come in between. *)
Theorem name_set_exactly_once (nm id n m : string) (before later : list BlockCall) :
  Forall notSetName before ->
  exists b1,
    set_name n (calls before (newBlock nm id)) = inr b1 /\
    BlockModel.name b1 = n /\
    set_name m (calls later b1)
      = inl (CssBlockError "Can not set block name more than once.") /\
    BlockModel.name (calls later b1) = n.
Proof.
  intros Hb.
  pose proof (calls_without_set_name before (newBlock nm id) Hb) as Hr.
  simpl in Hr. unfold set_name at 1. rewrite Hr.
  eexists. split; [reflexivity|]. split; [reflexivity|].
  match goal with |- context [calls later ?b] =>
    destruct (calls_keep_reset later b eq_refl) as [H1 H2] end.
  split; [| exact H2].
  unfold set_name. by rewrite H1.
Qed.

Lemma name_set_exactly_once_witness :
  exists b1,
    set_name "nav" (calls [CallAddDependency "a.scss"] (newBlock "file" "file.css"))
      = inr b1 /\
    BlockModel.name b1 = "nav" /\
    set_name "menu" (calls [CallSetName "other"; CallSetBase "b" (newBlock "b" "b.css")] b1)
      = inl (CssBlockError "Can not set block name more than once.") /\
    BlockModel.name
      (calls [CallSetName "other"; CallSetBase "b" (newBlock "b" "b.css")] b1)
      = "nav".
Proof.
  apply (name_set_exactly_once "file" "file.css" "nav" "menu").
  repeat constructor.
Defined.

(** ** Inheritance resolution without a base *)

Section Inheritance.
Context `{Externals}.

(** C10: when the block has no base, or no base name, 
    [resolveInheritance] returns the tree as it is and calls back on no
    rule. *)
Theorem resolveInheritance_without_base (rt : Root) (blk : Block) :
  base blk = None \/ baseName blk = None ->
  resolveInheritance rt blk = (rt, []).
Proof.
  unfold resolveInheritance. intros [-> | ->]; [done|].
  by destruct (base blk).
Qed.

End Inheritance.

Lemma resolveInheritance_without_base_witness :
  @resolveInheritance Examples.exampleExternals
    [NRule {| selector := ".root"; nodes := [Examples.color "red"] |}]
    Examples.appBlock
  = ([NRule {| selector := ".root"; nodes := [Examples.color "red"] |}], []).
Proof.
  apply (@resolveInheritance_without_base Examples.exampleExternals).
  left. reflexivity.
Defined.

(** With a base the same tree is rewritten: the pass is not the
    identity. *)
Example resolveInheritance_with_base :
  @resolveInheritance Examples.exampleExternals
    [NRule {| selector := ".root"; nodes := [Examples.color "red"] |}]
    Examples.childBlock
  = ([NRule {| selector := ".root";
               nodes := [Examples.color
                           ("resolve-inherited(" +:+ String dquote "base.root"
                              +:+ String dquote ")");
                         Examples.color "red"] |}],
     [{| selector := ".root"; nodes := [Examples.color "red"] |}]).
Proof. vm_compute. reflexivity. Qed.

(** ** Merging key selectors *)

(** A parsed selector has exactly one combinator when it is made of two
    compound selectors. *)
Lemma one_combinator_shape (s : ParsedSelector) :
  plength s = 2 <->
  exists a c k, s = parsed (CSNext a c (CSLast k)).
Proof.
  destruct s as [cs]. unfold plength. simpl. split.
  - destruct cs as [a | a c [k | k c' cs']]; simpl; try discriminate.
    + intros _. by exists a, c, k.
    + destruct cs'; discriminate.
  - intros (a & c & k & [= ->]). reflexivity.
Qed.

Lemma splitSelector_two a c k :
  splitSelector (CSNext a c (CSLast k)) = (Some (CSLast a), Some c, CSLast k).
Proof. reflexivity. Qed.

Section MergeOneCombinator.
Context `{Externals}.

(** C4, as the code has it: for two selectors with one combinator each,
    the keys are merged first, and an exception of that merge is the
    exception of [mergeKeySelectors].  Otherwise, when both combinators
    are the same contiguous combinator (child or adjacent sibling) the
    result is the one selector made of the merged contexts, that
    combinator and the merged key; when both are the same non-contiguous
    combinator (descendant or general sibling) the result is the three
    selectors merged-flat, context 1 then context 2, and context 2 then
    context 1, each ending in the merged key; when one is the descendant
    and the other the general sibling combinator, the result is the one
    selector that nests the sibling context under the hierarchical one,
    and the contexts are not merged.  What [mergeNodes] returns is not
    constrained. *)
Theorem mergeKeySelectors_one_combinator (a1 k1 a2 k2 : Compound) :
  let s1 c := parsed (CSNext a1 c (CSLast k1)) in
  let s2 c := parsed (CSNext a2 c (CSLast k2)) in
  (forall e c c',
      mergeNodes (CSLast k1) (CSLast k2) = inl e ->
      mergeKeySelectors (s1 c) (s2 c') = inl e) /\
  (forall mergedKey,
      mergeNodes (CSLast k1) (CSLast k2) = inr mergedKey ->
      (forall c mergedContext,
          In c [">"; "+"] ->
          mergeNodes (CSLast a1) (CSLast a2) = inr mergedContext ->
          mergeKeySelectors (s1 c) (s2 c)
          = inr [parsed (append mergedContext c mergedKey)]) /\
      (forall c mergedContext,
          In c [" "; "~"] ->
          mergeNodes (CSLast a1) (CSLast a2) = inr mergedContext ->
          mergeKeySelectors (s1 c) (s2 c)
          = inr [parsed (append mergedContext c mergedKey);
                 parsed (CSNext a1 c (CSNext a2 c mergedKey));
                 parsed (CSNext a2 c (CSNext a1 c mergedKey))]) /\
      (forall c e,
          In c [">"; "+"; " "; "~"] ->
          mergeNodes (CSLast a1) (CSLast a2) = inl e ->
          mergeKeySelectors (s1 c) (s2 c) = inl e) /\
      mergeKeySelectors (s1 " ") (s2 "~")
      = inr [parsed (CSNext a1 " " (CSNext a2 "~" mergedKey))] /\
      mergeKeySelectors (s1 "~") (s2 " ")
      = inr [parsed (CSNext a2 " " (CSNext a1 "~" mergedKey))]).
Proof.
  intros s1 s2. split.
  - intros e c c' He. unfold mergeKeySelectors, s1, s2, plength. simpl.
    unfold clone. by rewrite He.
  - intros mergedKey Hk.
    assert (Hstart : forall c c',
              mergeKeySelectors (s1 c) (s2 c')
              = (mergedSels <- mergeContexts (CSLast a1) (CSLast a2) c c'
                                 mergedKey ;;
                 ret (List.map parsed mergedSels))).
    { intros c c'. unfold mergeKeySelectors, s1, s2, plength. simpl.
      unfold clone. by rewrite Hk. }
    split; [|split; [|split; [|split]]].
    + intros c mc [<- | [<- | []]] Hc; rewrite Hstart;
        unfold mergeContexts, clone; simpl; by rewrite Hc.
    + intros c mc [<- | [<- | []]] Hc; rewrite Hstart;
        unfold mergeContexts, clone; simpl; by rewrite Hc.
    + intros c e [<- | [<- | [<- | [<- | []]]]] Hc; rewrite Hstart;
        unfold mergeContexts, clone; simpl; by rewrite Hc.
    + rewrite Hstart. reflexivity.
    + rewrite Hstart. reflexivity.
Qed.

End MergeOneCombinator.

Lemma mergeKeySelectors_one_combinator_witness :
  @mergeKeySelectors Examples.exampleExternals
    (Examples.sel2 ".a" ">" ".b") (Examples.sel2 ".c" ">" ".b")
  = inr [parsed (CSNext {| cnodes := [".a"; ".c"]; pseudoelement := None |} ">"
                   (CSLast (Examples.cls ".b")))]
  /\
  @mergeKeySelectors Examples.exampleExternals
    (Examples.sel2 ".a" " " ".b") (Examples.sel2 ".c" " " ".b")
  = inr [parsed (CSNext {| cnodes := [".a"; ".c"]; pseudoelement := None |} " "
                   (CSLast (Examples.cls ".b")));
         parsed (CSNext (Examples.cls ".a") " "
                   (CSNext (Examples.cls ".c") " " (CSLast (Examples.cls ".b"))));
         parsed (CSNext (Examples.cls ".c") " "
                   (CSNext (Examples.cls ".a") " " (CSLast (Examples.cls ".b"))))].
Proof.
  destruct (@mergeKeySelectors_one_combinator Examples.exampleExternals
              (Examples.cls ".a") (Examples.cls ".b")
              (Examples.cls ".c") (Examples.cls ".b")) as [_ Hok].
  destruct (Hok (CSLast (Examples.cls ".b")) eq_refl) as (Hsame & Hthree & _).
  split.
  - apply (Hsame ">" (CSLast {| cnodes := [".a"; ".c"]; pseudoelement := None |}));
      [simpl; auto | reflexivity].
  - apply (Hthree " " (CSLast {| cnodes := [".a"; ".c"]; pseudoelement := None |}));
      [simpl; auto | reflexivity].
Defined.

(** The descendant and the general sibling combinators are both
    non-contiguous, yet [.a .b] merged with [.c ~ .b] is the single
    selector [.a .c ~ .b], not three alternatives. *)
Lemma mergeKeySelectors_noncontiguous_counterexample :
  plength (Examples.sel2 ".a" " " ".b") = 2 /\
  plength (Examples.sel2 ".c" "~" ".b") = 2 /\
  has NONCONTIGUOUS_COMBINATORS " " = true /\
  has NONCONTIGUOUS_COMBINATORS "~" = true /\
  @mergeKeySelectors Examples.exampleExternals
    (Examples.sel2 ".a" " " ".b") (Examples.sel2 ".c" "~" ".b")
  = inr [parsed (CSNext (Examples.cls ".a") " "
                   (CSNext (Examples.cls ".c") "~"
                      (CSLast (Examples.cls ".b"))))] /\
  ~ (exists x y z,
        @mergeKeySelectors Examples.exampleExternals
          (Examples.sel2 ".a" " " ".b")
          (Examples.sel2 ".c" "~" ".b") = inr [x; y; z]).
Proof.
  repeat split; try reflexivity.
  intros (x & y & z & Hxyz). discriminate Hxyz.
Qed.

(** ** The clean-up pass of the compiler *)

Lemma Node_ind' (P : Node -> Prop) :
  (forall r, P (NRule r)) ->
  (forall nm ps ch, Forall P ch -> P (NAtRule nm ps ch)) ->
  (forall t, P (NComment t)) ->
  forall n, P n.
Proof.
  intros Hr Ha Hc. fix IH 1. intros [r | nm ps ch | t].
  - apply Hr.
  - apply Ha. induction ch as [|c ch IHch]; constructor; [apply IH | exact IHch].
  - apply Hc.
Qed.

Lemma Forall_flat_map_omap {A B} (P : B -> Prop) (f : A -> option A)
  (g : A -> list B) (l : list A) :
  Forall (fun a => forall a', f a = Some a' -> Forall P (g a')) l ->
  Forall P (flat_map g (omap f l)).
Proof.
  induction 1 as [|a l Ha _ IH]; simpl; [constructor|].
  destruct (f a) as [a'|] eqn:Hfa; simpl; [|exact IH].
  apply Forall_app. split; [by apply Ha | exact IH].
Qed.

Lemma removeAtRules_none_left nm n n' :
  removeAtRules nm n = Some n' ->
  Forall (fun x => ~ isAtRuleNamed nm x) (subnodes n').
Proof.
  revert n'. induction n as [r | nm' ps ch IH | t] using Node_ind';
    intros n' Hn; simpl in Hn.
  - injection Hn as <-. repeat constructor. simpl. tauto.
  - destruct (String.eqb nm' nm) eqn:Hnm; [discriminate|].
    injection Hn as <-. simpl. constructor.
    + simpl. intros ->. by rewrite String.eqb_refl in Hnm.
    + by apply Forall_flat_map_omap.
  - injection Hn as <-. repeat constructor. simpl. tauto.
Qed.

Lemma cleanRootRule_keeps_at_rules (P : Node -> Prop) n n' :
  (forall r, P (NRule r)) ->
  (forall nm ps ch ch', P (NAtRule nm ps ch) -> P (NAtRule nm ps ch')) ->
  cleanRootRule n = Some n' ->
  Forall P (subnodes n) -> Forall P (subnodes n').
Proof.
  intros HPr HPa. revert n'.
  induction n as [r | nm ps ch IH | t] using Node_ind'; intros n' Hn Hall;
    simpl in Hn.
  - destruct (ROOT_RE (selector r)).
    + destruct (removeDecls BLOCK_PROP_RE (nodes r)); [discriminate|].
      injection Hn as <-. repeat constructor. apply HPr.
    + by injection Hn as <-.
  - injection Hn as <-. simpl in *. apply Forall_cons in Hall as [Hhd Htl].
    constructor; [by eapply HPa|].
    clear Hhd. induction IH as [|c ch Hc _ IHch]; simpl; [constructor|].
    simpl in Htl. apply Forall_app in Htl as [Hc' Hch'].
    destruct (cleanRootRule c) as [c'|] eqn:Hcc; simpl; [|by apply IHch].
    apply Forall_app. split; [by apply Hc | by apply IHch].
  - by injection Hn as <-.
Qed.

Lemma removeDecls_spec re l :
  Forall (fun c => match c with Decl d => re (prop d) = false | Comment _ => True end)
    (removeDecls re l).
Proof.
  apply List.Forall_forall. intros c Hc.
  apply filter_In in Hc as [_ Hc]. destruct c; [|done].
  by apply negb_true_iff.
Qed.

Lemma cleanRootRule_cleaned n n' :
  cleanRootRule n = Some n' -> Forall cleanedRootRule (subnodes n').
Proof.
  revert n'. induction n as [r | nm ps ch IH | t] using Node_ind';
    intros n' Hn; simpl in Hn.
  - destruct (ROOT_RE (selector r)) eqn:Hroot.
    + destruct (removeDecls BLOCK_PROP_RE (nodes r)) as [|c cs] eqn:Hrm;
        [discriminate|].
      injection Hn as <-. constructor; [|constructor].
      simpl. intros _. split; [|done].
      rewrite <- Hrm. eapply Forall_impl; [apply removeDecls_spec|].
      intros [d|t] Hd; simpl in *; [congruence | tauto].
    + injection Hn as <-. constructor; [|constructor]. simpl. congruence.
  - injection Hn as <-. simpl. constructor; [done|].
    by apply Forall_flat_map_omap.
  - injection Hn as <-. constructor; [done|constructor].
Qed.

Section Cleanup.
Context `{CompilerExternals}.

(** C6, as the code has it: in the tree that [compile] hands to the
    inheritance resolution there is no [@block-reference] at-rule at any
    depth; every rule whose selector contains [.root] has no [extends],
    [implements] or [block-name] declaration, and has at least one node
    (a rule of that kind left with no node at all was removed). *)
Theorem block_syntax_stripped_before_inheritance (blk : Block) (rt : Root) :
  Forall (fun n => ~ isAtRuleNamed "block-reference" n)
    (allNodes (beforeInheritance blk rt)) /\
  Forall cleanedRootRule (allNodes (beforeInheritance blk rt)).
Proof.
  unfold beforeInheritance, stripBlockSyntax, allNodes.
  set (rt0 := processDebugStatements _ rt blk). clearbody rt0. split.
  - apply Forall_flat_map_omap. apply List.Forall_forall. intros n Hn n' Hn'.
    eapply cleanRootRule_keeps_at_rules; [| |exact Hn'|].
    + simpl. tauto.
    + simpl. tauto.
    + assert (Hall : Forall (fun x => ~ isAtRuleNamed "block-reference" x)
                       (flat_map subnodes
                          (omap (removeAtRules "block-reference") rt0))).
      { apply Forall_flat_map_omap. apply List.Forall_forall.
        intros ? _ ?. apply removeAtRules_none_left. }
      rewrite List.Forall_forall in Hall. apply List.Forall_forall.
      intros x Hx. apply Hall. apply in_flat_map. eauto.
  - apply Forall_flat_map_omap. apply List.Forall_forall.
    intros ? _ ?. apply cleanRootRule_cleaned.
Qed.

End Cleanup.

(** A rule whose selector is [:scope] is not a root rule for the
    clean-up, which filters on [.root]: its [extends] declaration stays.
    And a [.root] rule left with a comment only has no declaration, yet
    it is kept. *)
Lemma stripBlockSyntax_scope_counterexample :
  stripBlockSyntax
    [NRule {| selector := ":scope";
              nodes := [Decl {| prop := "extends"; value := "base" |};
                        Examples.color "red"] |}]
  = [NRule {| selector := ":scope";
              nodes := [Decl {| prop := "extends"; value := "base" |};
                        Examples.color "red"] |}]
  /\
  stripBlockSyntax
    [NRule {| selector := ".root";
              nodes := [Comment "the base"; 
                        Decl {| prop := "extends"; value := "base" |}] |}]
  = [NRule {| selector := ".root"; nodes := [Comment "the base"] |}].
Proof. split; reflexivity. Qed.

Example stripBlockSyntax_root :
  stripBlockSyntax
    [NAtRule "block-reference" "base from 'base.css'" [];
     NRule {| selector := ".root";
              nodes := [Decl {| prop := "extends"; value := "base" |};
                        Examples.color "red"] |};
     NAtRule "media" "print"
       [NRule {| selector := ".root";
                 nodes := [Decl {| prop := "block-name"; value := "nav" |}] |}]]
  = [NRule {| selector := ".root"; nodes := [Examples.color "red"] |};
     NAtRule "media" "print" []].
Proof. reflexivity. Qed.

(** ** The sibling scan of [resolve] *)

Lemma isResolve_spec v :
  isResolve v = true <-> exists m, RESOLVE_RE v = Some m.
Proof.
  unfold isResolve. destruct (RESOLVE_RE v); split; eauto; try done.
  intros [? ?]. done.
Qed.

(** The three kinds of children the scan of [d] tells apart: those it
    passes over, the resolutions of the same property, and the concrete
    values of the same property. *)
Lemma child_cases (d : Declaration) (c : ChildNode) :
  ((forall i l, declsFrom (prop d) i (c :: l) = declsFrom (prop d) (S i) l) /\
   ~ isConcrete (prop d) c /\ ~ isSameResolve d c) \/
  (exists d',
      (forall i l, declsFrom (prop d) i (c :: l)
                   = (i, d') :: declsFrom (prop d) (S i) l) /\
      isResolve (value d') = true /\
      ~ isConcrete (prop d) c /\
      (String.eqb (value d') (value d) = true /\ isSameResolve d c \/
       String.eqb (value d') (value d) = false /\ ~ isSameResolve d c)) \/
  (exists d',
      (forall i l, declsFrom (prop d) i (c :: l)
                   = (i, d') :: declsFrom (prop d) (S i) l) /\
      isResolve (value d') = false /\ isConcrete (prop d) c).
Proof.
  destruct c as [d'|t]; simpl.
  - destruct (String.eqb (prop d') (prop d)) eqn:Hp.
    + apply String.eqb_eq in Hp as Hp'.
      destruct (isResolve (value d')) eqn:Hr.
      * right. left. exists d'. repeat split; try done.
        { intros [_ ?]. congruence. }
        destruct (String.eqb (value d') (value d)) eqn:Hv.
        -- left. apply String.eqb_eq in Hv. tauto.
        -- right. split; [done|]. intros [_ Hv'].
           apply String.eqb_eq in Hv'. congruence.
      * right. right. exists d'. by repeat split.
    + left. apply String.eqb_neq in Hp. tauto.
  - left. tauto.
Qed.

#[local] Arguments scanStep : simpl never.

Lemma scanStep_other_resolve d st i d' :
  isResolve (value d') = true -> String.eqb (value d') (value d) = false ->
  scanStep d st (i, d') = inr st.
Proof. intros Hr Hv. unfold scanStep. by rewrite Hr, Hv. Qed.

Lemma scanStep_same_resolve d st i d' :
  isResolve (value d') = true -> String.eqb (value d') (value d) = true ->
  scanStep d st (i, d')
  = inr {| otherDecls := otherDecls st;
           isOverride := bool_decide (foundOtherValue st <> None);
           foundOtherValue := foundOtherValue st;
           foundResolve := Some i |}.
Proof. intros Hr Hv. unfold scanStep. by rewrite Hr, Hv. Qed.

Lemma scanStep_concrete d st i d' :
  isResolve (value d') = false ->
  scanStep d st (i, d')
  = match foundOtherValue st, foundResolve st with
    | Some v, Some r =>
        if Nat.ltb v r then inl (mixedOrderError (prop d))
        else inr {| otherDecls := otherDecls st ++ [d'];
                    isOverride := isOverride st;
                    foundOtherValue := Some i;
                    foundResolve := foundResolve st |}
    | _, _ => inr {| otherDecls := otherDecls st ++ [d'];
                     isOverride := isOverride st;
                     foundOtherValue := Some i;
                     foundResolve := foundResolve st |}
    end.
Proof.
  intros Hr. unfold scanStep. rewrite Hr.
  destruct (foundOtherValue st), (foundResolve st); reflexivity.
Qed.

Lemma foldM_app {A S} (f : S -> A -> Result S) l1 l2 s :
  foldM f (l1 ++ l2) s = bind (foldM f l1 s) (foldM f l2).
Proof.
  revert s. induction l1 as [|a l1 IH]; intros s; simpl; [done|].
  destruct (f s a); simpl; [done | apply IH].
Qed.

Lemma declsFrom_app p i l1 l2 :
  declsFrom p i (l1 ++ l2)
  = declsFrom p i l1 ++ declsFrom p (i + length l1) l2.
Proof.
  revert i. induction l1 as [|c l1 IH]; intros i; simpl.
  - by rewrite Nat.add_0_r.
  - destruct c as [d|t]; [destruct (String.eqb (prop d) p)|]; simpl;
      rewrite IH, <- Nat.add_succ_comm; reflexivity.
Qed.

(** The scan throws one error only. *)
Lemma scan_error d i l st e :
  foldM (scanStep d) (declsFrom (prop d) i l) st = inl e ->
  e = mixedOrderError (prop d).
Proof.
  revert i st. induction l as [|c l IH]; intros i st; [discriminate|].
  destruct (child_cases d c)
    as [(Hd & _) | [(d' & Hd & Hr & _ & [[Hv _] | [Hv _]]) | (d' & Hd & Hr & _)]];
    rewrite Hd; simpl.
  - apply IH.
  - rewrite scanStep_same_resolve by done. apply IH.
  - rewrite scanStep_other_resolve by done. apply IH.
  - rewrite scanStep_concrete by done.
    destruct (foundOtherValue st) as [v|], (foundResolve st) as [r|]; simpl;
      try apply IH.
    destruct (Nat.ltb v r); simpl; [congruence | apply IH].
Qed.

(** Over children with no concrete value of the property the scan does
    not throw and finds no value. *)
Lemma scan_no_concrete d i l st :
  Forall (fun c => ~ isConcrete (prop d) c) l ->
  exists st',
    foldM (scanStep d) (declsFrom (prop d) i l) st = inr st' /\
    foundOtherValue st' = foundOtherValue st /\
    otherDecls st' = otherDecls st.
Proof.
  intros Hl. revert i st. induction Hl as [|c l Hc _ IH]; intros i st.
  - by exists st.
  - destruct (child_cases d c)
      as [(Hd & _) | [(d' & Hd & Hr & _ & [[Hv _] | [Hv _]]) | (d' & Hd & Hr & Hcon)]];
      rewrite Hd; simpl.
    + apply IH.
    + rewrite scanStep_same_resolve by done.
      destruct (IH (S i) {| otherDecls := otherDecls st;
                            isOverride := bool_decide (foundOtherValue st <> None);
                            foundOtherValue := foundOtherValue st;
                            foundResolve := Some i |}) as (st' & ? & ? & ?).
      by exists st'.
    + rewrite scanStep_other_resolve by done. apply IH.
    + destruct (Hc Hcon).
Qed.

(** What a scan that returns has found of concrete values. *)
Lemma scan_found_value d i l st st' :
  foldM (scanStep d) (declsFrom (prop d) i l) st = inr st' ->
  (foundOtherValue st' <> None <->
   foundOtherValue st <> None \/ Exists (isConcrete (prop d)) l) /\
  (forall v, foundOtherValue st' = Some v ->
             foundOtherValue st = Some v \/ i <= v < i + length l).
Proof.
  revert i st. induction l as [|c l IH]; intros i st Hs.
  - injection Hs as <-. split; [|by left].
    split; [by left|]. intros [?|Hex]; [done | inversion Hex].
  - assert (Hcons : forall P : Prop, ~ isConcrete (prop d) c ->
              (P \/ Exists (isConcrete (prop d)) l) <->
              (P \/ Exists (isConcrete (prop d)) (c :: l))).
    { intros P Hn. rewrite Exists_cons. tauto. }
    simpl length.
    destruct (child_cases d c)
      as [(Hd & Hn & _) | [(d' & Hd & Hr & Hn & [[Hv _] | [Hv _]]) | (d' & Hd & Hr & Hcon)]];
      rewrite Hd in Hs; simpl in Hs.
    + destruct (IH _ _ Hs) as [H1 H2]. split.
      * by rewrite H1, Hcons.
      * intros v Hv. destruct (H2 v Hv); [by left | right; lia].
    + rewrite scanStep_same_resolve in Hs by done.
      destruct (IH _ _ Hs) as [H1 H2]. simpl in *. split.
      * by rewrite H1, Hcons.
      * intros v Hv'. destruct (H2 v Hv'); [by left | right; lia].
    + rewrite scanStep_other_resolve in Hs by done.
      destruct (IH _ _ Hs) as [H1 H2]. split.
      * by rewrite H1, Hcons.
      * intros v Hv'. destruct (H2 v Hv'); [by left | right; lia].
    + rewrite scanStep_concrete in Hs by done.
      assert (Hs' : foldM (scanStep d) (declsFrom (prop d) (S i) l)
                      {| otherDecls := otherDecls st ++ [d'];
                         isOverride := isOverride st;
                         foundOtherValue := Some i;
                         foundResolve := foundResolve st |} = inr st').
      { destruct (foundOtherValue st) as [v|], (foundResolve st) as [r|];
          simpl in Hs; try exact Hs.
        destruct (Nat.ltb v r); [discriminate | exact Hs]. }
      destruct (IH _ _ Hs') as [H1 H2]. simpl in *. split.
      * rewrite H1, Exists_cons. split; [tauto|]. intros _. by left.
      * intros v Hv'. destruct (H2 v Hv') as [[= <-] | ?]; right; lia.
Qed.

(** Past the last declaration that has the value of [d], the
    classification does not change. *)
Lemma scan_keeps_override d i l st st' :
  Forall (fun c => ~ isSameResolve d c) l ->
  foldM (scanStep d) (declsFrom (prop d) i l) st = inr st' ->
  isOverride st' = isOverride st /\ foundResolve st' = foundResolve st.
Proof.
  intros Hl. revert i st. induction Hl as [|c l Hc _ IH]; intros i st Hs.
  - by injection Hs as <-.
  - destruct (child_cases d c)
      as [(Hd & _) | [(d' & Hd & Hr & _ & [[Hv Hsame] | [Hv _]]) | (d' & Hd & Hr & _)]];
      rewrite Hd in Hs; simpl in Hs.
    + by apply IH in Hs.
    + destruct (Hc Hsame).
    + rewrite scanStep_other_resolve in Hs by done. by apply IH in Hs.
    + rewrite scanStep_concrete in Hs by done.
      destruct (foundOtherValue st) as [v|], (foundResolve st) as [r|];
        simpl in Hs; try (by apply IH in Hs).
      destruct (Nat.ltb v r); [discriminate | by apply IH in Hs].
Qed.

(** Once a value has been found before the resolution, a later
    concrete value makes the scan throw. *)
Lemma scan_mixed d i l st v r :
  foundOtherValue st = Some v -> foundResolve st = Some r ->
  v < r -> v < i ->
  Exists (isConcrete (prop d)) l ->
  foldM (scanStep d) (declsFrom (prop d) i l) st
  = inl (mixedOrderError (prop d)).
Proof.
  intros Hv Hr Hvr Hvi Hex. revert i st r Hv Hr Hvr Hvi.
  induction l as [|c l IH]; intros i st r Hv Hr Hvr Hvi; [inversion Hex|].
  assert (Hl : ~ isConcrete (prop d) c -> Exists (isConcrete (prop d)) l).
  { intros Hn. by apply Exists_cons in Hex as [?|?]. }
  destruct (child_cases d c)
    as [(Hd & Hn & _) | [(d' & Hd & Hres & Hn & [[Hval _] | [Hval _]]) | (d' & Hd & Hres & _)]];
    rewrite Hd; simpl.
  - eapply IH; eauto.
  - rewrite scanStep_same_resolve by done.
    eapply (IH (Hl Hn) (S i) _ i); simpl; eauto.
  - rewrite scanStep_other_resolve by done. eapply IH; eauto.
  - rewrite scanStep_concrete by done. rewrite Hv, Hr.
    apply Nat.ltb_lt in Hvr. by rewrite Hvr.
Qed.

(** With the resolution behind and no value found before it, the scan
    goes to the end. *)
Lemma scan_after d i l st r :
  Forall (fun c => ~ isSameResolve d c) l ->
  foundResolve st = Some r -> r < i ->
  (forall v, foundOtherValue st = Some v -> r < v) ->
  exists st', foldM (scanStep d) (declsFrom (prop d) i l) st = inr st'.
Proof.
  intros Hl. revert i st. induction Hl as [|c l Hc _ IH]; intros i st Hr Hri Hv.
  - by exists st.
  - destruct (child_cases d c)
      as [(Hd & _) | [(d' & Hd & Hres & _ & [[Hval Hsame] | [Hval _]]) | (d' & Hd & Hres & _)]];
      rewrite Hd; simpl.
    + apply IH; auto.
    + destruct (Hc Hsame).
    + rewrite scanStep_other_resolve by done. apply IH; auto.
    + rewrite scanStep_concrete by done. rewrite Hr.
      destruct (foundOtherValue st) as [v|] eqn:Hfv.
      * specialize (Hv v eq_refl).
        destruct (Nat.ltb_spec v r); [lia|]. simpl.
        apply IH; simpl; auto. intros ? [= <-]. lia.
      * simpl. apply IH; simpl; auto. intros ? [= <-]. lia.
Qed.

(** Before the resolution is met, nothing is thrown. *)
Lemma scan_before d i l st :
  Forall (fun c => ~ isSameResolve d c) l ->
  foundResolve st = None ->
  exists st', foldM (scanStep d) (declsFrom (prop d) i l) st = inr st' /\
              foundResolve st' = None.
Proof.
  intros Hl. revert i st. induction Hl as [|c l Hc _ IH]; intros i st Hr.
  - by exists st.
  - destruct (child_cases d c)
      as [(Hd & _) | [(d' & Hd & Hres & _ & [[Hval Hsame] | [Hval _]]) | (d' & Hd & Hres & _)]];
      rewrite Hd; simpl.
    + apply IH; auto.
    + destruct (Hc Hsame).
    + rewrite scanStep_other_resolve by done. apply IH; auto.
    + rewrite scanStep_concrete by done. rewrite Hr.
      destruct (foundOtherValue st); simpl; apply IH; auto.
Qed.

Lemma concrete_or_not p l :
  Exists (isConcrete p) l \/ Forall (fun c => ~ isConcrete p c) l.
Proof.
  induction l as [|c l [IH|IH]].
  - right. constructor.
  - left. by apply Exists_cons_tl.
  - assert (Hc : isConcrete p c \/ ~ isConcrete p c).
    { destruct c as [d|t]; simpl; [|tauto].
      destruct (String.eqb_spec (prop d) p), (isResolve (value d));
        intuition congruence. }
    destruct Hc; [left; by apply Exists_cons_hd | right; by constructor].
Qed.

(** The scan of the rule [pre ++ Decl d :: post] for the resolution [d]:
    the scan of [pre], the step on [d], then the scan of [post]. *)
Lemma scanSiblings_split d sel pre post :
  isResolve (value d) = true ->
  scanSiblings d {| selector := sel; nodes := pre ++ Decl d :: post |}
  = (st1 <- foldM (scanStep d) (declsFrom (prop d) 0 pre) scanInit ;;
     foldM (scanStep d) (declsFrom (prop d) (S (length pre)) post)
       {| otherDecls := otherDecls st1;
          isOverride := bool_decide (foundOtherValue st1 <> None);
          foundOtherValue := foundOtherValue st1;
          foundResolve := Some (length pre) |}).
Proof.
  intros Hr. unfold scanSiblings, walkDecls. simpl nodes.
  rewrite declsFrom_app, foldM_app. simpl declsFrom.
  rewrite String.eqb_refl. simpl.
  destruct (foldM (scanStep d) (declsFrom (prop d) 0 pre) scanInit) as [e|st1];
    simpl; [done|].
  rewrite scanStep_same_resolve by (done || apply String.eqb_refl).
  reflexivity.
Qed.

Section ResolveDecl.
Context `{Externals}.

(** C2, as the code has it.  The scan identifies the resolution by its
    value, so the classification is taken at the last declaration of the
    property that has the value of the resolution.  For a resolution [d]
    of a rule [pre ++ Decl d :: post] whose value is not repeated after
    it: when the scan returns, [d] is an override if and only if a
    concrete value of the property appears before it (values that appear
    only after it make it an underride).  Whatever the other
    declarations, concrete values both before and after [d] make
    [resolve] throw the syntax error "Resolving P must happen either
    before or after all other values for P."  And when the value of [d]
    is not repeated at all and concrete values are not on both sides, the
    scan returns. *)
Theorem override_iff_value_before (blk : Block) (sel : string)
  (d : Declaration) (pre post : list ChildNode) (ins : list Rule) :
  isResolve (value d) = true ->
  let parent := {| selector := sel; nodes := pre ++ Decl d :: post |} in
  (Forall (fun c => ~ isSameResolve d c) post ->
   forall st, scanSiblings d parent = inr st ->
              (isOverride st = true <-> Exists (isConcrete (prop d)) pre)) /\
  (Exists (isConcrete (prop d)) pre -> Exists (isConcrete (prop d)) post ->
   resolveDecl blk parent d ins = inl (mixedOrderError (prop d))) /\
  (Forall (fun c => ~ isSameResolve d c) pre ->
   Forall (fun c => ~ isSameResolve d c) post ->
   ~ (Exists (isConcrete (prop d)) pre /\ Exists (isConcrete (prop d)) post) ->
   exists st, scanSiblings d parent = inr st).
Proof.
  intros Hr parent. unfold parent. rewrite scanSiblings_split by done.
  split; [|split].
  - intros Hpost st Hs.
    destruct (foldM (scanStep d) (declsFrom (prop d) 0 pre) scanInit)
      as [e|st1] eqn:Hpre; simpl in Hs; [discriminate|].
    apply scan_keeps_override in Hs as [Ho _]; [|done]. simpl in Ho.
    apply scan_found_value in Hpre as [Hfound _]. simpl in Hfound.
    rewrite Ho, bool_decide_eq_true, Hfound. tauto.
  - intros Hbefore Hafter. unfold resolveDecl.
    apply isResolve_spec in Hr as Hm. destruct Hm as [[inh ref] ->].
    rewrite scanSiblings_split by done.
    destruct (foldM (scanStep d) (declsFrom (prop d) 0 pre) scanInit)
      as [e|st1] eqn:Hpre; simpl.
    + by rewrite (scan_error _ _ _ _ _ Hpre).
    + apply scan_found_value in Hpre as [Hfound Hbound]. simpl in *.
      destruct (foundOtherValue st1) as [v|] eqn:Hv; [|tauto].
      destruct (Hbound v eq_refl) as [?|Hlt]; [done|].
      erewrite (scan_mixed d _ post _ v (length pre)); simpl; eauto; lia.
  - intros Hnpre Hnpost Hnot.
    destruct (scan_before d 0 pre scanInit Hnpre eq_refl) as (st1 & Hpre & Hr1).
    rewrite Hpre. simpl.
    destruct (concrete_or_not (prop d) post) as [Hex|Hno].
    + apply scan_after with (r := length pre); simpl; auto.
      apply scan_found_value in Hpre as [Hfound _]. simpl in Hfound.
      intros v Hv. exfalso. apply Hnot. split; [|done].
      assert (Hsome : foundOtherValue st1 <> None) by congruence.
      apply Hfound in Hsome as [?|?]; [congruence | done].
    + destruct (scan_no_concrete d (S (length pre)) post
                  {| otherDecls := otherDecls st1;
                     isOverride := bool_decide (foundOtherValue st1 <> None);
                     foundOtherValue := foundOtherValue st1;
                     foundResolve := Some (length pre) |} Hno)
        as (st & Hs & _).
      eauto.
Qed.

(** C5: a resolution of a property that has no concrete value in the
    same rule makes [resolve] throw the syntax error "Cannot resolve P
    without a concrete value."; the statement holds for every
    implementation of the lookup and of the query, neither of which is
    reached. *)
Theorem resolve_needs_concrete_value (blk : Block) (parent : Rule)
  (d : Declaration) (ins : list Rule) :
  isResolve (value d) = true ->
  Forall (fun c => ~ isConcrete (prop d) c) (nodes parent) ->
  resolveDecl blk parent d ins = inl (noConcreteValueError (prop d)).
Proof.
  intros Hr Hno. unfold resolveDecl.
  apply isResolve_spec in Hr as [[inh ref] ->].
  unfold scanSiblings, walkDecls.
  destruct (scan_no_concrete d 0 (nodes parent) scanInit Hno)
    as (st & -> & Hv & _).
  simpl. by rewrite Hv.
Qed.

End ResolveDecl.

Lemma override_iff_value_before_witness :
  (exists st,
      scanSiblings {| prop := "color"; value := "resolve('other.foo')" |}
        Examples.overrideRule = inr st /\
      isOverride st = true) /\
  @resolveDecl Examples.exampleExternals Examples.appBlock
    {| selector := ".nav";
       nodes := [Examples.color "red"; Examples.color "resolve('other.foo')";
                 Examples.color "blue"] |}
    {| prop := "color"; value := "resolve('other.foo')" |} []
  = inl (mixedOrderError "color").
Proof.
  pose proof (@override_iff_value_before Examples.exampleExternals
                Examples.appBlock ".nav"
                {| prop := "color"; value := "resolve('other.foo')" |}
                [Examples.color "red"] [] [] eq_refl) as (Hiff & _ & Hret).
  pose proof (@override_iff_value_before Examples.exampleExternals
                Examples.appBlock ".nav"
                {| prop := "color"; value := "resolve('other.foo')" |}
                [Examples.color "red"] [Examples.color "blue"] [] eq_refl)
    as (_ & Hmixed & _).
  split.
  - destruct Hret as [st Hst].
    + repeat constructor. simpl. intros [_ ?]. discriminate.
    + constructor.
    + intros [_ Hex]. inversion Hex.
    + exists st. split; [exact Hst|].
      apply (Hiff ltac:(constructor) st Hst).
      apply Exists_cons_hd. simpl. split; reflexivity.
  - apply Hmixed; apply Exists_cons_hd; simpl; split; reflexivity.
Defined.

(** The resolution [d] is the first declaration of the rule, so no
    concrete value comes before it; the same text comes again after the
    value [blue], and [d] is classified an override: the rule emitted
    carries the value of the target. *)
Lemma override_by_repeated_value_counterexample :
  let d := {| prop := "color"; value := "resolve('other.foo')" |} in
  let parent := {| selector := ".nav";
                   nodes := [] ++ Decl d :: [Examples.color "blue"; Decl d] |} in
  ~ Exists (isConcrete (prop d)) [] /\
  (exists st, scanSiblings d parent = inr st /\ isOverride st = true) /\
  @resolveDecl Examples.exampleExternals Examples.appBlock parent d []
  = inr (Some {| found := conflict;
                 after := [{| selector := ".foo.nav";
                              nodes := [Examples.color "red"] |}];
                 levels := [Examples.otherFoo] |}).
Proof.
  simpl. split; [|split].
  - intros Hex. inversion Hex.
  - eexists. split; reflexivity.
  - vm_compute. reflexivity.
Qed.

Lemma resolve_needs_concrete_value_witness :
  @resolveDecl Examples.exampleExternals Examples.appBlock
    {| selector := ".nav";
       nodes := [Examples.color "resolve('other.foo')";
                 Decl {| prop := "float"; value := "left" |}] |}
    {| prop := "color"; value := "resolve('other.foo')" |} []
  = inl (InvalidBlockSyntax "Cannot resolve color without a concrete value.").
Proof.
  apply (@resolve_needs_concrete_value Examples.exampleExternals).
  - reflexivity.
  - repeat constructor; simpl; intros [? ?]; discriminate.
Defined.

(** ** The target of a resolution *)

Lemma Block_base_ind (P : Block -> Prop) :
  (forall b, (forall bb, base b = Some bb -> P bb) -> P b) ->
  forall b, P b.
Proof.
  intros Hstep. fix IH 1. intros b. apply Hstep.
  destruct b as [id nm rs [bb|] bn im deps rt]; simpl; intros bb' [= <-] || intros bb' [=].
  apply IH.
Qed.

Lemma isAncestorLoop_spec a b :
  isAncestorLoop a b = true <-> identifier a = identifier b \/ ancestorOf a b.
Proof.
  induction b as [b IH] using Block_base_ind.
  destruct b as [id nm rs bs bn im deps rt]. simpl in *.
  unfold identifier at 2. simpl.
  destruct (String.eqb_spec (identifier a) id) as [Heq|Hne].
  - tauto.
  - destruct bs as [bb|].
    + rewrite (IH bb eq_refl). split.
      * intros [Hid|Hanc]; right.
        -- by eapply ancestor_base.
        -- by eapply ancestor_step.
      * intros [?|Hanc]; [done|].
        inversion Hanc as [? bb' Hb Hid | ? bb' Hb Hanc']; subst;
          injection Hb as <-; tauto.
    + split; [done|]. intros [?|Hanc]; [done|].
      inversion Hanc as [? bb' Hb Hid | ? bb' Hb Hanc']; subst; discriminate.
Qed.

Lemma isAncestor_spec a b :
  isAncestor a (Some b) = true <-> ancestorOf a b.
Proof.
  unfold isAncestor. destruct (base b) as [bb|] eqn:Hb.
  - rewrite isAncestorLoop_spec. split.
    + intros [?|?]; [by eapply ancestor_base | by eapply ancestor_step].
    + intros Hanc. inversion Hanc as [? bb' Hb' Hid | ? bb' Hb' Hanc']; subst;
        rewrite Hb in Hb'; injection Hb' as <-; tauto.
  - split; [done|]. intros Hanc.
    inversion Hanc as [? bb' Hb' Hid | ? bb' Hb' Hanc']; subst; congruence.
Qed.

Section Target.
Context `{Externals}.

Lemma scanSiblings_error d parent e :
  scanSiblings d parent = inl e -> e = mixedOrderError (prop d).
Proof. apply scan_error. Qed.

(** C3: a resolution whose target is in the block that owns the rule
    (by identifier) makes [resolve] throw a syntax error, which is
    "Cannot resolve conflicts with your own block." once the sibling scan
    has found a concrete value; so does an explicit [resolve()] whose
    target is in an ancestor of the block, with "Cannot resolve conflicts
    with ancestors of your own block."; and a [resolve-inherited()] whose
    target is in the base of the block, a block other than the block
    itself, passes both checks and goes on to the walk of the chain. *)
Theorem resolve_rejects_own_block_and_ancestors (blk : Block) (parent : Rule)
  (d : Declaration) (ins : list Rule) (inh : bool) (ref : string)
  (otherObj : BlockObject) :
  RESOLVE_RE (value d) = Some (inh, ref) ->
  lookup blk ref = Some otherObj ->
  (identifier (block otherObj) = identifier blk ->
   is_syntax_error (resolveDecl blk parent d ins) /\
   forall st, scanSiblings d parent = inr st -> foundOtherValue st <> None ->
              resolveDecl blk parent d ins = inl ownBlockError) /\
  (inh = false -> ancestorOf (block otherObj) blk ->
   is_syntax_error (resolveDecl blk parent d ins) /\
   forall st, scanSiblings d parent = inr st -> foundOtherValue st <> None ->
              identifier (block otherObj) <> identifier blk ->
              resolveDecl blk parent d ins = inl ancestorError) /\
  (inh = true -> base blk = Some (block otherObj) ->
   identifier (block otherObj) <> identifier blk ->
   checkTarget blk inh otherObj = inr tt /\
   resolveDecl blk parent d ins
   = (st <- scanSiblings d parent ;;
      match foundOtherValue st with
      | None => throw (noConcreteValueError (prop d))
      | Some _ =>
          w <- walkChain ref parent d (otherDecls st) (isOverride st)
                 otherObj ins ;;
          ret (Some w)
      end)).
Proof.
  intros Hm Hl.
  assert (Hdecl : resolveDecl blk parent d ins
                  = (st <- scanSiblings d parent ;;
                     match foundOtherValue st with
                     | None => throw (noConcreteValueError (prop d))
                     | Some _ =>
                         _ <- checkTarget blk inh otherObj ;;
                         w <- walkChain ref parent d (otherDecls st)
                                (isOverride st) otherObj ins ;;
                         if negb inh && bool_decide (found w = noconflict)
                         then throw (noConflictError (prop d) ref)
                         else ret (Some w)
                     end)).
  { unfold resolveDecl. rewrite Hm, Hl. reflexivity. }
  assert (Hsyn : forall e, checkTarget blk inh otherObj = inl (InvalidBlockSyntax e) ->
                 is_syntax_error (resolveDecl blk parent d ins)).
  { intros e He. rewrite Hdecl.
    destruct (scanSiblings d parent) as [e'|st] eqn:Hs; simpl.
    - apply scanSiblings_error in Hs as ->. by eexists.
    - destruct (foundOtherValue st); [rewrite He|]; by eexists. }
  assert (Hthrow : forall e st, checkTarget blk inh otherObj = inl e ->
                   scanSiblings d parent = inr st -> foundOtherValue st <> None ->
                   resolveDecl blk parent d ins = inl e).
  { intros e st He Hs Hv. rewrite Hdecl, Hs. simpl.
    destruct (foundOtherValue st); [by rewrite He | done]. }
  split; [|split].
  - intros Hid.
    assert (Hc : checkTarget blk inh otherObj = inl ownBlockError).
    { unfold checkTarget, equal. rewrite Hid. by rewrite String.eqb_refl. }
    split; [by eapply Hsyn | intros; by eapply Hthrow].
  - intros -> Hanc. apply isAncestor_spec in Hanc. split.
    + unfold checkTarget in Hsyn. rewrite Hanc in Hsyn. simpl in Hsyn.
      destruct (String.eqb (identifier blk) (identifier (block otherObj)));
        eapply Hsyn; reflexivity.
    + intros st Hs Hv Hid. eapply Hthrow; eauto.
      unfold checkTarget, equal. rewrite Hanc.
      apply not_eq_sym, String.eqb_neq in Hid. by rewrite Hid.
  - intros -> Hbase Hid.
    assert (Hc : checkTarget blk true otherObj = inr tt).
    { unfold checkTarget, equal.
      apply not_eq_sym, String.eqb_neq in Hid. by rewrite Hid. }
    split; [done|]. rewrite Hdecl, Hc.
    destruct (scanSiblings d parent) as [e|st]; simpl; [done|].
    destruct (foundOtherValue st); [|done].
    by destruct (walkChain _ _ _ _ _ _ _).
Qed.

End Target.

Lemma resolve_rejects_own_block_and_ancestors_witness :
  @resolveDecl Examples.exampleExternals Examples.appBlock
    {| selector := ".nav";
       nodes := [Examples.color "red"; Examples.color "resolve('app.foo')"] |}
    {| prop := "color"; value := "resolve('app.foo')" |} []
  = inl (InvalidBlockSyntax "Cannot resolve conflicts with your own block.")
  /\
  @resolveDecl Examples.exampleExternals Examples.childBlock
    {| selector := ".nav";
       nodes := [Examples.color "red"; Examples.color "resolve('base.foo')"] |}
    {| prop := "color"; value := "resolve('base.foo')" |} []
  = inl (InvalidBlockSyntax
           "Cannot resolve conflicts with ancestors of your own block.")
  /\
  @checkTarget Examples.childBlock true Examples.baseRoot = inr tt.
Proof.
  split; [|split].
  - eapply (@resolve_rejects_own_block_and_ancestors Examples.exampleExternals
              Examples.appBlock _ _ [] false "app.foo" Examples.appFoo).
    + reflexivity.
    + reflexivity.
    + reflexivity.
    + reflexivity.
    + discriminate.
  - eapply (@resolve_rejects_own_block_and_ancestors Examples.exampleExternals
              Examples.childBlock _ _ [] false "base.foo" Examples.baseFoo).
    + reflexivity.
    + reflexivity.
    + reflexivity.
    + eapply ancestor_base; reflexivity.
    + reflexivity.
    + discriminate.
    + discriminate.
  - eapply (@resolve_rejects_own_block_and_ancestors Examples.exampleExternals
              Examples.childBlock
              {| selector := ".root";
                 nodes := [Examples.color "resolve-inherited('base.root')";
                           Examples.color "red"] |}
              {| prop := "color"; value := "resolve-inherited('base.root')" |}
              [] true "base.root" Examples.baseRoot).
    + reflexivity.
    + reflexivity.
    + reflexivity.
    + reflexivity.
    + discriminate.
Defined.

(** The injected resolution against the base goes through: it comes
    before the value of the rule, and the value of the rule is put in a
    new rule for the elements that match both selectors. *)
Example resolve_inherited_direct_ancestor :
  @resolveDecl Examples.exampleExternals Examples.childBlock
    {| selector := ".root";
       nodes := [Examples.color "resolve-inherited('base.root')";
                 Examples.color "red"] |}
    {| prop := "color"; value := "resolve-inherited('base.root')" |} []
  = inr (Some {| found := conflict;
                 after := [{| selector := ".root";
                              nodes := [Examples.color "red"] |}];
                 levels := [Examples.baseRoot] |}).
Proof. vm_compute. reflexivity. Qed.

(** The whole pipeline on a block that extends [base]: the block syntax
    is stripped, one resolution is injected and resolved, and one rule is
    added after the root rule. *)
Example compile_child_block :
  @compile Examples.exampleExternals Examples.exampleCompiler
    Examples.childBlock
    [NAtRule "block-reference" "base from 'base.css'" [];
     NRule {| selector := ".root";
              nodes := [Decl {| prop := "extends"; value := "base" |};
                        Examples.color "red"] |}]
  = inr [NRule {| selector := ".root"; nodes := [Examples.color "red"] |};
         NRule {| selector := ".root"; nodes := [Examples.color "red"] |}].
Proof. vm_compute. reflexivity. Qed.

(** ** The walk up the inheritance chain *)

Lemma foldM_mapR {A S} (g : S -> S) (f : S -> A -> Result S) :
  (forall s a, f (g s) a = mapR g (f s a)) ->
  forall l s, foldM f l (g s) = mapR g (foldM f l s).
Proof.
  intros Hf l. induction l as [|a l IH]; intros s; simpl; [done|].
  rewrite Hf. destruct (f s a); simpl; [done | apply IH].
Qed.

Lemma BlockObject_base_ind (P : BlockObject -> Prop) :
  (forall o, (forall b, obase o = Some b -> P b) -> P o) ->
  forall o, P o.
Proof.
  intros Hstep. fix IH 1. intros o. apply Hstep.
  destruct o as [src blk [b|]]; simpl; intros b' [= <-] || intros b' [=].
  apply IH.
Qed.

Lemma baseChain_unfold o :
  baseChain o = o :: match obase o with
                     | None => []
                     | Some b => baseChain b
                     end.
Proof. by destruct o. Qed.

Section Chain.
Context `{Externals}.

(** The rules that already follow the parent take no part in the
    classification: they are carried along. *)
Lemma resolveSelector_following extra o d others ov cs st s :
  resolveSelector o d others ov cs (withFollowing extra st) s
  = mapR (withFollowing extra) (resolveSelector o d others ov cs st s).
Proof.
  unfold resolveSelector.
  destruct (rewriteSelector (block o) (parsedSelector s)); simpl; [|done].
  destruct (mergeKeySelectors _ cs); simpl; [done|].
  destruct (has _ _); simpl; [done|].
  destruct (sameValuesLoop _ _ _) as [e|same]; simpl; [done|].
  destruct (snd same && _); simpl; [done|].
  unfold withFollowing. simpl. f_equal. f_equal.
  by destruct (if ov then _ else _).
Qed.

Lemma resolveCurrentSelector_following extra o d others ov st cs :
  resolveCurrentSelector o d others ov (withFollowing extra st) cs
  = mapR (withFollowing extra) (resolveCurrentSelector o d others ov st cs).
Proof.
  unfold resolveCurrentSelector. simpl.
  destruct (match pseudoelement (key cs) with
            | Some pe => other (result st) !! pe
            | None => Some (main (result st))
            end) as [[|s sels]|]; [done| |done].
  match goal with
  | |- foldM ?f ?l _ = mapR _ (foldM _ _ ?st0) =>
      rewrite <- (foldM_mapR (withFollowing extra) f
                    (fun s a => resolveSelector_following extra o d others ov cs s a)
                    l st0)
  end.
  reflexivity.
Qed.

Lemma resolveConflictWith_following ref o parent d others ov ins :
  resolveConflictWith ref o parent d others ov ins
  = mapR (fun r => (fst r, snd r ++ ins))
      (resolveConflictWith ref o parent d others ov []).
Proof.
  unfold resolveConflictWith. destruct (root (block o)) as [rt|]; [|done].
  match goal with
  | |- context [foldM ?f ?l {| foundConflict := _; resolvedSelectors := _;
                              result := ?q; inserted := ins |}] =>
      change (foldM f l {| foundConflict := noconflict; resolvedSelectors := [];
                           result := q; inserted := ins |})
        with (foldM f l
                (withFollowing ins
                   {| foundConflict := noconflict; resolvedSelectors := [];
                      result := q; inserted := [] |}));
      rewrite (foldM_mapR (withFollowing ins) f
                 (resolveCurrentSelector_following ins o d others ov))
  end.
  by destruct (foldM _ _ _).
Qed.

Lemma classify_following ref parent d others ov o ins :
  classify ref parent d others ov o
  = mapR fst (resolveConflictWith ref o parent d others ov ins).
Proof.
  unfold classify. rewrite (resolveConflictWith_following _ _ _ _ _ _ ins).
  by destruct (resolveConflictWith ref o parent d others ov []).
Qed.

Lemma walkChain_unfold ref parent d others ov o ins :
  walkChain ref parent d others ov o ins
  = (r <- resolveConflictWith ref o parent d others ov ins ;;
     match fst r with
     | noconflict =>
         match obase o with
         | None => ret {| found := noconflict; after := snd r; levels := [o] |}
         | Some b =>
             w <- walkChain ref parent d others ov b (snd r) ;;
             ret {| found := found w; after := after w;
                    levels := o :: levels w |}
         end
     | fc => ret {| found := fc; after := snd r; levels := [o] |}
     end).
Proof. by destruct o. Qed.

(** C1, as the code has it: the levels the walk consults are an initial
    segment of the chain [other; other.base; ...]; every level but the
    last consulted was classified [noconflict]; the last one was given
    the final classification; and the walk ends on a level classified
    [noconflict] only at the end of the chain.  So the walk goes up one
    level exactly when the level is classified [noconflict]: a level
    classified [conflict] or [samevalues] ends it. *)
Theorem walk_ends_at_first_classified_level (ref : string) (parent : Rule)
  (d : Declaration) (others : list Declaration) (ov : bool)
  (o : BlockObject) (ins : list Rule) (w : ChainWalk) :
  walkChain ref parent d others ov o ins = inr w ->
  exists n,
    levels w = take (S n) (baseChain o) /\
    n < length (baseChain o) /\
    (forall i x, i < n -> baseChain o !! i = Some x ->
                 classify ref parent d others ov x = inr noconflict) /\
    (exists x, baseChain o !! n = Some x /\
               classify ref parent d others ov x = inr (found w)) /\
    (found w = noconflict -> S n = length (baseChain o)).
Proof.
  revert ins w. induction o as [o IH] using BlockObject_base_ind.
  intros ins w. rewrite walkChain_unfold.
  pose proof (classify_following ref parent d others ov o ins) as Hc.
  destruct (resolveConflictWith ref o parent d others ov ins) as [e|[fc rs]];
    simpl in *; [discriminate|].
  rewrite (baseChain_unfold o).
  destruct fc.
  - intros [= <-]. exists 0. simpl.
    split; [done|]. split; [lia|]. split; [intros; lia|].
    split; [by exists o | done].
  - destruct (obase o) as [b|] eqn:Hb.
    + destruct (walkChain ref parent d others ov b rs) as [e|w'] eqn:Hw;
        simpl; [discriminate|].
      intros [= <-]. simpl.
      destruct (IH b eq_refl _ _ Hw) as (n & Hl & Hn & Hbefore & Hlast & Hend).
      exists (S n). split; [|split; [|split; [|split]]].
      * by rewrite Hl.
      * simpl. lia.
      * intros [|i] x Hi Hx; simpl in Hx.
        -- by injection Hx as <-.
        -- apply (Hbefore i); [lia | done].
      * exact Hlast.
      * intros Hf. simpl. by rewrite (Hend Hf).
    + intros [= <-]. exists 0. simpl.
      split; [done|]. split; [lia|]. split; [intros; lia|].
      split; [by exists o | done].
  - intros [= <-]. exists 0. simpl.
    split; [done|]. split; [lia|]. split; [intros; lia|].
    split; [by exists o | done].
Qed.

End Chain.

Lemma walk_ends_at_first_classified_level_witness :
  exists n,
    [Examples.otherBar; Examples.baseFoo]
    = take (S n) (baseChain Examples.otherBar) /\
    n < length (baseChain Examples.otherBar) /\
    (forall i x, i < n -> baseChain Examples.otherBar !! i = Some x ->
       @classify Examples.exampleExternals "other.bar" Examples.overrideRule
         {| prop := "color"; value := "resolve('other.bar')" |}
         [{| prop := "color"; value := "red" |}] true x = inr noconflict) /\
    (exists x, baseChain Examples.otherBar !! n = Some x /\
       @classify Examples.exampleExternals "other.bar" Examples.overrideRule
         {| prop := "color"; value := "resolve('other.bar')" |}
         [{| prop := "color"; value := "red" |}] true x = inr conflict) /\
    (conflict = noconflict -> S n = length (baseChain Examples.otherBar)).
Proof.
  apply (@walk_ends_at_first_classified_level Examples.exampleExternals
           "other.bar" Examples.overrideRule
           {| prop := "color"; value := "resolve('other.bar')" |}
           [{| prop := "color"; value := "red" |}] true Examples.otherBar []
           {| found := conflict;
              after := [{| selector := ".foo.nav";
                           nodes := [Examples.color "blue"] |}];
              levels := [Examples.otherBar; Examples.baseFoo] |}).
  vm_compute. reflexivity.
Defined.

(** The target [other.foo] has the value of the rule, [red]: the level
    is classified [samevalues] and the walk ends there, although the
    chain goes on to [base.foo], whose value [blue] is a conflict. *)
Lemma walk_stops_on_samevalues_counterexample :
  let d := {| prop := "color"; value := "resolve('other.foo')" |} in
  let others := [{| prop := "color"; value := "red" |}] in
  @classify Examples.exampleExternals "other.foo" Examples.overrideRule d
    others true Examples.otherFoo = inr samevalues /\
  obase Examples.otherFoo = Some Examples.baseFoo /\
  @classify Examples.exampleExternals "other.foo" Examples.overrideRule d
    others true Examples.baseFoo = inr conflict /\
  @walkChain Examples.exampleExternals "other.foo" Examples.overrideRule d
    others true Examples.otherFoo []
  = inr {| found := samevalues; after := []; levels := [Examples.otherFoo] |} /\
  @resolveDecl Examples.exampleExternals Examples.appBlock
    Examples.overrideRule d []
  = inr (Some {| found := samevalues; after := [];
                 levels := [Examples.otherFoo] |}).
Proof. repeat split; vm_compute; reflexivity. Qed.

(** ** Resolved styles *)

Section ResolvedStyles.
Import Style.

Lemma elem_of_setAdd x y (l : list nat) : y ∈ setAdd x l <-> y = x \/ y ∈ l.
Proof.
  unfold setAdd. case_bool_decide as Hx.
  - split; [by right|]. intros [->|?]; done.
  - rewrite elem_of_app, list_elem_of_singleton. tauto.
Qed.

Lemma NoDup_setAdd x (l : list nat) : NoDup l -> NoDup (setAdd x l).
Proof.
  intros Hl. unfold setAdd. case_bool_decide as Hx; [done|].
  apply NoDup_app. split; [done|]. split.
  - intros y Hy ->%list_elem_of_singleton. done.
  - apply NoDup_singleton.
Qed.

Lemma fold_setAdd_spec (l acc : list nat) :
  NoDup acc ->
  NoDup (fold_left (fun a x => setAdd x a) l acc) /\
  forall y, y ∈ fold_left (fun a x => setAdd x a) l acc <-> y ∈ acc \/ y ∈ l.
Proof.
  revert acc. induction l as [|x l IH]; intros acc Hacc; simpl.
  - split; [done|]. intros y. rewrite elem_of_nil. tauto.
  - destruct (IH (setAdd x acc) (NoDup_setAdd x acc Hacc)) as [Hnd Hin].
    split; [done|]. intros y.
    rewrite Hin, elem_of_setAdd, elem_of_cons. tauto.
Qed.

Lemma fold_setAdd_NoDup (l acc : list nat) :
  NoDup (acc ++ l) -> fold_left (fun a x => setAdd x a) l acc = acc ++ l.
Proof.
  revert acc. induction l as [|x l IH]; intros acc Hnd; simpl.
  - by rewrite app_nil_r.
  - assert (Hx : x ∉ acc).
    { apply NoDup_app in Hnd as (_ & Hdisj & _). intros Hx.
      apply (Hdisj x Hx). by left. }
    unfold setAdd at 2. rewrite bool_decide_eq_false_2 by done.
    rewrite IH; [by rewrite <- app_assoc|]. by rewrite <- app_assoc.
Qed.

(** A copy of a set has the contents of the set. *)
Lemma setOf_NoDup (l : list nat) : NoDup l -> setOf l = l.
Proof. intros Hl. unfold setOf. by rewrite fold_setAdd_NoDup. Qed.

Lemma setOf_spec (l : list nat) :
  NoDup (setOf l) /\ forall y, y ∈ setOf l <-> y ∈ l.
Proof.
  destruct (fold_setAdd_spec l [] (NoDup_nil_2)) as [Hnd Hin].
  split; [done|]. intros y. unfold setOf. rewrite Hin, elem_of_nil. tauto.
Qed.

Lemma fresh_lookup (m : gmap nat (list nat)) : m !! fresh (dom m) = None.
Proof. apply not_elem_of_dom, is_fresh. Qed.

Lemma basesFrom_enough h b l fuel :
  baseList h b l -> length l <= fuel -> basesFrom fuel h b = Some l.
Proof.
  intros Hl. revert fuel. induction Hl as [|i o l Hi _ IH]; intros fuel Hf.
  - by destruct fuel.
  - destruct fuel as [|fuel]; simpl in *; [lia|].
    rewrite Hi. simpl. rewrite IH by lia. done.
Qed.

Lemma baseList_inherits h b l :
  baseList h b l ->
  forall s o x, styles h !! s = Some o -> sbase o = b ->
                (x ∈ l <-> inherits h s x).
Proof.
  induction 1 as [|i oi l Hi Hl IH]; intros s o x Hs Hb.
  - split; [by intros ?%elem_of_nil|].
    intros Hinh. inversion Hinh; subst; congruence.
  - rewrite elem_of_cons, (IH i oi x Hi eq_refl). split.
    + intros [->|Hx]; [by eapply inherits_base | by eapply inherits_trans].
    + intros Hinh. inversion Hinh as [? o' b' Hs' Hb' | ? o' b' ? Hs' Hb' Hx];
        subst; rewrite Hs in Hs'; injection Hs' as <-;
        rewrite Hb in Hb'; injection Hb' as <-; tauto.
Qed.

Lemma foldO_id {A S} (G : S -> A -> option S) (l : list A) (s : S) :
  (forall s a, G s a = Some s) -> foldO G l s = Some s.
Proof.
  intros HG. induction l as [|a l IH]; simpl; [done|]. by rewrite HG.
Qed.

Lemma mutations_sets r cs h c :
  c <> r -> sets (mutations r cs h) !! c = sets h !! c.
Proof.
  intros Hc. revert h. induction cs as [|m cs IH]; intros h; simpl; [done|].
  rewrite IH. simpl. by rewrite lookup_alter_ne.
Qed.

Lemma mutations_styles r cs h : styles (mutations r cs h) = styles h.
Proof.
  revert h. induction cs as [|m cs IH]; intros h; simpl; [done|].
  by rewrite IH.
Qed.

(** Once the cache of [s] is set to a set that the caller does not
    hold, it stays so through any steps of the caller, and every call
    among them returns a new set with the contents of the cache. *)
Lemma run_cached (fuel s c : nat) (X : list nat)
  (steps : list StyleClient.ClientStep) (st : StyleClient.Client) :
  1 <= fuel -> NoDup X ->
  (exists o1, styles (StyleClient.cheap st) !! s = Some o1 /\
              _resolvedStyles o1 = Some c) ->
  sets (StyleClient.cheap st) !! c = Some X ->
  c ∉ StyleClient.held st ->
  exists st' outs,
    StyleClient.run fuel s steps st = Some (st', outs) /\
    length outs = StyleClient.resolveCalls steps /\
    Forall (fun r => StyleClient.rnew r = true /\
                     StyleClient.rcontents r = X) outs /\
    (exists o1, styles (StyleClient.cheap st') !! s = Some o1 /\
                _resolvedStyles o1 = Some c) /\
    sets (StyleClient.cheap st') !! c = Some X /\
    c ∉ StyleClient.held st'.
Proof.
  intros Hfuel HX. destruct fuel as [|fuel]; [lia|]. clear Hfuel.
  revert st. induction steps as [|a steps IH]; intros st Hs Hc Hheld.
  - exists st, []. simpl. split; [done|]. split; [done|].
    split; [constructor|done].
  - destruct st as [h hd]. simpl in Hs, Hc, Hheld.
    destruct Hs as (o1 & Hs & Ho1).
    destruct a as [|k m|b].
    + set (r := fresh (dom (sets h))).
      assert (Hr : sets h !! r = None) by apply fresh_lookup.
      assert (Hcr : c <> r) by (intros ->; congruence).
      set (st1 := {| StyleClient.cheap :=
                       {| styles := styles h;
                          sets := <[r := X]> (sets h) |};
                     StyleClient.held := hd ++ [r] |}).
      assert (Hstep : StyleClient.step (S fuel) s
                        {| StyleClient.cheap := h; StyleClient.held := hd |}
                        StyleClient.StepResolve
                      = Some (st1, [{| StyleClient.rref := r;
                                       StyleClient.rnew := true;
                                       StyleClient.rcontents := X |}])).
      { unfold StyleClient.step. simpl. rewrite Hs. simpl. rewrite Ho1, Hc.
        simpl. fold r. rewrite (setOf_NoDup X HX), lookup_insert_eq. simpl.
        by rewrite Hr. }
      destruct (IH st1) as (st' & outs & Hrun & Hlen & Hall & Hinv).
      { exists o1. by split. }
      { simpl. by rewrite lookup_insert_ne. }
      { simpl. rewrite elem_of_app, list_elem_of_singleton. tauto. }
      exists st', ({| StyleClient.rref := r; StyleClient.rnew := true;
                      StyleClient.rcontents := X |} :: outs).
      change (StyleClient.run (S fuel) s (StyleClient.StepResolve :: steps)
                {| StyleClient.cheap := h; StyleClient.held := hd |})
        with (x ← StyleClient.step (S fuel) s
                    {| StyleClient.cheap := h; StyleClient.held := hd |}
                    StyleClient.StepResolve;
              y ← StyleClient.run (S fuel) s steps (fst x);
              Some (fst y, snd x ++ snd y)).
      rewrite Hstep. simpl. rewrite Hrun. simpl.
      split; [done|]. split; [unfold StyleClient.resolveCalls in *; simpl; lia|].
      split; [by constructor | done].
    + set (st1 := match hd !! k with
                  | Some r => {| StyleClient.cheap := mutate r m h;
                                 StyleClient.held := hd |}
                  | None => {| StyleClient.cheap := h; StyleClient.held := hd |}
                  end).
      destruct (IH st1) as (st' & outs & Hrun & Hlen & Hall & Hinv).
      { unfold st1. destruct (hd !! k); exists o1; by split. }
      { unfold st1. destruct (hd !! k) as [r|] eqn:Hk; simpl; [|done].
        rewrite lookup_alter_ne; [done|]. intros <-.
        apply Hheld. by eapply list_elem_of_lookup_2. }
      { unfold st1. by destruct (hd !! k). }
      exists st', outs. simpl. fold st1. rewrite Hrun. simpl.
      split; [done|]. split; [done|]. done.
    + destruct (IH {| StyleClient.cheap := setStyleBase s b h;
                      StyleClient.held := hd |})
        as (st' & outs & Hrun & Hlen & Hall & Hinv).
      { simpl. rewrite lookup_alter_eq, Hs. simpl. eexists. by split. }
      { done. }
      { done. }
      exists st', outs. simpl. simpl in Hrun. rewrite Hrun. simpl.
      split; [done|]. split; [done|]. done.
Qed.

(** C9: for a style [s] whose chain of [base] pointers is finite, the
    first call of [resolveStyles] returns, given enough fuel, a set that
    was not in the heap, whose members are [s] and the styles reached from
    [s] by [base] pointers (no style has implied styles).  The contents
    are stored in a set of their own, [_resolvedStyles], which is not the
    set returned.  Whatever the caller then does to the set it received,
    and even if [base] is assigned again, a later call returns at once
    (fuel 1: the chain is not walked again) another new set with the same
    contents.  This holds of every later call: in any run of further
    calls, changes to any of the sets returned so far and assignments of
    [base], each call returns a set that is a new object and has these
    same contents. *)
Theorem resolveStyles_memoized_copy (h : Heap) (s : nat) (o : StyleObj)
  (l : list nat) :
  styles h !! s = Some o -> _resolvedStyles o = None ->
  baseList h (sbase o) l ->
  exists fuel0, forall fuel, fuel0 <= fuel ->
    exists r1 h1 c X,
      resolveStyles fuel s h = Some (r1, h1) /\
      sets h !! r1 = None /\
      sets h1 !! r1 = Some X /\
      NoDup X /\
      (forall x, x ∈ X <-> x = s \/ inherits h s x) /\
      (exists o1, styles h1 !! s = Some o1 /\ _resolvedStyles o1 = Some c) /\
      c <> r1 /\
      sets h1 !! c = Some X /\
      (forall (muts : list SetCall) (b' : option nat) (fuel' : nat),
        1 <= fuel' ->
        let h2 := setStyleBase s b' (mutations r1 muts h1) in
        exists r2 h3,
          resolveStyles fuel' s h2 = Some (r2, h3) /\
          sets h2 !! r2 = None /\
          sets h3 !! r2 = Some X) /\
      forall (steps : list StyleClient.ClientStep) (fuel' : nat),
        1 <= fuel' ->
        exists st' outs,
          StyleClient.run fuel' s steps
            {| StyleClient.cheap := h1; StyleClient.held := [r1] |}
          = Some (st', outs) /\
          length outs = StyleClient.resolveCalls steps /\
          Forall (fun r => StyleClient.rnew r = true /\
                           StyleClient.rcontents r = X) outs.
Proof.
  intros Hs Hcache Hl. exists (S (length l)). intros fuel Hfuel.
  destruct fuel as [|fuel]; [lia|].
  set (c := fresh (dom (sets h))).
  set (X := setAdd s (setOf l)).
  assert (HX : NoDup X /\ forall x, x ∈ X <-> x = s \/ inherits h s x).
  { destruct (setOf_spec l) as [Hnd Hin]. split.
    - by apply NoDup_setAdd.
    - intros x. unfold X. rewrite elem_of_setAdd, Hin.
      by rewrite (baseList_inherits _ _ _ Hl s o x Hs eq_refl). }
  destruct HX as [HXnd HXin].
  set (sets3 := alter (setCall (CallAdd s)) c (<[c := setOf l]> (sets h))).
  set (styles3 := alter (fun o => {| sbase := sbase o; _resolvedStyles := Some c |})
                    s (styles h)).
  set (r1 := fresh (dom sets3)).
  set (h1 := {| styles := styles3; sets := <[r1 := setOf X]> sets3 |}).
  assert (Hc3 : sets3 !! c = Some X).
  { unfold sets3. rewrite lookup_alter_eq, lookup_insert_eq. done. }
  assert (Hr1 : sets3 !! r1 = None) by apply fresh_lookup.
  assert (Hcr : c <> r1) by (intros Heq; rewrite <- Heq in Hr1; congruence).
  assert (Hcall : resolveStyles (S fuel) s h = Some (r1, h1)).
  { simpl. rewrite Hs. simpl. rewrite Hcache.
    unfold Style.resolveInheritance. rewrite Hs. simpl.
    rewrite (basesFrom_enough _ _ _ _ Hl) by lia. simpl.
    rewrite foldO_id by done. simpl.
    fold c. fold sets3. rewrite Hc3. simpl. reflexivity. }
  exists r1, h1, c, X. split; [exact Hcall|].
  split.
  { destruct (sets h !! r1) eqn:Hh; [|done].
    assert (Hin : is_Some (sets3 !! r1)).
    { unfold sets3. rewrite lookup_alter_ne by done.
      rewrite lookup_insert_ne by done. by rewrite Hh. }
    rewrite Hr1 in Hin. by destruct Hin. }
  split. { simpl. rewrite lookup_insert_eq. by rewrite setOf_NoDup. }
  split; [done|]. split; [done|].
  split.
  { eexists. simpl. unfold styles3. rewrite lookup_alter_eq, Hs. simpl.
    split; reflexivity. }
  split; [done|].
  split. { simpl. by rewrite lookup_insert_ne. }
  split; [|].
  2:{ intros steps fuel' Hfuel'.
      destruct (run_cached fuel' s c X steps
                  {| StyleClient.cheap := h1; StyleClient.held := [r1] |})
        as (st' & outs & Hrun & Hlen & Hall & _); try done.
      - simpl. eexists. unfold styles3. rewrite lookup_alter_eq, Hs. simpl.
        split; reflexivity.
      - simpl. by rewrite lookup_insert_ne.
      - simpl. by intros Heq%list_elem_of_singleton.
      - by exists st', outs. }
  intros muts b' fuel' Hfuel' h2.
  destruct fuel' as [|fuel']; [lia|].
  assert (Hs2 : styles h2 !! s
                = Some {| sbase := b'; _resolvedStyles := Some c |}).
  { unfold h2. simpl. rewrite lookup_alter_eq, mutations_styles. simpl.
    unfold styles3. rewrite lookup_alter_eq, Hs. reflexivity. }
  assert (Hc2 : sets h2 !! c = Some X).
  { unfold h2. simpl. rewrite mutations_sets by done. simpl.
    by rewrite lookup_insert_ne. }
  clearbody h2. eexists _, _. split.
  { simpl. rewrite Hs2. simpl. rewrite Hc2. simpl. reflexivity. }
  split; [apply fresh_lookup|].
  simpl. rewrite lookup_insert_eq. by rewrite setOf_NoDup.
Qed.

End ResolvedStyles.

Lemma resolveStyles_memoized_copy_witness :
  exists fuel0, forall fuel, fuel0 <= fuel ->
    exists r1 h1 c X,
      Style.resolveStyles fuel 3 Examples.exampleHeap = Some (r1, h1) /\
      Style.sets Examples.exampleHeap !! r1 = None /\
      Style.sets h1 !! r1 = Some X /\
      NoDup X /\
      (forall x, x ∈ X <-> x = 3 \/ Style.inherits Examples.exampleHeap 3 x) /\
      (exists o1, Style.styles h1 !! 3 = Some o1 /\
                  Style._resolvedStyles o1 = Some c) /\
      c <> r1 /\
      Style.sets h1 !! c = Some X /\
      (forall (muts : list Style.SetCall) (b' : option nat) (fuel' : nat),
        1 <= fuel' ->
        let h2 := Style.setStyleBase 3 b' (Style.mutations r1 muts h1) in
        exists r2 h3,
          Style.resolveStyles fuel' 3 h2 = Some (r2, h3) /\
          Style.sets h2 !! r2 = None /\
          Style.sets h3 !! r2 = Some X) /\
      forall (steps : list StyleClient.ClientStep) (fuel' : nat),
        1 <= fuel' ->
        exists st' outs,
          StyleClient.run fuel' 3 steps
            {| StyleClient.cheap := h1; StyleClient.held := [r1] |}
          = Some (st', outs) /\
          length outs = StyleClient.resolveCalls steps /\
          Forall (fun r => StyleClient.rnew r = true /\
                           StyleClient.rcontents r = X) outs.
Proof.
  apply (resolveStyles_memoized_copy Examples.exampleHeap 3
           {| Style.sbase := Some 2; Style._resolvedStyles := None |} [2; 1]).
  - reflexivity.
  - reflexivity.
  - simpl. eapply Style.baseList_cons; [reflexivity|]. simpl.
    eapply Style.baseList_cons; [reflexivity|]. simpl.
    apply Style.baseList_nil.
Defined.

(** The members on the example: the style and its two bases; and a
    second call after the caller has emptied the set it got. *)
Example resolveStyles_example :
  (x ← Style.resolveStyles 3 3 Examples.exampleHeap;
   Style.sets (snd x) !! fst x) = Some [2; 1; 3] /\
  (x ← Style.resolveStyles 3 3 Examples.exampleHeap;
   y ← Style.resolveStyles 1 3
         (Style.setStyleBase 3 None
            (Style.mutations (fst x) [Style.CallClear] (snd x)));
   Style.sets (snd y) !! fst y) = Some [2; 1; 3].
Proof. split; vm_compute; reflexivity. Qed.

(** Three calls: the caller empties the first set, then the second, and
    changes [base]; each call still returns the three styles. *)
Example resolveStyles_chain_example :
  (x ← Style.resolveStyles 3 3 Examples.exampleHeap;
   y ← StyleClient.run 1 3
         [StyleClient.StepMutate 0 Style.CallClear; StyleClient.StepResolve;
          StyleClient.StepMutate 1 Style.CallClear;
          StyleClient.StepSetBase None; StyleClient.StepResolve]
         {| StyleClient.cheap := snd x; StyleClient.held := [fst x] |};
   Some (List.map StyleClient.rcontents (snd y)))
  = Some [[2; 1; 3]; [2; 1; 3]].
Proof. vm_compute. reflexivity. Qed.

(** ** The walk of [resolve] over the tree *)

Lemma throws_bind {A B} (m : Result A) (k : A -> Result B) :
  throws m \/ (exists a, m = inr a /\ throws (k a)) -> throws (bind m k).
Proof.
  intros [[e ->] | (a & -> & Hk)]; simpl; [by exists e | exact Hk].
Qed.

Lemma throws_or_returns {A} (m : Result A) :
  throws m \/ exists a, m = inr a.
Proof. destruct m as [e|a]; [left; by exists e | right; by exists a]. Qed.

Section Tree.
Context `{Externals}.

(** In a rule with a resolution of a property and no concrete value of
    it, the walk over the declarations does not reach the end. *)
Lemma resolveChildren_throws blk sel d :
  isResolve (value d) = true ->
  forall todo done ins,
    In (Decl d) todo ->
    Forall (fun c => ~ isConcrete (prop d) c) (done ++ todo) ->
    throws (resolveChildren blk sel done todo ins).
Proof.
  intros Hr todo. induction todo as [|c todo IH]; intros done ins Hin Hno;
    [destruct Hin|].
  assert (Hmove : (done ++ [c]) ++ todo = done ++ c :: todo)
    by (by rewrite <- app_assoc).
  destruct c as [d0|t]; simpl.
  - apply throws_bind.
    destruct (resolveDecl blk {| selector := sel; nodes := done ++ Decl d0 :: todo |}
                d0 ins) as [e|r] eqn:Hd0; [left; by exists e|].
    right. exists r. split; [done|].
    assert (Hd : d0 <> d).
    { intros ->. unfold resolveDecl in Hd0.
      apply isResolve_spec in Hr as [[inh ref] Hm]. rewrite Hm in Hd0.
      unfold scanSiblings, walkDecls in Hd0. simpl nodes in Hd0.
      destruct (scan_no_concrete d 0 _ scanInit Hno) as (st & Hs & Hv & _).
      rewrite Hs in Hd0. simpl in Hd0. rewrite Hv in Hd0. discriminate. }
    assert (Hin' : In (Decl d) todo).
    { destruct Hin as [[= ?]|?]; [done | done]. }
    destruct r as [w|].
    + apply IH; [done|]. apply Forall_app in Hno as [? Hno].
      apply Forall_cons in Hno as [_ ?]. by apply Forall_app.
    + apply IH; [done|]. by rewrite Hmove.
  - apply IH.
    + destruct Hin as [[=]|?]; done.
    + by rewrite Hmove.
Qed.

Lemma resolveNode_at_rule blk nm ps ch :
  resolveNode blk (NAtRule nm ps ch)
  = (ch' <- resolve ch blk ;; ret [NAtRule nm ps ch']).
Proof.
  simpl. f_equal. induction ch as [|c ch IH]; simpl; [done|].
  by rewrite IH.
Qed.

Lemma resolve_throws_list blk l :
  Forall (fun n => Exists unresolvable (subnodes n) ->
                   throws (resolveNode blk n)) l ->
  Exists unresolvable (flat_map subnodes l) ->
  throws (resolve l blk).
Proof.
  induction 1 as [|n l Hn _ IH]; simpl; intros Hex; [inversion Hex|].
  apply Exists_app in Hex as [Hex|Hex]; apply throws_bind.
  - left. by apply Hn.
  - destruct (throws_or_returns (resolveNode blk n)) as [?|[a Ha]]; [by left|].
    right. exists a. split; [done|]. apply throws_bind. left. by apply IH.
Qed.

Lemma resolveNode_throws blk n :
  Exists unresolvable (subnodes n) -> throws (resolveNode blk n).
Proof.
  induction n as [r | nm ps ch IH | t] using Node_ind'; simpl subnodes;
    intros Hex.
  - apply Exists_cons in Hex as [(d & Hin & Hr & Hno)|Hex]; [|inversion Hex].
    simpl. apply throws_bind. left.
    by apply (resolveChildren_throws blk (selector r) d Hr).
  - rewrite resolveNode_at_rule. apply throws_bind. left.
    apply Exists_cons in Hex as [[]|Hex].
    by apply resolve_throws_list.
  - apply Exists_cons in Hex as [[]|Hex]. inversion Hex.
Qed.

(** [resolve] throws on a tree that holds, at any depth, a rule with a
    resolution of a property and no concrete value of it. *)
Lemma resolve_throws_on_unresolvable blk rt :
  Exists unresolvable (allNodes rt) -> throws (resolve rt blk).
Proof.
  apply resolve_throws_list. apply List.Forall_forall.
  intros n _. apply resolveNode_throws.
Qed.

End Tree.

(** ** The rules that [resolve] inserts *)

Lemma foldM_invariant {A S} (P : S -> Prop) (f : S -> A -> Result S) l s s' :
  (forall s a s', P s -> f s a = inr s' -> P s') ->
  P s -> foldM f l s = inr s' -> P s'.
Proof.
  intros Hf. revert s. induction l as [|a l IH]; intros s Hs Hl; simpl in Hl.
  - by injection Hl as <-.
  - destruct (f s a) as [e|s1] eqn:Hfa; simpl in Hl; [discriminate|].
    eapply IH; [|exact Hl]. by eapply Hf.
Qed.

Lemma scan_otherDecls_concrete d l st st' :
  foldM (scanStep d) l st = inr st' ->
  Forall (fun x => isResolve (value x) = false) (otherDecls st) ->
  Forall (fun x => isResolve (value x) = false) (otherDecls st').
Proof.
  intros Hl Hst.
  apply (foldM_invariant
           (fun st => Forall (fun x => isResolve (value x) = false) (otherDecls st))
           (scanStep d) l st st'); [|done..].
  clear. intros st [i d'] st' Hst Hstep. unfold scanStep in Hstep.
  destruct (isResolve (value d')) eqn:Hr.
  - destruct (negb _); injection Hstep as <-; done.
  - assert (Hnew : Forall (fun x => isResolve (value x) = false)
                     (otherDecls st ++ [d'])).
    { apply Forall_app. split; [done|]. by repeat constructor. }
    destruct (foundOtherValue st) as [v|], (foundResolve st) as [r|];
      try (injection Hstep as <-; exact Hnew).
    destruct (Nat.ltb v r); [discriminate|].
    injection Hstep as <-. exact Hnew.
Qed.

Section Inserted.
Context `{Externals}.

Lemma resolveSelector_concrete o d others ov cs st s st' :
  Forall (fun x => isResolve (value x) = false) others ->
  Forall concreteOnly (inserted st) ->
  resolveSelector o d others ov cs st s = inr st' ->
  Forall concreteOnly (inserted st').
Proof.
  intros Hothers Hst. unfold resolveSelector.
  destruct (rewriteSelector _ _); simpl; [|discriminate].
  destruct (mergeKeySelectors _ _); simpl; [discriminate|].
  destruct (has _ _); [by intros [= <-]|].
  destruct (sameValuesLoop _ _ _) as [e|same]; simpl; [discriminate|].
  destruct (snd same && _); [by intros [= <-]|].
  intros [= <-]. simpl.
  match goal with
  | |- context [match ?ns with [] => _ | _ :: _ => _ end] =>
      assert (Hns : Forall (fun c => match c with
                                     | Decl x => isResolve (value x) = false
                                     | Comment _ => True
                                     end) ns);
      [|destruct ns; [done | by constructor]]
  end.
  destruct ov.
  - apply Forall_fmap. unfold concreteValues.
    apply Forall_fmap. apply List.Forall_forall. intros x Hx.
    apply filter_In in Hx as [_ Hx]. simpl. by apply negb_true_iff.
  - destruct (concreteValues _ _); [constructor|].
    apply Forall_fmap. eapply Forall_impl; [exact Hothers|]. done.
Qed.

Lemma resolveConflictWith_concrete ref o parent d others ov ins fc ins' :
  Forall (fun x => isResolve (value x) = false) others ->
  Forall concreteOnly ins ->
  resolveConflictWith ref o parent d others ov ins = inr (fc, ins') ->
  Forall concreteOnly ins'.
Proof.
  intros Hothers Hins. unfold resolveConflictWith.
  destruct (root (block o)); [|discriminate].
  destruct (foldM _ _ _) as [e|st] eqn:Hfold; simpl; [discriminate|].
  intros [= _ <-].
  eapply (foldM_invariant (fun st => Forall concreteOnly (inserted st)));
    [| |exact Hfold]; [|done].
  clear -Hothers. intros st cs st' Hst. unfold resolveCurrentSelector.
  destruct (match pseudoelement (key cs) with
            | Some pe => other (result st) !! pe
            | None => Some (main (result st))
            end) as [[|s sels]|]; [by intros [= <-]| |by intros [= <-]].
  apply (foldM_invariant (fun st => Forall concreteOnly (inserted st)));
    [|done].
  intros ? ? ? ?. by apply resolveSelector_concrete.
Qed.

Lemma walkChain_concrete ref parent d others ov o ins w :
  Forall (fun x => isResolve (value x) = false) others ->
  Forall concreteOnly ins ->
  walkChain ref parent d others ov o ins = inr w ->
  Forall concreteOnly (after w).
Proof.
  intros Hothers. revert ins w.
  induction o as [o IH] using BlockObject_base_ind. intros ins w Hins.
  rewrite walkChain_unfold.
  destruct (resolveConflictWith ref o parent d others ov ins) as [e|[fc rs]]
    eqn:Hrc; simpl; [discriminate|].
  pose proof (resolveConflictWith_concrete _ _ _ _ _ _ _ _ _ Hothers Hins Hrc)
    as Hrs.
  destruct fc; try by intros [= <-].
  destruct (obase o) as [b|]; [|by intros [= <-]].
  destruct (walkChain ref parent d others ov b rs) as [e|w'] eqn:Hw; simpl;
    [discriminate|].
  intros [= <-]. simpl. by eapply IH.
Qed.

(** The rules that follow a rule after one of its resolutions has been
    processed hold concrete declarations only. *)
Lemma resolveDecl_concrete blk parent d ins w :
  Forall concreteOnly ins ->
  resolveDecl blk parent d ins = inr (Some w) ->
  Forall concreteOnly (after w).
Proof.
  intros Hins. unfold resolveDecl.
  destruct (RESOLVE_RE (value d)) as [[inh ref]|]; [|discriminate].
  destruct (scanSiblings d parent) as [e|st] eqn:Hs; simpl; [discriminate|].
  destruct (foundOtherValue st); [|discriminate].
  destruct (assertBlockObject _ _) as [e|o]; simpl; [discriminate|].
  destruct (checkTarget _ _ _); simpl; [discriminate|].
  destruct (walkChain _ _ _ _ _ _ _) as [e|w'] eqn:Hw; simpl; [discriminate|].
  destruct (negb inh && _); [discriminate|]. intros [= <-].
  eapply walkChain_concrete; [|exact Hins|exact Hw].
  eapply scan_otherDecls_concrete; [exact Hs | constructor].
Qed.

Lemma resolveChildren_concrete blk sel todo :
  forall done ins ch ins',
    Forall concreteOnly ins ->
    resolveChildren blk sel done todo ins = inr (ch, ins') ->
    Forall concreteOnly ins'.
Proof.
  induction todo as [|c todo IH]; intros done ins ch ins' Hins; simpl.
  - by intros [= _ <-].
  - destruct c as [d|t]; [|by apply IH].
    destruct (resolveDecl _ _ _ _) as [e|[w|]] eqn:Hd; simpl; [discriminate| |].
    + apply IH. by eapply resolveDecl_concrete.
    + by apply IH.
Qed.

(** The walk passes over a rule of concrete declarations: it is left as
    it is and nothing is inserted after it. *)
Lemma resolveChildren_concrete_rule blk sel todo :
  forall done ins,
    Forall (fun c => match c with
                     | Decl d => isResolve (value d) = false
                     | Comment _ => True
                     end) todo ->
    resolveChildren blk sel done todo ins = inr (done ++ todo, ins).
Proof.
  induction todo as [|c todo IH]; intros done ins Hall; simpl.
  - by rewrite app_nil_r.
  - apply Forall_cons in Hall as [Hc Hall].
    assert (Hmove : (done ++ [c]) ++ todo = done ++ c :: todo)
      by (by rewrite <- app_assoc).
    destruct c as [d|t].
    + unfold resolveDecl. unfold isResolve in Hc.
      destruct (RESOLVE_RE (value d)); [discriminate|]. simpl.
      by rewrite IH, Hmove.
    + by rewrite IH, Hmove.
Qed.

(** Every rule that [resolve] puts after a rule is passed over by the
    rest of the walk. *)
Lemma inserted_rules_passed_over blk (r : Rule) ch ins :
  resolveChildren blk (selector r) [] (nodes r) [] = inr (ch, ins) ->
  Forall (fun r' => resolveNode blk (NRule r') = inr [NRule r']) ins.
Proof.
  intros Hr.
  assert (Hins : Forall concreteOnly ins).
  { eapply resolveChildren_concrete; [|exact Hr]. constructor. }
  eapply Forall_impl; [exact Hins|]. intros [sel ns] Hc. simpl.
  rewrite (resolveChildren_concrete_rule blk sel ns [] [] Hc). reflexivity.
Qed.

End Inserted.

(** * Further properties of the passes *)

(** ** The classification as a join *)

Lemma updateConflict_swap (t a b : ConflictType) :
  updateConflict (updateConflict t a) b = updateConflict (updateConflict t b) a.
Proof. by destruct t, a, b. Qed.

(** X1: [updateConflict] is associative, commutative and idempotent: it
    is the maximum in the chain [noconflict < samevalues < conflict].
    Hence accumulating a list of classifications from a start value, as
    [resolveConflictWith] does in [foundConflict], gives the same result
    for every order of the list. *)
Theorem updateConflict_semilattice :
  (forall a b c, updateConflict a (updateConflict b c)
                 = updateConflict (updateConflict a b) c) /\
  (forall a b, updateConflict a b = updateConflict b a) /\
  (forall a, updateConflict a a = a) /\
  (forall a b, severity (updateConflict a b)
               = Nat.max (severity a) (severity b)) /\
  (forall l l', Permutation l l' ->
     forall t, fold_left updateConflict l t = fold_left updateConflict l' t).
Proof.
  split; [|split; [|split; [|split]]].
  - intros a b c. by destruct a, b, c.
  - intros a b. by destruct a, b.
  - intros a. by destruct a.
  - intros a b. by destruct a, b.
  - induction 1 as [|x l l' _ IH|x y l|l l' l'' _ IH1 _ IH2]; intros t; simpl.
    + done.
    + apply IH.
    + by rewrite updateConflict_swap.
    + by rewrite IH1, IH2.
Qed.

(** ** [mergeKeySelectors] on the combinators of CSS *)

Lemma removeLast_shape s :
  (removeLast s = (s, None) /\ s = CSLast (lastCompound s)) \/
  (exists ctx c,
      removeLast s = (ctx, Some (c, CSLast (lastCompound s))) /\
      S (compounds ctx) = compounds s).
Proof.
  induction s as [k | a c s' IH].
  - left. by split.
  - right. destruct IH as [[Hs Hk] | (ctx & c' & Hs & Hn)].
    + exists (CSLast a), c. rewrite Hk. simpl. by destruct (lastCompound s').
    + exists (CSNext a c ctx), c'. simpl. rewrite Hs.
      destruct s' as [k|a' c'' s'']; [simpl in Hn; destruct ctx; simpl in *; lia|].
      split; [done|]. simpl in *. lia.
Qed.

Lemma lastCompound_append a c b :
  lastCompound (append a c b) = lastCompound b.
Proof. induction a as [k | k c' a IH]; simpl; [done | exact IH]. Qed.

Lemma has_In (s : list string) (x : string) : has s x = true <-> In x s.
Proof.
  unfold has. rewrite existsb_exists. split.
  - intros (y & Hy & ->%String.eqb_eq). done.
  - intros Hx. exists x. split; [done | apply String.eqb_refl].
Qed.

Lemma splitSelector_shape s :
  splitSelector s = (None, None, CSLast (lastCompound s)) \/
  exists ctx c,
    splitSelector s = (Some ctx, Some c, CSLast (lastCompound s)).
Proof.
  unfold splitSelector, clone.
  destruct (removeLast_shape s) as [[-> Hk] | (ctx & c & -> & _)].
  - left. by rewrite <- Hk.
  - right. by exists ctx, c.
Qed.

Section MergeCssCombinators.
Context `{Externals}.

Lemma mergeContexts_css ctx1 ctx2 c1 c2 mk :
  In c1 cssCombinators -> In c2 cssCombinators ->
  match mergeContexts ctx1 ctx2 c1 c2 mk with
  | inr sels =>
      1 <= length sels <= 3 /\
      Forall (fun s => lastCompound s = lastCompound mk) sels
  | inl e => mergeNodes ctx1 ctx2 = inl e
  end.
Proof.
  unfold cssCombinators.
  intros [<-|[<-|[<-|[<-|[]]]]] [<-|[<-|[<-|[<-|[]]]]];
    unfold mergeContexts, clone; simpl;
    try destruct (mergeNodes ctx1 ctx2) as [e|m]; simpl; try done;
    (split; [lia|]; repeat constructor; by rewrite !lastCompound_append).
Qed.

(** X2: For two selectors of which at most one has more than one
    combinator, and whose combinators before the key are combinators of
    CSS, [mergeKeySelectors] throws nothing of its own: an exception is
    one that [mergeNodes] threw, on the two keys or on the two contexts.
    Otherwise it returns one, two or three selectors, and the key
    selector of each is the last compound selector of the merge of the
    two keys. *)
Theorem mergeKeySelectors_css_combinators (s1 s2 : ParsedSelector) :
  plength s1 <= 2 \/ plength s2 <= 2 ->
  (forall c, keyCombinator s1 = Some c -> In c cssCombinators) ->
  (forall c, keyCombinator s2 = Some c -> In c cssCombinators) ->
  match mergeKeySelectors s1 s2 with
  | inr sels =>
      exists mergedKey,
        mergeNodes (CSLast (key s1)) (CSLast (key s2)) = inr mergedKey /\
        1 <= length sels <= 3 /\
        Forall (fun s => key s = lastCompound mergedKey) sels
  | inl e =>
      mergeNodes (CSLast (key s1)) (CSLast (key s2)) = inl e \/
      exists ctx1 ctx2,
        keyContext s1 = Some ctx1 /\ keyContext s2 = Some ctx2 /\
        mergeNodes ctx1 ctx2 = inl e
  end.
Proof.
  intros Hlen Hc1 Hc2. unfold mergeKeySelectors, keyCombinator, keyContext in *.
  assert (Hguard : Nat.ltb 2 (plength s1) && Nat.ltb 2 (plength s2) = false).
  { apply andb_false_iff.
    destruct Hlen; [left | right]; apply Nat.ltb_ge; lia. }
  rewrite Hguard. unfold key, clone.
  destruct (splitSelector_shape (psel s1)) as [H1 | (ctx1 & c1 & H1)];
    destruct (splitSelector_shape (psel s2)) as [H2 | (ctx2 & c2 & H2)];
    rewrite H1, H2 in *; simpl in Hc1, Hc2; cbv beta iota zeta;
    destruct (mergeNodes (CSLast (lastCompound (psel s1)))
                (CSLast (lastCompound (psel s2)))) as [e|mk];
    cbn [bind]; try (by left).
  - exists mk. split; [done|]. split; [simpl; lia|].
    constructor; [done | constructor].
  - exists mk. split; [done|]. split; [simpl; lia|].
    constructor; [|constructor]. simpl. by rewrite lastCompound_append.
  - exists mk. split; [done|]. split; [simpl; lia|].
    constructor; [|constructor]. simpl. by rewrite lastCompound_append.
  - pose proof (mergeContexts_css ctx1 ctx2 c1 c2 mk
                  (Hc1 c1 eq_refl) (Hc2 c2 eq_refl)) as Hctx.
    destruct (mergeContexts ctx1 ctx2 c1 c2 mk) as [e|sels]; cbn [bind].
    + right. by exists ctx1, ctx2.
    + destruct Hctx as [Hn Hk]. exists mk. split; [done|].
      split; [unfold ret; by rewrite length_map|].
      apply Forall_fmap. eapply Forall_impl; [exact Hk|].
      intros s Hs'. simpl. by rewrite Hs'.
Qed.

End MergeCssCombinators.

Lemma mergeKeySelectors_css_combinators_witness :
  match @mergeKeySelectors Examples.exampleExternals
          (Examples.sel2 ".a" "+" ".b") (Examples.sel2 ".c" ">" ".b") with
  | inr sels =>
      exists mergedKey,
        @mergeNodes Examples.exampleExternals
          (CSLast (key (Examples.sel2 ".a" "+" ".b")))
          (CSLast (key (Examples.sel2 ".c" ">" ".b"))) = inr mergedKey /\
        1 <= length sels <= 3 /\
        Forall (fun s => key s = lastCompound mergedKey) sels
  | inl e =>
      @mergeNodes Examples.exampleExternals
        (CSLast (key (Examples.sel2 ".a" "+" ".b")))
        (CSLast (key (Examples.sel2 ".c" ">" ".b"))) = inl e \/
      exists ctx1 ctx2,
        keyContext (Examples.sel2 ".a" "+" ".b") = Some ctx1 /\
        keyContext (Examples.sel2 ".c" ">" ".b") = Some ctx2 /\
        @mergeNodes Examples.exampleExternals ctx1 ctx2 = inl e
  end.
Proof.
  apply (@mergeKeySelectors_css_combinators Examples.exampleExternals).
  - left. unfold plength, Examples.sel2. simpl. lia.
  - intros c [= <-]. unfold cssCombinators. simpl. auto.
  - intros c [= <-]. unfold cssCombinators. simpl. auto.
Defined.

(** [.a + .b] merged with [.c > .b] nests the sibling context under the
    hierarchical one; a key with [::before] cannot be merged with a key
    with [::after]. *)
Example mergeKeySelectors_examples :
  @mergeKeySelectors Examples.exampleExternals
    (Examples.sel2 ".a" "+" ".b") (Examples.sel2 ".c" ">" ".b")
  = inr [parsed (CSNext (Examples.cls ".c") ">"
                   (CSNext (Examples.cls ".a") "+" (CSLast (Examples.cls ".b"))))] /\
  @mergeKeySelectors Examples.exampleExternals
    (parsed (CSLast {| cnodes := [".x"]; pseudoelement := Some "::before" |}))
    (parsed (CSLast {| cnodes := [".y"]; pseudoelement := Some "::after" |}))
  = inl (JsError
           "Cannot merge two compound selectors with different pseudoelements").
Proof. split; reflexivity. Qed.

(** ** The same-values test *)

Lemma sameValuesLoop_spec others l :
  forall d0, d0 <= length others ->
  exists d b,
    sameValuesLoop others d0 l = inr (d, b) /\
    d <= length others /\
    ((b = true /\ d = length others) <->
     concreteOf l = List.map value (drop d0 others)).
Proof.
  induction l as [|[i od] l IH]; intros d0 Hd0.
  - exists d0, true. split; [done|]. split; [done|]. unfold concreteOf. simpl.
    split.
    + intros [_ ->]. by rewrite drop_all.
    + intros Hnil. split; [done|]. symmetry in Hnil.
      apply map_eq_nil in Hnil.
      apply (f_equal length) in Hnil. rewrite length_drop in Hnil.
      simpl in Hnil. lia.
  - simpl. unfold concreteOf. simpl.
    destruct (isResolve (value od)) eqn:Hr; simpl.
    + apply IH, Hd0.
    + destruct (Nat.eqb_spec (length others) d0) as [Heq|Hne].
      * exists d0, false. split; [done|]. split; [done|].
        split; [by intros [? _]|].
        rewrite <- Heq, drop_all. discriminate.
      * destruct (lookup_lt_is_Some_2 others d0) as [x Hx]; [lia|].
        rewrite Hx, (drop_S _ _ _ Hx). simpl.
        destruct (String.eqb_spec (value od) (value x)) as [Hv|Hv]; simpl.
        -- destruct (IH (S d0)) as (d & b & Hl & Hd & Hiff); [lia|].
           exists d, b. split; [done|]. split; [done|].
           rewrite Hiff. unfold concreteOf. rewrite Hv.
           split; [by intros -> | by intros [= ->]].
        -- exists (S d0), false. split; [done|]. split; [lia|].
           split; [by intros [? _] | by intros [= ? _]].
Qed.

(** X3: The same-values test of [resolveConflictWith] never reads past the
    end of the local values, and it succeeds exactly when the concrete
    values of the property in the target rule are, in order, the values
    of the local declarations. *)
Theorem same_values_test (p : string) (r : Rule) (others : list Declaration) :
  exists d b,
    sameValuesLoop others 0 (walkDecls p r) = inr (d, b) /\
    (b && Nat.eqb (length others) d = true <->
     concreteValues p r = List.map value others).
Proof.
  destruct (sameValuesLoop_spec others (walkDecls p r) 0) as (d & b & Hl & _ & Hiff);
    [lia|].
  exists d, b. split; [done|].
  rewrite andb_true_iff, Nat.eqb_eq. unfold concreteValues.
  rewrite drop_0 in Hiff. unfold concreteOf in Hiff. rewrite <- Hiff.
  split; intros [? ?]; split; congruence.
Qed.

(** ** The declarations injected by [resolveInheritance] *)

Lemma resolve_body_closing (ref : string) :
  ~ In char2 (list_ascii_of_string ref) ->
  resolve_body dquote (ref +:+ String dquote ")") = Some ref.
Proof.
  induction ref as [|c ref IH]; intros Hno.
  - reflexivity.
  - simpl in *. destruct (Ascii.eqb_spec c char2) as [->|Hc]; [tauto|].
    rewrite IH by tauto. reflexivity.
Qed.

Lemma strip_prefix_app (p s : string) : strip_prefix p (p +:+ s) = Some s.
Proof.
  induction p as [|c p IH]; simpl; [done|]. by rewrite Ascii.eqb_refl.
Qed.

Lemma RESOLVE_RE_at (s : string) m :
  resolve_at s = Some m -> RESOLVE_RE s = Some m.
Proof. intros Hm. destruct s; cbn [RESOLVE_RE]; by rewrite Hm. Qed.

Lemma resolve_args_dquote (rest : string) :
  resolve_args (String "("%char (String dquote rest)) = resolve_body dquote rest.
Proof. reflexivity. Qed.

Lemma resolve_at_inherited (ref : string) :
  ~ In char2 (list_ascii_of_string ref) ->
  resolve_at ("resolve" +:+ "-inherited" +:+
                String "("%char (String dquote (ref +:+ String dquote ")")))
  = Some (true, ref).
Proof.
  intros Hno. unfold resolve_at.
  rewrite strip_prefix_app, strip_prefix_app, resolve_args_dquote.
  by rewrite resolve_body_closing.
Qed.

(** X4: The value that [resolveInheritance] writes is read back by
    [RESOLVE_RE] as an inherited resolution of the same reference, as long
    as the reference holds no character U+0002. *)
Theorem injected_value_read_back (blockBaseName baseSource : string) :
  ~ In char2 (list_ascii_of_string (blockBaseName +:+ baseSource)) ->
  RESOLVE_RE (resolveInheritedValue blockBaseName baseSource)
  = Some (true, blockBaseName +:+ baseSource).
Proof.
  intros Hno. apply RESOLVE_RE_at.
  rewrite <- (resolve_at_inherited _ Hno). reflexivity.
Qed.

Lemma injected_value_read_back_witness :
  RESOLVE_RE (resolveInheritedValue "base" ".root") = Some (true, "base.root").
Proof.
  apply (injected_value_read_back "base" ".root").
  simpl. intros H. repeat (destruct H as [H|H]; [discriminate H|]). exact H.
Defined.

Lemma fold_left_invariant {A B} (P : A -> Prop) (f : A -> B -> A) l a :
  (forall a b, P a -> P (f a b)) -> P a -> P (fold_left f l a).
Proof.
  intros Hf. revert a. induction l as [|b l IH]; intros a Ha; simpl; [done|].
  by apply IH, Hf.
Qed.

Lemma declProps_app l1 l2 : declProps (l1 ++ l2) = declProps l1 ++ declProps l2.
Proof. unfold declProps. apply omap_app. Qed.

Lemma injected_props bn old inj :
  Forall (injectedDecl bn old) inj ->
  forall p, In p (declProps inj) -> In p (declProps old).
Proof.
  induction 1 as [|c inj (p' & src & -> & Hp') _ IH]; intros p Hp; simpl in Hp.
  - destruct Hp.
  - destruct Hp as [<-|Hp]; [done | by apply IH].
Qed.

Section Injection.
Context `{Externals}.

Lemma inheritSelector_prepends blk bn old st sel :
  (exists inj, inodes st = inj ++ old /\ Forall (injectedDecl bn old) inj) ->
  exists inj, inodes (inheritSelector blk bn st sel) = inj ++ old /\
              Forall (injectedDecl bn old) inj.
Proof.
  intros Hst. unfold inheritSelector.
  destruct (keyBlockObject blk (key sel)) as [obj|]; [|done].
  destruct (existsb _ _); [done|].
  destruct (obase obj) as [bs|]; [|done].
  destruct (detectConflicts obj bs (pseudoelement (key sel))) as [|c cs] eqn:Hcs;
    [done|].
  set (st1 := {| handledConflicts := handledConflicts st;
                 handledObjects := _; inodes := inodes st |}).
  assert (Hprops : forall p, In p (declProps (inodes st1)) -> In p (declProps old)).
  { destruct Hst as (inj & Hn & Hinj). simpl. rewrite Hn, declProps_app.
    intros p [Hp|Hp]%in_app_or; [by eapply injected_props | done]. }
  generalize (declProps (inodes st1)) Hprops. intros ruleProps Hrp.
  apply (fold_left_invariant
           (fun st => exists inj, inodes st = inj ++ old /\
                                  Forall (injectedDecl bn old) inj));
    [|exact Hst].
  intros st' c' (inj & Hn & Hinj). unfold injectResolution.
  destruct (has ruleProps (fst c') && _) eqn:Hcond; [|by exists inj].
  apply andb_true_iff in Hcond as [Hin%has_In _].
  eexists (_ :: inj). simpl. rewrite Hn. split; [reflexivity|].
  constructor; [|done]. eexists _, _. split; [reflexivity|]. by apply Hrp.
Qed.

(** X5: [resolveInheritance] only adds to a rule: the nodes of the rule
    come back unchanged after the declarations it put in front, the
    selector is kept, and every declaration put in front is a
    [resolve-inherited] of the base for a property that the rule already
    declares. *)
Theorem inheritRule_prepends (blk : Block) (bn : string) (r : Rule) :
  selector (inheritRule blk bn r) = selector r /\
  exists inj,
    nodes (inheritRule blk bn r) = inj ++ nodes r /\
    Forall (injectedDecl bn (nodes r)) inj.
Proof.
  split; [reflexivity|]. unfold inheritRule. simpl.
  apply (fold_left_invariant
           (fun st => exists inj, inodes st = inj ++ nodes r /\
                                  Forall (injectedDecl bn (nodes r)) inj)).
  - intros st sel. apply inheritSelector_prepends.
  - exists []. by split.
Qed.

Lemma inheritSelector_once blk bn old pe0
  (P := fun st : InheritState =>
          exists inj, inodes st = inj ++ old /\ NoDup (declProps inj) /\
                      forall p, In p (declProps inj) ->
                                In p (default [] (handledConflicts st !! pe0)))
  st sel :
  pseudoelement (key sel) = pe0 -> P st -> P (inheritSelector blk bn st sel).
Proof.
  intros Hpe Hst. unfold inheritSelector.
  destruct (keyBlockObject blk (key sel)) as [obj|]; [|done].
  destruct (existsb _ _); [done|].
  destruct (obase obj) as [bs|]; [|done].
  destruct (detectConflicts obj bs (pseudoelement (key sel))) as [|c cs] eqn:Hcs;
    [done|].
  rewrite Hpe. apply fold_left_invariant; [|exact Hst].
  intros st' c' (inj & Hn & Hnd & Hh). unfold injectResolution.
  match goal with |- P (if ?b then _ else _) => destruct b eqn:Hcond end;
    [|by exists inj].
  apply andb_true_iff in Hcond as [_ Hnew%negb_true_iff].
  assert (Hfresh : ~ In (fst c') (default [] (handledConflicts st' !! pe0))).
  { intros Hin%has_In. congruence. }
  eexists (_ :: inj). simpl. rewrite Hn. split; [reflexivity|].
  rewrite lookup_insert_eq. simpl. split.
  - apply NoDup_cons. split; [|done].
    intros Hin%list_elem_of_In. by apply Hfresh, Hh.
  - intros p [<-|Hp]; apply in_or_app; [right; by left | left; by apply Hh].
Qed.

(** X6: When the selectors of a rule all have the same pseudo-element (or
    none), [resolveInheritance] injects at most one declaration per
    property, however many of the selectors target objects with a
    base. *)
Theorem inheritRule_injects_once (blk : Block) (bn : string) (r : Rule)
  (pe0 : option string) :
  Forall (fun sel => pseudoelement (key sel) = pe0) (parseSelector (selector r)) ->
  exists inj,
    nodes (inheritRule blk bn r) = inj ++ nodes r /\ NoDup (declProps inj).
Proof.
  intros Hpe. unfold inheritRule. simpl.
  set (P := fun st : InheritState =>
          exists inj, inodes st = inj ++ nodes r /\ NoDup (declProps inj) /\
                      forall p, In p (declProps inj) ->
                                In p (default [] (handledConflicts st !! pe0))).
  enough (Hinv : P (fold_left (inheritSelector blk bn)
                      (parseSelector (selector r))
                      {| handledConflicts := ∅; handledObjects := ∅;
                         inodes := nodes r |})).
  { destruct Hinv as (inj & ? & ? & _). by exists inj. }
  assert (Hst0 : P {| handledConflicts := ∅; handledObjects := ∅;
                      inodes := nodes r |}).
  { exists []. split; [done|]. split; [constructor | by intros ? []]. }
  revert Hst0. generalize {| handledConflicts := ∅; handledObjects := ∅;
                             inodes := nodes r |}.
  induction Hpe as [|sel sels Hsel _ IH]; intros st Hst; simpl; [done|].
  apply IH. by apply inheritSelector_once.
Qed.

End Injection.

Lemma inheritRule_injects_once_witness :
  exists inj,
    nodes (@inheritRule MoreExamples.listExternals Examples.childBlock "base"
             MoreExamples.listRule)
    = inj ++ nodes MoreExamples.listRule /\ NoDup (declProps inj).
Proof.
  apply (@inheritRule_injects_once MoreExamples.listExternals
           Examples.childBlock "base" MoreExamples.listRule None).
  constructor; [reflexivity|]. constructor; [reflexivity|]. constructor.
Defined.

(** On [.foo, .bar { color: red }], where both classes inherit and
    conflict with their bases on [color], the first selector injects the
    resolution and the second one injects nothing. *)
Example inheritRule_selector_list :
  List.map key (@parseSelector MoreExamples.listExternals
                  (selector MoreExamples.listRule))
  = [Examples.cls ".foo"; Examples.cls ".bar"] /\
  @inheritRule MoreExamples.listExternals Examples.childBlock "base"
    MoreExamples.listRule
  = {| selector := ".foo, .bar";
       nodes := [Decl {| prop := "color";
                         value := resolveInheritedValue "base" ".foo" |};
                 Examples.color "red"] |}.
Proof. split; reflexivity. Qed.

(** ** What [resolve] does to a rule and to the tree *)

Lemma foldM_fixed {A S} (f : S -> A -> Result S) (l : list A) (s : S) :
  (forall a, f s a = inr s) -> foldM f l s = inr s.
Proof.
  intros Hf. induction l as [|a l IH]; simpl; [done|]. by rewrite Hf.
Qed.

Lemma Forall_flat_map_app {A B} (P : B -> Prop) (g : A -> list B) l1 l2 :
  Forall P (flat_map g (l1 ++ l2)) <->
  Forall P (flat_map g l1) /\ Forall P (flat_map g l2).
Proof. by rewrite flat_map_app, Forall_app. Qed.

Section ResolveShape.
Context `{Externals}.

Lemma resolveDecl_not_resolution blk parent d ins :
  isResolve (value d) = false -> resolveDecl blk parent d ins = inr None.
Proof.
  unfold resolveDecl, isResolve. by destruct (RESOLVE_RE (value d)).
Qed.

Lemma resolveDecl_resolution blk parent d ins w :
  resolveDecl blk parent d ins = inr (Some w) -> isResolve (value d) = true.
Proof.
  unfold resolveDecl, isResolve. by destruct (RESOLVE_RE (value d)).
Qed.

Lemma resolveDecl_none blk parent d ins :
  resolveDecl blk parent d ins = inr None -> isResolve (value d) = false.
Proof.
  unfold resolveDecl, isResolve.
  destruct (RESOLVE_RE (value d)) as [[inh ref]|]; [|done].
  destruct (scanSiblings d parent) as [e|st]; simpl; [discriminate|].
  destruct (foundOtherValue st); [|discriminate].
  destruct (assertBlockObject _ _); simpl; [discriminate|].
  destruct (checkTarget _ _ _); simpl; [discriminate|].
  destruct (walkChain _ _ _ _ _ _ _); simpl; [discriminate|].
  by destruct (negb inh && _).
Qed.

Lemma resolveChildren_filter blk sel todo :
  forall done ins ch ins',
    resolveChildren blk sel done todo ins = inr (ch, ins') ->
    ch = done ++ List.filter keepChild todo.
Proof.
  induction todo as [|c todo IH]; intros done ins ch ins'; simpl.
  - intros [= <- _]. by rewrite app_nil_r.
  - destruct c as [d|t]; simpl.
    + destruct (resolveDecl _ _ _ _) as [e|[w|]] eqn:Hd; simpl; [discriminate| |].
      * rewrite (resolveDecl_resolution _ _ _ _ _ Hd). simpl. apply IH.
      * rewrite (resolveDecl_none _ _ _ _ Hd). simpl.
        intros Hr%IH. by rewrite Hr, <- app_assoc.
    + intros Hr%IH. by rewrite Hr, <- app_assoc.
Qed.

(** One selector of the target adds at most one rule, a resolution of
    the property. *)
Lemma resolveSelector_emits o d others ov cs st s st' :
  Forall (fun x => isResolve (value x) = false) others ->
  resolveSelector o d others ov cs st s = inr st' ->
  inserted st' = inserted st \/
  exists r', inserted st' = r' :: inserted st /\ resolutionOf (prop d) r'.
Proof.
  intros Hothers. unfold resolveSelector.
  destruct (rewriteSelector _ _); simpl; [|discriminate].
  destruct (mergeKeySelectors _ _); simpl; [discriminate|].
  destruct (has _ _); [intros [= <-]; by left|].
  destruct (sameValuesLoop _ _ _) as [e|same]; simpl; [discriminate|].
  destruct (snd same && _); [intros [= <-]; by left|].
  intros [= <-]. simpl.
  match goal with
  | |- context [match ?ns with [] => _ | _ :: _ => _ end] =>
      assert (Hns : Forall (fun c => exists v,
                              c = Decl {| prop := prop d; value := v |} /\
                              isResolve v = false) ns);
      [|destruct ns as [|n ns'] eqn:Hne; [by left|right]]
  end.
  - destruct ov.
    + apply Forall_fmap. unfold concreteValues.
      apply Forall_fmap. apply List.Forall_forall. intros x Hx.
      apply filter_In in Hx as [_ Hx]. simpl. eexists. split; [done|].
      by apply negb_true_iff.
    + destruct (concreteValues _ _); [constructor|].
      apply Forall_fmap. eapply Forall_impl; [exact Hothers|].
      intros x Hx. simpl. by eexists.
  - eexists. split; [reflexivity|]. by split.
Qed.

Lemma resolveConflictWith_emits (P : Rule -> Prop) ref o parent d others ov
  ins fc ins' :
  Forall (fun x => isResolve (value x) = false) others ->
  (forall r', resolutionOf (prop d) r' -> P r') ->
  Forall P ins ->
  resolveConflictWith ref o parent d others ov ins = inr (fc, ins') ->
  Forall P ins'.
Proof.
  intros Hothers HP Hins. unfold resolveConflictWith.
  destruct (root (block o)); [|discriminate].
  destruct (foldM _ _ _) as [e|st] eqn:Hfold; simpl; [discriminate|].
  intros [= _ <-].
  eapply (foldM_invariant (fun st => Forall P (inserted st)));
    [| |exact Hfold]; [|done].
  clear -Hothers HP. intros st cs st' Hst. unfold resolveCurrentSelector.
  destruct (match pseudoelement (key cs) with
            | Some pe => other (result st) !! pe
            | None => Some (main (result st))
            end) as [[|s sels]|]; [by intros [= <-]| |by intros [= <-]].
  apply (foldM_invariant (fun st => Forall P (inserted st))); [|done].
  intros s0 a s1 Hs0 Hstep.
  destruct (resolveSelector_emits _ _ _ _ _ _ _ _ Hothers Hstep)
    as [-> | (r' & -> & Hr')]; [done|].
  constructor; [by apply HP | done].
Qed.

Lemma walkChain_emits (P : Rule -> Prop) ref parent d others ov o ins w :
  Forall (fun x => isResolve (value x) = false) others ->
  (forall r', resolutionOf (prop d) r' -> P r') ->
  Forall P ins ->
  walkChain ref parent d others ov o ins = inr w ->
  Forall P (after w).
Proof.
  intros Hothers HP. revert ins w.
  induction o as [o IH] using BlockObject_base_ind. intros ins w Hins.
  rewrite walkChain_unfold.
  destruct (resolveConflictWith ref o parent d others ov ins) as [e|[fc rs]]
    eqn:Hrc; simpl; [discriminate|].
  pose proof (resolveConflictWith_emits P _ _ _ _ _ _ _ _ _ Hothers HP Hins Hrc)
    as Hrs.
  destruct fc; try by intros [= <-].
  destruct (obase o) as [b|]; [|by intros [= <-]].
  destruct (walkChain ref parent d others ov b rs) as [e|w'] eqn:Hw; simpl;
    [discriminate|].
  intros [= <-]. simpl. by eapply IH.
Qed.

Lemma resolveDecl_emits (P : Rule -> Prop) blk parent d ins w :
  (forall r', resolutionOf (prop d) r' -> P r') ->
  Forall P ins ->
  resolveDecl blk parent d ins = inr (Some w) ->
  Forall P (after w).
Proof.
  intros HP Hins. unfold resolveDecl.
  destruct (RESOLVE_RE (value d)) as [[inh ref]|]; [|discriminate].
  destruct (scanSiblings d parent) as [e|st] eqn:Hs; simpl; [discriminate|].
  destruct (foundOtherValue st); [|discriminate].
  destruct (assertBlockObject _ _) as [e|o]; simpl; [discriminate|].
  destruct (checkTarget _ _ _); simpl; [discriminate|].
  destruct (walkChain _ _ _ _ _ _ _) as [e|w'] eqn:Hw; simpl; [discriminate|].
  destruct (negb inh && _); [discriminate|]. intros [= <-].
  eapply walkChain_emits; [|exact HP|exact Hins|exact Hw].
  eapply scan_otherDecls_concrete; [exact Hs | constructor].
Qed.

Lemma resolveChildren_emits blk sel (orig : list ChildNode) todo :
  let P := fun r' => exists d, In (Decl d) orig /\ isResolve (value d) = true /\
                               resolutionOf (prop d) r' in
  forall done ins ch ins',
    (forall c, In c todo -> In c orig) ->
    Forall P ins ->
    resolveChildren blk sel done todo ins = inr (ch, ins') ->
    Forall P ins'.
Proof.
  intros P. induction todo as [|c todo IH]; intros done ins ch ins' Hsub Hins;
    simpl.
  - by intros [= _ <-].
  - assert (Hsub' : forall c', In c' todo -> In c' orig)
      by (intros; apply Hsub; by right).
    destruct c as [d|t]; [|by apply IH].
    destruct (resolveDecl _ _ _ _) as [e|[w|]] eqn:Hd; simpl; [discriminate| |].
    + apply IH; [done|].
      eapply resolveDecl_emits; [|exact Hins|exact Hd].
      intros r' Hr'. exists d. split; [apply Hsub; by left|].
      split; [by eapply resolveDecl_resolution | done].
    + by apply IH.
Qed.

(** X7: When [resolve] gets through a rule, the rule comes back with its
    resolutions removed and everything else in place, followed by the
    rules it emitted; each of these is not empty and holds only concrete
    declarations of the property of one of the resolutions of the rule. *)
Theorem resolve_rule_shape (blk : Block) (r : Rule) (out : list Node) :
  resolveNode blk (NRule r) = inr out ->
  exists emitted,
    out = NRule {| selector := selector r;
                   nodes := List.filter keepChild (nodes r) |}
          :: List.map NRule emitted /\
    Forall (fun r' => exists d, In (Decl d) (nodes r) /\
                                isResolve (value d) = true /\
                                resolutionOf (prop d) r') emitted.
Proof.
  simpl.
  destruct (resolveChildren blk (selector r) [] (nodes r) []) as [e|[ch ins]]
    eqn:Hr; simpl; [discriminate|].
  intros [= <-]. exists ins. split.
  - by rewrite (resolveChildren_filter _ _ _ _ _ _ _ Hr).
  - eapply (resolveChildren_emits blk (selector r) (nodes r));
      [|constructor|exact Hr]. done.
Qed.

Lemma filter_keepChild_concrete l :
  Forall (fun c => match c with
                   | Decl d => isResolve (value d) = false
                   | Comment _ => True
                   end) (List.filter keepChild l).
Proof.
  apply List.Forall_forall. intros c Hc. apply filter_In in Hc as [_ Hc].
  destruct c; [|done]. by apply negb_true_iff.
Qed.

Lemma resolveNode_output_resolved blk n :
  forall out, resolveNode blk n = inr out ->
              Forall resolved (flat_map subnodes out).
Proof.
  induction n as [r | nm ps ch IH | t] using Node_ind'; intros out.
  - simpl.
    destruct (resolveChildren blk (selector r) [] (nodes r) []) as [e|[c ins]]
      eqn:Hr; simpl; [discriminate|].
    intros [= <-]. simpl. constructor.
    + simpl. unfold concreteOnly. simpl.
      rewrite (resolveChildren_filter _ _ _ _ _ _ _ Hr). simpl.
      apply filter_keepChild_concrete.
    + assert (Hins : Forall concreteOnly ins).
      { eapply resolveChildren_concrete; [|exact Hr]. constructor. }
      clear Hr. induction Hins as [|r' ins Hr' _ IHins]; simpl; [constructor|].
      by constructor.
  - rewrite resolveNode_at_rule.
    destruct (resolve ch blk) as [e|ch'] eqn:Hch; simpl; [discriminate|].
    intros [= <-]. simpl. constructor; [done|]. rewrite app_nil_r.
    clear nm ps. revert ch' Hch.
    induction IH as [|c ch Hc _ IHch]; intros ch'; simpl.
    + by intros [= <-].
    + destruct (resolveNode blk c) as [e|a] eqn:Ha; simpl; [discriminate|].
      destruct (resolve ch blk) as [e|b] eqn:Hb; simpl; [discriminate|].
      intros [= <-]. apply Forall_flat_map_app. split; [by apply Hc | by apply IHch].
  - intros [= <-]. simpl. by repeat constructor.
Qed.

Lemma resolve_output_resolved blk rt out :
  resolve rt blk = inr out -> Forall resolved (allNodes out).
Proof.
  unfold allNodes. revert out. induction rt as [|n rt IH]; intros out; simpl.
  - by intros [= <-].
  - destruct (resolveNode blk n) as [e|a] eqn:Ha; simpl; [discriminate|].
    destruct (resolve rt blk) as [e|b] eqn:Hb; simpl; [discriminate|].
    intros [= <-]. apply Forall_flat_map_app.
    split; [by eapply resolveNode_output_resolved | by apply IH].
Qed.

(** X8: No resolution reaches the output: in the tree that [resolve]
    returns, at any depth, every declaration of every rule is concrete. *)
Theorem resolve_leaves_no_resolution (blk : Block) (rt out : Root) :
  resolve rt blk = inr out -> Forall resolved (allNodes out).
Proof. apply resolve_output_resolved. Qed.

Lemma resolveNode_resolved_identity blk n :
  Forall resolved (subnodes n) -> resolveNode blk n = inr [n].
Proof.
  induction n as [r | nm ps ch IH | t] using Node_ind'; simpl subnodes;
    intros Hall.
  - apply Forall_cons in Hall as [Hr _]. simpl in Hr. simpl.
    rewrite (resolveChildren_concrete_rule blk (selector r) (nodes r) [] [] Hr).
    simpl. by destruct r.
  - rewrite resolveNode_at_rule. apply Forall_cons in Hall as [_ Hch].
    assert (Hid : resolve ch blk = inr ch).
    { clear nm ps. induction IH as [|c ch Hc _ IHch]; simpl; [done|].
      simpl in Hch. apply Forall_app in Hch as [Hc' Hch'].
      by rewrite (Hc Hc'), (IHch Hch'). }
    by rewrite Hid.
  - reflexivity.
Qed.

Lemma resolve_resolved_identity blk rt :
  Forall resolved (allNodes rt) -> resolve rt blk = inr rt.
Proof.
  unfold allNodes. induction rt as [|n rt IH]; simpl; intros Hall; [done|].
  apply Forall_app in Hall as [Hn Hrt].
  by rewrite (resolveNode_resolved_identity _ _ Hn), (IH Hrt).
Qed.

(** X9: [resolve] is idempotent: run again on its own output it throws
    nothing, consults no block and returns the tree as it is. *)
Theorem resolve_idempotent (blk blk' : Block) (rt out : Root) :
  resolve rt blk = inr out -> resolve out blk' = inr out.
Proof.
  intros Hr. apply resolve_resolved_identity.
  by eapply resolve_output_resolved.
Qed.

End ResolveShape.

Lemma resolve_rule_shape_witness :
  exists emitted,
    [NRule {| selector := ".nav"; nodes := [Examples.color "blue"] |};
     NRule {| selector := ".foo.nav"; nodes := [Examples.color "red"] |}]
    = NRule {| selector := selector MoreExamples.blueRule;
               nodes := List.filter keepChild (nodes MoreExamples.blueRule) |}
      :: List.map NRule emitted /\
    Forall (fun r' => exists d, In (Decl d) (nodes MoreExamples.blueRule) /\
                                isResolve (value d) = true /\
                                resolutionOf (prop d) r') emitted.
Proof.
  apply (@resolve_rule_shape Examples.exampleExternals Examples.appBlock
           MoreExamples.blueRule).
  vm_compute. reflexivity.
Defined.

Lemma resolve_leaves_no_resolution_witness :
  Forall resolved
    (allNodes
       [NAtRule "media" "print"
          [NRule {| selector := ".nav"; nodes := [Examples.color "blue"] |};
           NRule {| selector := ".foo.nav"; nodes := [Examples.color "red"] |}]]).
Proof.
  apply (@resolve_leaves_no_resolution Examples.exampleExternals
           Examples.appBlock
           [NAtRule "media" "print" [NRule MoreExamples.blueRule]]).
  vm_compute. reflexivity.
Defined.

Lemma resolve_idempotent_witness :
  @resolve Examples.exampleExternals
    [NAtRule "media" "print"
       [NRule {| selector := ".nav"; nodes := [Examples.color "blue"] |};
        NRule {| selector := ".foo.nav"; nodes := [Examples.color "red"] |}]]
    Examples.childBlock
  = inr [NAtRule "media" "print"
           [NRule {| selector := ".nav"; nodes := [Examples.color "blue"] |};
            NRule {| selector := ".foo.nav"; nodes := [Examples.color "red"] |}]].
Proof.
  apply (@resolve_idempotent Examples.exampleExternals Examples.appBlock
           Examples.childBlock
           [NAtRule "media" "print" [NRule MoreExamples.blueRule]]).
  vm_compute. reflexivity.
Defined.

(** ** A resolution with nothing to resolve *)

Section NoConflict.
Context `{Externals}.

Lemma resolveConflictWith_empty ref o rt parent d others ov ins :
  root (block o) = Some rt ->
  emptyQuery (queryKeySelector o rt) ->
  resolveConflictWith ref o parent d others ov ins = inr (noconflict, ins).
Proof.
  intros Hrt [Hmain Hother]. unfold resolveConflictWith. rewrite Hrt.
  rewrite foldM_fixed; [done|].
  intros cs. unfold resolveCurrentSelector. simpl.
  destruct (pseudoelement (key cs)) as [pe|].
  - by destruct (Hother pe) as [-> | ->].
  - by rewrite Hmain.
Qed.

Lemma walkChain_empty ref parent d others ov o :
  Forall (fun o' => exists rt, root (block o') = Some rt /\
                               emptyQuery (queryKeySelector o' rt))
    (baseChain o) ->
  forall ins,
    walkChain ref parent d others ov o ins
    = inr {| found := noconflict; after := ins; levels := baseChain o |}.
Proof.
  induction o as [o IH] using BlockObject_base_ind. intros Hall ins.
  rewrite baseChain_unfold in Hall. apply Forall_cons in Hall as [(rt & Hrt & Hq) Hall].
  rewrite walkChain_unfold, (resolveConflictWith_empty _ _ _ _ _ _ _ _ Hrt Hq).
  simpl. rewrite (baseChain_unfold o).
  destruct (obase o) as [b|]; [|done].
  by rewrite (IH b eq_refl Hall).
Qed.

(** X10: When no selector of the target's block, nor of any block up its
    chain of bases, matches the target, an explicit [resolve()] that has
    passed the earlier checks throws "There are no conflicting values for
    P found in any selectors targeting R.", while a [resolve-inherited()]
    returns after the whole chain has been walked, with no rule added. *)
Theorem resolution_without_conflict (blk : Block) (parent : Rule)
  (d : Declaration) (ins : list Rule) (inh : bool) (ref : string)
  (st : Scan) (o : BlockObject) :
  RESOLVE_RE (value d) = Some (inh, ref) ->
  scanSiblings d parent = inr st -> foundOtherValue st <> None ->
  lookup blk ref = Some o ->
  checkTarget blk inh o = inr tt ->
  Forall (fun o' => exists rt, root (block o') = Some rt /\
                               emptyQuery (queryKeySelector o' rt))
    (baseChain o) ->
  resolveDecl blk parent d ins
  = if inh then
      inr (Some {| found := noconflict; after := ins; levels := baseChain o |})
    else inl (noConflictError (prop d) ref).
Proof.
  intros Hm Hs Hv Hl Hc Hall. unfold resolveDecl. rewrite Hm, Hs. simpl.
  destruct (foundOtherValue st); [|done].
  rewrite Hl. simpl. rewrite Hc. simpl.
  rewrite (walkChain_empty _ _ _ _ _ _ Hall). simpl. by destruct inh.
Qed.

End NoConflict.

Lemma resolution_without_conflict_witness :
  @resolveDecl MoreExamples.zapExternals Examples.appBlock
    {| selector := ".nav";
       nodes := [Examples.color "red"; Examples.color "resolve('other.zap')"] |}
    {| prop := "color"; value := "resolve('other.zap')" |} []
  = inl (InvalidBlockSyntax
           "There are no conflicting values for color found in any selectors targeting other.zap.").
Proof.
  eapply (@resolution_without_conflict MoreExamples.zapExternals
            Examples.appBlock
            {| selector := ".nav";
               nodes := [Examples.color "red";
                         Examples.color "resolve('other.zap')"] |}
            {| prop := "color"; value := "resolve('other.zap')" |}
            [] false "other.zap" _ MoreExamples.otherZap).
  - reflexivity.
  - reflexivity.
  - discriminate.
  - reflexivity.
  - reflexivity.
  - repeat constructor. eexists. split; [reflexivity|].
    split; [reflexivity|]. intros pe. left. reflexivity.
Defined.

(** ** The passes of [compile] and the at-rules of the block syntax *)

Lemma omap_fixed {A} (f : A -> option A) (l : list A) :
  Forall (fun a => f a = Some a) l -> omap f l = l.
Proof.
  induction 1 as [|a l Ha _ IH]; simpl; [done|].
  rewrite Ha. f_equal. exact IH.
Qed.

Lemma Forall_flat_map_subnodes (P : Node -> Prop) l :
  Forall P (flat_map subnodes l) <-> Forall (fun n => Forall P (subnodes n)) l.
Proof.
  induction l as [|n l IH]; simpl.
  - split; constructor.
  - rewrite Forall_app, Forall_cons, IH. tauto.
Qed.

(** A pass that is the identity on every node whose subtree satisfies
    [P] is the identity on every list of such nodes. *)
Lemma omap_fixed_tree (P : Node -> Prop) (f : Node -> option Node) ch :
  Forall (fun n => Forall P (subnodes n) -> f n = Some n) ch ->
  Forall P (flat_map subnodes ch) -> omap f ch = ch.
Proof.
  intros IH Hch. apply omap_fixed.
  apply Forall_flat_map_subnodes in Hch.
  induction IH as [|c ch Hc _ IHch]; [constructor|].
  apply Forall_cons in Hch as [? ?]. constructor; auto.
Qed.

Lemma removeAtRules_fixed nm n :
  Forall (fun x => ~ isAtRuleNamed nm x) (subnodes n) ->
  removeAtRules nm n = Some n.
Proof.
  induction n as [r | nm' ps ch IH | t] using Node_ind'; simpl; intros Hall;
    try done.
  apply Forall_cons in Hall as [Hnm Hch]. simpl in Hnm.
  destruct (String.eqb_spec nm' nm) as [->|_]; [done|].
  by rewrite (omap_fixed_tree _ _ _ IH Hch).
Qed.

Lemma removeDecls_fixed re l :
  Forall (fun c => match c with
                   | Decl d => re (prop d) = false
                   | Comment _ => True
                   end) l ->
  removeDecls re l = l.
Proof.
  induction 1 as [|c l Hc _ IH]; simpl; [done|].
  destruct c as [d|t]; [rewrite Hc|]; simpl; by rewrite IH.
Qed.

Lemma cleanRootRule_fixed n :
  Forall cleanedRootRule (subnodes n) -> cleanRootRule n = Some n.
Proof.
  induction n as [r | nm ps ch IH | t] using Node_ind'; simpl; intros Hall;
    try done.
  - apply Forall_cons in Hall as [Hr _]. simpl in Hr.
    destruct (ROOT_RE (selector r)); [|done].
    destruct (Hr eq_refl) as [Hdecls Hne].
    rewrite removeDecls_fixed.
    + destruct r as [sel [|c ns]]; simpl in *; done.
    + eapply Forall_impl; [exact Hdecls|].
      intros [d|t] Hd; simpl in *; [|done].
      by destruct (BLOCK_PROP_RE (prop d)).
  - apply Forall_cons in Hall as [_ Hch].
    by rewrite (omap_fixed_tree _ _ _ IH Hch).
Qed.

Lemma stripBlockSyntax_no_reference rt :
  Forall (fun n => ~ isAtRuleNamed "block-reference" n)
    (allNodes (stripBlockSyntax rt)).
Proof.
  unfold stripBlockSyntax, allNodes.
  apply Forall_flat_map_omap. apply List.Forall_forall. intros n Hn n' Hn'.
  eapply cleanRootRule_keeps_at_rules; [| |exact Hn'|].
  - simpl. tauto.
  - simpl. tauto.
  - assert (Hall : Forall (fun x => ~ isAtRuleNamed "block-reference" x)
                     (flat_map subnodes
                        (omap (removeAtRules "block-reference") rt))).
    { apply Forall_flat_map_omap. apply List.Forall_forall.
      intros ? _ ?. apply removeAtRules_none_left. }
    rewrite List.Forall_forall in Hall. apply List.Forall_forall.
    intros x Hx. apply Hall. apply in_flat_map. eauto.
Qed.

Lemma stripBlockSyntax_cleaned rt :
  Forall cleanedRootRule (allNodes (stripBlockSyntax rt)).
Proof.
  unfold stripBlockSyntax, allNodes.
  apply Forall_flat_map_omap. apply List.Forall_forall.
  intros ? _ ?. apply cleanRootRule_cleaned.
Qed.

(** X11: The clean-up of [compile] is idempotent: on a tree it has already
    cleaned it removes nothing more. *)
Theorem stripBlockSyntax_idempotent (rt : Root) :
  stripBlockSyntax (stripBlockSyntax rt) = stripBlockSyntax rt.
Proof.
  unfold stripBlockSyntax at 1.
  rewrite (omap_fixed_tree (fun n => ~ isAtRuleNamed "block-reference" n)
             (removeAtRules "block-reference")).
  - apply (omap_fixed_tree cleanedRootRule cleanRootRule).
    + apply List.Forall_forall. intros n _. apply cleanRootRule_fixed.
    + apply stripBlockSyntax_cleaned.
  - apply List.Forall_forall. intros n _. apply removeAtRules_fixed.
  - apply stripBlockSyntax_no_reference.
Qed.

(** A property of nodes that looks at the name of an at-rule only. *)
Lemma removeAtRules_keeps (P : Node -> Prop) nm n n' :
  (forall nm ps ch ch', P (NAtRule nm ps ch) -> P (NAtRule nm ps ch')) ->
  removeAtRules nm n = Some n' ->
  Forall P (subnodes n) -> Forall P (subnodes n').
Proof.
  intros HPa. revert n'.
  induction n as [r | nm' ps ch IH | t] using Node_ind'; intros n' Hn Hall;
    simpl in Hn; try by injection Hn as <-.
  destruct (String.eqb nm' nm); [discriminate|].
  injection Hn as <-. simpl in *. apply Forall_cons in Hall as [Hhd Htl].
  constructor; [by eapply HPa|].
  clear Hhd. induction IH as [|c ch Hc _ IHch]; simpl; [constructor|].
  simpl in Htl. apply Forall_app in Htl as [Hc' Hch'].
  destruct (removeAtRules nm c) as [c'|] eqn:Hcc; simpl; [|by apply IHch].
  apply Forall_app. split; [by apply Hc | by apply IHch].
Qed.

Lemma walkRules_keeps (P : Node -> Prop) (f : Rule -> Rule) n :
  (forall r, P (NRule r)) ->
  (forall nm ps ch ch', P (NAtRule nm ps ch) -> P (NAtRule nm ps ch')) ->
  Forall P (subnodes n) -> Forall P (subnodes (fst (walkRules f n))).
Proof.
  intros HPr HPa.
  induction n as [r | nm ps ch IH | t] using Node_ind'; simpl; intros Hall;
    try done.
  - constructor; [apply HPr | constructor].
  - apply Forall_cons in Hall as [Hhd Htl].
    constructor; [by eapply HPa|].
    clear Hhd. induction IH as [|c ch Hc _ IHch]; simpl; [constructor|].
    simpl in Htl. apply Forall_app in Htl as [Hc' Hch'].
    apply Forall_app. split; [by apply Hc | by apply IHch].
Qed.

Lemma walkRulesRoot_keeps (P : Node -> Prop) (f : Rule -> Rule) rt :
  (forall r, P (NRule r)) ->
  (forall nm ps ch ch', P (NAtRule nm ps ch) -> P (NAtRule nm ps ch')) ->
  Forall P (allNodes rt) -> Forall P (allNodes (fst (walkRulesRoot f rt))).
Proof.
  intros HPr HPa. unfold allNodes, walkRulesRoot. simpl.
  induction rt as [|n rt IH]; simpl; [done|].
  intros [Hn Hrt]%Forall_app. apply Forall_app.
  split; [by apply walkRules_keeps | by apply IH].
Qed.

Section CompileOutput.
Context `{Externals} `{CompilerExternals}.

Lemma resolveNode_keeps (P : Node -> Prop) blk n :
  (forall r, P (NRule r)) ->
  (forall nm ps ch ch', P (NAtRule nm ps ch) -> P (NAtRule nm ps ch')) ->
  forall out, resolveNode blk n = inr out ->
              Forall P (subnodes n) -> Forall P (flat_map subnodes out).
Proof.
  intros HPr HPa.
  induction n as [r | nm ps ch IH | t] using Node_ind'; intros out.
  - simpl. destruct (resolveChildren _ _ _ _ _) as [e|x]; simpl; [discriminate|].
    intros [= <-] _. simpl. constructor; [apply HPr|].
    induction (snd x) as [|r' l IHl]; simpl; [constructor|].
    constructor; [apply HPr | exact IHl].
  - rewrite resolveNode_at_rule.
    destruct (resolve ch blk) as [e|ch'] eqn:Hch; simpl; [discriminate|].
    intros [= <-] Hall. simpl in *. apply Forall_cons in Hall as [Hhd Htl].
    constructor; [by eapply HPa|]. rewrite app_nil_r.
    clear Hhd nm ps. revert ch' Hch Htl.
    induction IH as [|c ch Hc _ IHch]; intros ch'; simpl.
    + by intros [= <-].
    + destruct (resolveNode blk c) as [e|a] eqn:Ha; simpl; [discriminate|].
      destruct (resolve ch blk) as [e|b] eqn:Hb; simpl; [discriminate|].
      intros [= <-] [Hc' Hch']%Forall_app.
      apply Forall_flat_map_app. split; [by apply Hc | by apply IHch].
  - intros [= <-]. done.
Qed.

Lemma resolve_keeps (P : Node -> Prop) blk rt :
  (forall r, P (NRule r)) ->
  (forall nm ps ch ch', P (NAtRule nm ps ch) -> P (NAtRule nm ps ch')) ->
  forall out, resolve rt blk = inr out ->
              Forall P (allNodes rt) -> Forall P (allNodes out).
Proof.
  intros HPr HPa. unfold allNodes.
  induction rt as [|n rt IH]; intros out; simpl.
  - by intros [= <-].
  - destruct (resolveNode blk n) as [e|a] eqn:Ha; simpl; [discriminate|].
    destruct (resolve rt blk) as [e|b] eqn:Hb; simpl; [discriminate|].
    intros [= <-] [Hn Hrt]%Forall_app. apply Forall_flat_map_app.
    split; [by eapply resolveNode_keeps | by apply IH].
Qed.

Lemma processDebugStatement_none_left f blk n n' :
  processDebugStatement f blk n = Some n' ->
  Forall (fun x => ~ isAtRuleNamed "block-debug" x) (subnodes n').
Proof.
  revert n'. induction n as [r | nm ps ch IH | t] using Node_ind';
    intros n' Hn; simpl in Hn.
  - injection Hn as <-. repeat constructor. simpl. tauto.
  - destruct (String.eqb_spec nm "block-debug") as [Hnm|Hnm].
    + destruct (parseBlockDebug ps f blk) as [ref channel].
      destruct (String.eqb channel "comment"); [|discriminate].
      injection Hn as <-. repeat constructor. simpl. tauto.
    + injection Hn as <-. simpl. constructor; [done|].
      by apply Forall_flat_map_omap.
  - injection Hn as <-. repeat constructor. simpl. tauto.
Qed.

Lemma processDebugStatement_fixed f blk n :
  Forall (fun x => ~ isAtRuleNamed "block-debug" x) (subnodes n) ->
  processDebugStatement f blk n = Some n.
Proof.
  induction n as [r | nm ps ch IH | t] using Node_ind'; simpl; intros Hall;
    try done.
  apply Forall_cons in Hall as [Hnm Hch]. simpl in Hnm.
  destruct (String.eqb_spec nm "block-debug") as [->|_]; [done|].
  by rewrite (omap_fixed_tree _ _ _ IH Hch).
Qed.

(** X12: [processDebugStatements] leaves no [@block-debug] at-rule at any
    depth, and a tree that has none comes back as it is. *)
Theorem processDebugStatements_removes_all (f : string) (rt : Root)
  (blk : Block) :
  Forall (fun n => ~ isAtRuleNamed "block-debug" n)
    (allNodes (processDebugStatements f rt blk)) /\
  (Forall (fun n => ~ isAtRuleNamed "block-debug" n) (allNodes rt) ->
   processDebugStatements f rt blk = rt).
Proof.
  unfold processDebugStatements, allNodes. split.
  - apply Forall_flat_map_omap. apply List.Forall_forall.
    intros ? _ ?. apply processDebugStatement_none_left.
  - apply omap_fixed_tree. apply List.Forall_forall.
    intros n _. apply processDebugStatement_fixed.
Qed.

Lemma beforeInheritance_clean blk rt :
  Forall (fun n => ~ isAtRuleNamed "block-reference" n)
    (allNodes (beforeInheritance blk rt)) /\
  Forall (fun n => ~ isAtRuleNamed "block-debug" n)
    (allNodes (beforeInheritance blk rt)).
Proof.
  unfold beforeInheritance. split; [apply stripBlockSyntax_no_reference|].
  unfold stripBlockSyntax, allNodes.
  set (rt0 := processDebugStatements _ rt blk).
  assert (Hd0 : Forall (fun n => ~ isAtRuleNamed "block-debug" n)
                 (flat_map subnodes rt0)).
  { unfold rt0, processDebugStatements. apply Forall_flat_map_omap.
    apply List.Forall_forall. intros ? _ ?.
    apply processDebugStatement_none_left. }
  clearbody rt0.
  assert (Hd1 : Forall (fun n => ~ isAtRuleNamed "block-debug" n)
                 (flat_map subnodes (omap (removeAtRules "block-reference") rt0))).
  { apply Forall_flat_map_subnodes in Hd0.
    induction Hd0 as [|n l Hn _ IH]; simpl; [constructor|].
    destruct (removeAtRules "block-reference" n) as [n'|] eqn:Hn'; simpl; [|done].
    apply Forall_app. split; [|done].
    eapply removeAtRules_keeps; [|exact Hn'|exact Hn]. simpl. tauto. }
  apply Forall_flat_map_subnodes in Hd1.
  induction Hd1 as [|n l Hn _ IH]; simpl; [constructor|].
  destruct (cleanRootRule n) as [n'|] eqn:Hn'; simpl; [|done].
  apply Forall_app. split; [|done].
  eapply cleanRootRule_keeps_at_rules; [| |exact Hn'|exact Hn]; simpl; tauto.
Qed.

(** X13: The tree that [compile] returns is free of the block syntax: at no
    depth is there a [@block-reference] or a [@block-debug] at-rule, and,
    when the interoperable exports are off, no resolution is left in any
    rule. *)
Theorem compile_output_is_css (blk : Block) (rt out : Root) :
  compile blk rt = inr out ->
  Forall (fun n => ~ isAtRuleNamed "block-reference" n) (allNodes out) /\
  Forall (fun n => ~ isAtRuleNamed "block-debug" n) (allNodes out) /\
  (interoperableCSS = false -> Forall resolved (allNodes out)).
Proof.
  unfold compile.
  destruct (beforeInheritance_clean blk rt) as [Href Hdbg].
  set (rt1 := beforeInheritance blk rt) in *. clearbody rt1.
  assert (Hpass : forall nm,
            Forall (fun n => ~ isAtRuleNamed nm n) (allNodes rt1) ->
            Forall (fun n => ~ isAtRuleNamed nm n)
              (allNodes (fst (walkRulesRoot (rewriteRule blk)
                                (fst (resolveInheritance rt1 blk)))))).
  { intros nm Hnm. apply walkRulesRoot_keeps; [simpl; tauto..|].
    unfold resolveInheritance.
    destruct (base blk), (baseName blk) as [bn|]; try done.
    destruct (truthy (Some bn)); [|done].
    apply walkRulesRoot_keeps; [simpl; tauto..|done]. }
  set (rt3 := fst (walkRulesRoot _ _)) in *. clearbody rt3.
  destruct (resolve rt3 blk) as [e|rt4] eqn:Hres; simpl; [discriminate|].
  assert (Hres' : forall nm,
            Forall (fun n => ~ isAtRuleNamed nm n) (allNodes rt1) ->
            Forall (fun n => ~ isAtRuleNamed nm n) (allNodes rt4)).
  { intros nm Hnm. eapply resolve_keeps; [| |exact Hres|by apply Hpass];
      simpl; tauto. }
  destruct interoperableCSS.
  - unfold injectExports.
    destruct (foldM _ _ _) as [e|ds]; simpl; [discriminate|].
    intros [= <-]. unfold allNodes. simpl.
    split; [|split; [|discriminate]]; (constructor; [simpl; tauto|]).
    + by apply Hres'.
    + by apply Hres'.
  - intros [= <-]. split; [by apply Hres'|]. split; [by apply Hres'|].
    intros _. by eapply resolve_output_resolved.
Qed.

End CompileOutput.

Lemma compile_output_is_css_witness :
  Forall (fun n => ~ isAtRuleNamed "block-reference" n)
    (allNodes
       [NComment "child";
        NRule {| selector := ".root"; nodes := [Examples.color "red"] |};
        NRule {| selector := ".root"; nodes := [Examples.color "red"] |}]) /\
  Forall (fun n => ~ isAtRuleNamed "block-debug" n)
    (allNodes
       [NComment "child";
        NRule {| selector := ".root"; nodes := [Examples.color "red"] |};
        NRule {| selector := ".root"; nodes := [Examples.color "red"] |}]) /\
  (@interoperableCSS Examples.exampleCompiler = false ->
   Forall resolved
     (allNodes
        [NComment "child";
        NRule {| selector := ".root"; nodes := [Examples.color "red"] |};
         NRule {| selector := ".root"; nodes := [Examples.color "red"] |}])).
Proof.
  apply (@compile_output_is_css Examples.exampleExternals
           Examples.exampleCompiler Examples.childBlock
           [NAtRule "block-reference" "base from 'base.css'" [];
            NAtRule "block-debug" "base to comment" [];
            NRule {| selector := ".root";
                     nodes := [Decl {| prop := "extends"; value := "base" |};
                               Examples.color "red"] |}]).
  vm_compute. reflexivity.
Defined.

Lemma processDebugStatements_removes_all_witness :
  Forall (fun n => ~ isAtRuleNamed "block-debug" n)
    (allNodes
       (@processDebugStatements Examples.exampleCompiler "app.css"
          [NAtRule "media" "print" []] Examples.appBlock)) /\
  @processDebugStatements Examples.exampleCompiler "app.css"
    [NAtRule "media" "print" []] Examples.appBlock
  = [NAtRule "media" "print" []].
Proof.
  pose proof (@processDebugStatements_removes_all Examples.exampleCompiler
                "app.css" [NAtRule "media" "print" []] Examples.appBlock)
    as [Hnone Hfix].
  split; [exact Hnone|]. apply Hfix.
  repeat constructor. simpl. discriminate.
Defined.

(** ** The mutators of [Block] *)

Lemma call_identifier c b : identifier (fst (call c b)) = identifier b.
Proof.
  destruct c; simpl; try done.
  unfold set_name. by destruct (hasHadNameReset b).
Qed.

Lemma calls_app cs cs' b : calls (cs ++ cs') b = calls cs' (calls cs b).
Proof. revert b. induction cs as [|c cs IH]; intros b; simpl; [done|apply IH]. Qed.

Lemma call_dependencies c b :
  _dependencies (fst (call c b)) =
  match c with
  | CallAddDependency p =>
      if bool_decide (p ∈ _dependencies b) then _dependencies b
      else _dependencies b ++ [p]
  | _ => _dependencies b
  end.
Proof.
  destruct c; simpl; try done.
  unfold set_name. by destruct (hasHadNameReset b).
Qed.

(** X14: No call changes the identifier of a block: whatever is done to a
    block, and to another handle of it, [equal] still holds between the
    two, in both directions. *)
Theorem identifier_never_changes (cs cs' : list BlockCall) (b : Block) :
  identifier (calls cs b) = identifier b /\
  equal (calls cs b) (Some (calls cs' b)) = true /\
  equal (calls cs' b) (Some (calls cs b)) = true.
Proof.
  assert (Hid : forall l x, identifier (calls l x) = identifier x).
  { induction l as [|c l IH]; intros x; simpl; [done|].
    by rewrite IH, call_identifier. }
  split; [apply Hid|]. unfold equal. rewrite !Hid.
  split; apply String.eqb_refl.
Qed.

(** X15: The dependencies of a block are a set: whatever calls are made on a
    new block, [dependencies] lists each path that was added once, and
    nothing else. *)
Theorem dependencies_are_a_set (n i : string) (cs : list BlockCall) :
  NoDup (dependencies (calls cs (newBlock n i))) /\
  forall p, p ∈ dependencies (calls cs (newBlock n i)) <->
            In (CallAddDependency p) cs.
Proof.
  unfold dependencies.
  induction cs as [|c cs IH] using rev_ind.
  - simpl. split; [constructor|]. intros p. split; [by intros ?%elem_of_nil|done].
  - rewrite calls_app. simpl. rewrite call_dependencies.
    destruct IH as [Hnd Hin]. set (b := calls cs (newBlock n i)) in *.
    assert (Hother : forall p, (forall q, c <> CallAddDependency q) ->
              (In (CallAddDependency p) (cs ++ [c]) <->
               In (CallAddDependency p) cs)).
    { intros p Hc. rewrite in_app_iff. simpl. split; [|tauto].
      intros [?|[Heq|[]]]; [done|]. by destruct (Hc p). }
    destruct c as [nm|bn bs|q|im|r];
      try (split; [done|]; intros p; rewrite Hin; symmetry;
           apply Hother; discriminate).
    case_bool_decide as Hq.
    + split; [done|]. intros p. rewrite Hin, in_app_iff. simpl.
      split; [tauto|]. intros [?|[[= ->]|[]]]; [done|]. by apply Hin.
    + split.
      * apply NoDup_app. split; [done|]. split; [|apply NoDup_singleton].
        intros x Hx ->%list_elem_of_singleton. done.
      * intros p. rewrite elem_of_app, list_elem_of_singleton, Hin, in_app_iff.
        simpl. split.
        -- intros [?| ->]; [by left | right; by left].
        -- intros [?|[[= ->]|[]]]; [by left | by right].
Qed.

Lemma calls_base cs b :
  Forall notSetBase cs ->
  base (calls cs b) = base b /\ baseName (calls cs b) = baseName b.
Proof.
  intros Hcs. revert b. induction Hcs as [|c cs Hc _ IH]; intros b; simpl; [done|].
  destruct (IH (fst (call c b))) as [-> ->].
  destruct c; simpl in *; try done.
  unfold set_name. by destruct (hasHadNameReset b).
Qed.

(** X16: After [setBase(baseName, base)] and any later calls other than
    [setBase], the block answers with that base and base name, and its
    ancestors are the base itself (by identifier) and the ancestors of
    the base. *)
Theorem ancestors_after_setBase (a bs c : Block) (bn : string)
  (cs : list BlockCall) :
  Forall notSetBase cs ->
  let c' := calls cs (setBase bn bs c) in
  base c' = Some bs /\ baseName c' = Some bn /\
  isAncestor a (Some c') = (equal a (Some bs) || isAncestor a (Some bs)).
Proof.
  intros Hcs c'. destruct (calls_base cs (setBase bn bs c) Hcs) as [Hb Hn].
  fold c' in Hb, Hn. split; [exact Hb|]. split; [exact Hn|].
  unfold isAncestor. rewrite Hb. simpl.
  destruct bs as [i nm r b' bn' im dp rt]; simpl.
  by destruct (String.eqb (identifier a) i).
Qed.

Lemma ancestors_after_setBase_witness :
  let c' := calls [CallAddDependency "a.scss"; CallSetName "kid"]
              (setBase "base" Examples.baseBlock Examples.appBlock) in
  base c' = Some Examples.baseBlock /\ baseName c' = Some "base" /\
  isAncestor Examples.baseBlock (Some c') =
  (equal Examples.baseBlock (Some Examples.baseBlock)
   || isAncestor Examples.baseBlock (Some Examples.baseBlock)).
Proof.
  apply (ancestors_after_setBase Examples.baseBlock Examples.baseBlock
           Examples.appBlock "base"
           [CallAddDependency "a.scss"; CallSetName "kid"]).
  constructor; [exact I|]. constructor; [exact I|]. constructor.
Defined.

(** ** What [resolveStyles] leaves alone *)

(** X17: Whenever [resolveStyles] returns, cached or not, the set it returns
    was not in the heap before, every set that was in the heap is as it
    was, no style but the receiver has changed, and the receiver has kept
    its [base]: the call writes the cache of the receiver and nothing
    else that a caller can hold. *)
Theorem resolveStyles_frame (fuel : nat) (s : nat) (h h1 : Style.Heap)
  (r : nat) :
  Style.resolveStyles fuel s h = Some (r, h1) ->
  Style.sets h !! r = None /\
  (forall k X, Style.sets h !! k = Some X -> Style.sets h1 !! k = Some X) /\
  (forall t, t <> s -> Style.styles h1 !! t = Style.styles h !! t) /\
  (exists o o1, Style.styles h !! s = Some o /\
                Style.styles h1 !! s = Some o1 /\
                Style.sbase o1 = Style.sbase o).
Proof.
  destruct fuel as [|fuel]; [discriminate|]. simpl.
  destruct (Style.styles h !! s) as [o|] eqn:Hs; simpl; [|discriminate].
  destruct (Style._resolvedStyles o) as [c|] eqn:Hc.
  - destruct (Style.sets h !! c) as [contents|]; simpl; [|discriminate].
    intros [= <- <-]. simpl.
    assert (Hfresh : Style.sets h !! fresh (dom (Style.sets h)) = None)
      by apply fresh_lookup.
    split; [exact Hfresh|]. split; [|split; [done|by exists o, o]].
    intros k X Hk. rewrite lookup_insert_ne; [done|].
    intros <-. congruence.
  - destruct (Style.resolveInheritance fuel h s) as [inh|]; simpl; [|discriminate].
    rewrite foldO_id by done. simpl.
    set (c := fresh (dom (Style.sets h))).
    assert (Hfresh : Style.sets h !! c = None) by apply fresh_lookup.
    set (sets3 := alter _ c _).
    set (styles3 := alter (fun o => {| Style.sbase := Style.sbase o;
                                       Style._resolvedStyles := Some c |})
                      s (Style.styles h)).
    destruct (sets3 !! c) as [contents|] eqn:Hc3; simpl; [|discriminate].
    intros [= <- <-]. simpl.
    assert (Hold3 : forall k X, Style.sets h !! k = Some X ->
                                sets3 !! k = Some X).
    { intros k X Hk. unfold sets3.
      assert (k <> c) by (intros ->; congruence).
      rewrite lookup_alter_ne, lookup_insert_ne; done. }
    assert (Hr : sets3 !! fresh (dom sets3) = None) by apply fresh_lookup.
    fold sets3 styles3. split; [|split; [|split]].
    + destruct (Style.sets h !! fresh (dom sets3)) as [X|] eqn:HX; [|done].
      apply Hold3 in HX. congruence.
    + intros k X Hk. rewrite lookup_insert_ne; [by apply Hold3|].
      intros <-. apply Hold3 in Hk. congruence.
    + intros t Ht. unfold styles3. by rewrite lookup_alter_ne.
    + exists o. eexists. split; [done|]. unfold styles3.
      rewrite lookup_alter_eq. rewrite Hs. simpl. done.
Qed.

Lemma resolveStyles_frame_witness :
  Style.sets Examples.exampleHeap !! 1 = None /\
  (forall k X, Style.sets Examples.exampleHeap !! k = Some X ->
     Style.sets
       (default Examples.exampleHeap
          (snd <$> Style.resolveStyles 3 3 Examples.exampleHeap)) !! k
     = Some X) /\
  (forall t, t <> 3 ->
     Style.styles
       (default Examples.exampleHeap
          (snd <$> Style.resolveStyles 3 3 Examples.exampleHeap)) !! t
     = Style.styles Examples.exampleHeap !! t) /\
  (exists o o1,
     Style.styles Examples.exampleHeap !! 3 = Some o /\
     Style.styles
       (default Examples.exampleHeap
          (snd <$> Style.resolveStyles 3 3 Examples.exampleHeap)) !! 3
     = Some o1 /\
     Style.sbase o1 = Style.sbase o).
Proof.
  apply (resolveStyles_frame 3 3 Examples.exampleHeap
           (default Examples.exampleHeap
              (snd <$> Style.resolveStyles 3 3 Examples.exampleHeap)) 1).
  vm_compute. reflexivity.
Defined.

(** ** [discoverName] *)

Lemma last_nonempty {A} (y : A) (l : list A) (d d' : A) :
  List.last (y :: l) d = List.last (y :: l) d'.
Proof.
  revert y. induction l as [|z l IH]; intros y; [done|].
  change (List.last (z :: l) d = List.last (z :: l) d'). apply IH.
Qed.

Section DiscoverNameProperties.
Variable BLOCK_NAME : string.
Variable CLASS_NAME_IDENT : string -> bool.

Lemma foldM_discoverDecl (ds : list Declaration) (d : string) :
  match foldM (DiscoverName.discoverDecl CLASS_NAME_IDENT) ds d with
  | inr n =>
      Forall (fun v => CLASS_NAME_IDENT v = true) (map value ds) /\
      n = List.last (map value ds) d
  | inl e =>
      exists pre v post,
        map value ds = pre ++ v :: post /\
        Forall (fun v => CLASS_NAME_IDENT v = true) pre /\
        CLASS_NAME_IDENT v = false /\
        e = DiscoverName.illegalBlockName v
  end.
Proof.
  revert d. induction ds as [|x ds IH]; intros d; simpl.
  - split; [constructor | done].
  - unfold DiscoverName.discoverDecl at 1.
    destruct (CLASS_NAME_IDENT (value x)) eqn:Hx; simpl.
    + specialize (IH (value x)).
      destruct (foldM _ ds (value x)) as [e|n].
      * destruct IH as (pre & v & post & Hds & Hpre & Hv & ->).
        exists (value x :: pre), v, post. rewrite Hds.
        split; [done|]. split; [by constructor | done].
      * destruct IH as [Hall ->]. split; [by constructor|].
        destruct (map value ds) as [|y l]; [done|].
        apply last_nonempty.
    + exists [], (value x), (map value ds). split; [done|].
      split; [constructor | done].
Qed.

(** X18: [discoverName] reads the [block-name] declarations of the rules
    whose selector is [:scope], in document order.  When all their
    values are legal identifiers it returns the last one, the default
    name when there is none; otherwise it throws at the first illegal
    value, whatever follows it, with that value in the message. *)
Theorem discoverName_last_legal_name (rt : Root) (defaultName : string) :
  let vs := map value (DiscoverName.blockNameDecls BLOCK_NAME rt) in
  match DiscoverName.discoverName BLOCK_NAME CLASS_NAME_IDENT rt defaultName with
  | inr n =>
      Forall (fun v => CLASS_NAME_IDENT v = true) vs /\
      n = List.last vs defaultName
  | inl e =>
      exists pre v post,
        vs = pre ++ v :: post /\
        Forall (fun v => CLASS_NAME_IDENT v = true) pre /\
        CLASS_NAME_IDENT v = false /\
        e = InvalidBlockSyntax
              ("Illegal block name. '" +:+ v
               +:+ "' is not a legal CSS identifier.")
  end.
Proof. apply foldM_discoverDecl. Qed.

End DiscoverNameProperties.

Example discoverName_example :
  let legal := fun v => negb (String.eqb v "1st") in
  let named v := NRule {| selector := ":scope";
                          nodes := [Decl {| prop := "block-name"; value := v |}] |} in
  DiscoverName.discoverName "block-name" legal
    [named "nav"; NAtRule "media" "print" [named "menu"];
     NRule {| selector := ".foo";
              nodes := [Decl {| prop := "block-name"; value := "1st" |}] |}]
    "file"
  = inr "menu" /\
  DiscoverName.discoverName "block-name" legal [named "1st"; named "nav"] "file"
  = inl (InvalidBlockSyntax
           "Illegal block name. '1st' is not a legal CSS identifier.").
Proof. split; reflexivity. Qed.

(** ** Block names and guids of the factory *)

Section BlockFactoryProperties.
Import BlockFactory.

Lemma hasDash_suffixed name i : hasDash (suffixed name i) = true.
Proof.
  unfold suffixed. induction name as [|c name IH]; simpl; [done|].
  rewrite IH. apply orb_true_r.
Qed.

Lemma suffixed_not_prototype name i : suffixed name i ∉ objectPrototypeKeys.
Proof.
  intros Hin. pose proof (hasDash_suffixed name i) as Hd.
  assert (Hall : Forall (fun k => hasDash k = false) objectPrototypeKeys)
    by (repeat constructor).
  rewrite List.Forall_forall in Hall.
  apply list_elem_of_In, Hall in Hin. congruence.
Qed.

Lemma append_inj_r (s a b : string) : s +:+ a = s +:+ b -> a = b.
Proof. induction s as [|c s IH]; simpl; [done|]. intros [= ?]. by apply IH. Qed.

Lemma suffixed_inj name i j : suffixed name i = suffixed name j -> i = j.
Proof.
  unfold suffixed. intros H%append_inj_r%append_inj_r.
  by apply pretty_nat_inj in H.
Qed.

Lemma registered_suffixed f name i :
  registered f (suffixed name i) = true ->
  suffixed name i ∈ dom (blockNames f).
Proof.
  unfold registered. intros H. apply elem_of_dom.
  destruct (blockNames f !! suffixed name i) as [x|]; [by exists x|].
  apply bool_decide_eq_true in H. by apply suffixed_not_prototype in H.
Qed.

Lemma freeSuffix_None fuel f name i :
  freeSuffix fuel f name i = None ->
  forall j, i <= j < i + fuel -> registered f (suffixed name j) = true.
Proof.
  revert i. induction fuel as [|fuel IH]; intros i; simpl; [intros; lia|].
  destruct (registered f (suffixed name i)) eqn:Hi; [|discriminate].
  intros Hn j Hj. destruct (decide (j = i)) as [->|Hne]; [done|].
  apply (IH (S i) Hn). lia.
Qed.

Lemma freeSuffix_Some fuel f name i k :
  freeSuffix fuel f name i = Some k ->
  i <= k /\ registered f (suffixed name k) = false /\
  forall j, i <= j < k -> registered f (suffixed name j) = true.
Proof.
  revert i. induction fuel as [|fuel IH]; intros i; simpl; [discriminate|].
  destruct (registered f (suffixed name i)) eqn:Hi.
  - intros (Hle & Hk & Hlt)%IH. split; [lia|]. split; [done|].
    intros j Hj. destruct (decide (j = i)) as [->|Hne]; [done|].
    apply Hlt. lia.
  - intros [= <-]. split; [done|]. split; [done|]. intros; lia.
Qed.

(** The loop ends: a dictionary with [n] own properties cannot hold
    [n + 1] suffixed names. *)
Lemma freeSuffix_total f name i :
  exists k, freeSuffix (S (size (blockNames f))) f name i = Some k.
Proof.
  destruct (freeSuffix _ f name i) as [k|] eqn:Hk; [by exists k|].
  exfalso. pose proof (freeSuffix_None _ _ _ _ Hk) as Hall.
  set (n := size (blockNames f)) in *.
  set (l := suffixed name <$> seq i (S n)).
  assert (Hnd : NoDup l).
  { apply NoDup_fmap_2_strong; [|apply NoDup_seq].
    intros x y _ _. apply suffixed_inj. }
  assert (Hsub : list_to_set l ⊆ dom (blockNames f)).
  { intros x [j [-> Hj]]%elem_of_list_to_set%list_elem_of_fmap.
    apply elem_of_seq in Hj. apply registered_suffixed, Hall. lia. }
  apply subseteq_size in Hsub.
  rewrite (size_list_to_set l Hnd), size_dom in Hsub.
  unfold l in Hsub. rewrite length_fmap, length_seq in Hsub. fold n in Hsub. lia.
Qed.

Lemma registered_assign_other f n identifier k :
  k <> n -> registered (assign n identifier f) k = registered f k.
Proof.
  intros Hk. unfold assign.
  destruct (_ && _); [done|]. unfold registered. simpl.
  by rewrite lookup_insert_ne.
Qed.

Lemma registered_assign_same f n identifier :
  registered f n = false -> identifier <> EmptyString ->
  registered (assign n identifier f) n = true.
Proof.
  intros Hn Hid. unfold assign.
  destruct (String.eqb_spec n "__proto__") as [->|_]; simpl.
  - case_bool_decide as Hown.
    + unfold registered in Hn. rewrite Hown in Hn. discriminate.
    + unfold registered. simpl. rewrite lookup_insert_eq.
      by destruct (String.eqb_spec identifier EmptyString).
  - unfold registered. simpl. rewrite lookup_insert_eq.
    by destruct (String.eqb_spec identifier EmptyString).
Qed.

Lemma registered_assign_mono f n identifier k :
  registered f n = false -> registered f k = true ->
  registered (assign n identifier f) k = true.
Proof.
  intros Hn Hk. rewrite registered_assign_other; [done|]. congruence.
Qed.

Lemma getUniqueBlockName_cases name identifier doNotOverride f :
  exists r f',
    getUniqueBlockName name identifier doNotOverride f = Some (r, f') /\
    match r with
    | None =>
        doNotOverride = true /\ registered f name = true /\ f' = f
    | Some n =>
        registered f n = false /\ f' = assign n identifier f /\
        (n = name \/
         doNotOverride = false /\ registered f name = true /\
         exists i, 2 <= i /\ n = suffixed name i /\
                   forall j, 2 <= j < i -> registered f (suffixed name j) = true)
    end.
Proof.
  unfold getUniqueBlockName.
  destruct (registered f name) eqn:Hname; cbn [negb].
  - destruct doNotOverride.
    + exists None, f. done.
    + destruct (freeSuffix_total f name 2) as [i Hi]. rewrite Hi.
      cbn [mbind option_bind].
      apply freeSuffix_Some in Hi as (Hle & Hfree & Hbelow).
      eexists _, _. split; [done|]. split; [done|]. split; [done|].
      right. split; [done|]. split; [done|]. by exists i.
  - eexists _, _. split; [done|]. split; [done|]. split; [done|]. by left.
Qed.

(** X19: [getUniqueBlockName] always returns.  The name it returns was not
    registered before the call and is assigned the identifier; it is the
    name asked for when that is free, and otherwise the name with the
    least suffix from 2 on that is free.  [null] is returned only when
    the name is taken and [doNotOverride] is set, and the dictionary is
    then unchanged. *)
Theorem getUniqueBlockName_least_free_suffix (name identifier : string)
  (doNotOverride : bool) (f : Factory) :
  exists r f',
    getUniqueBlockName name identifier doNotOverride f = Some (r, f') /\
    match r with
    | None =>
        doNotOverride = true /\ registered f name = true /\ f' = f
    | Some n =>
        registered f n = false /\ f' = assign n identifier f /\
        (n = name \/
         doNotOverride = false /\ registered f name = true /\
         exists i, 2 <= i /\ n = suffixed name i /\
                   forall j, 2 <= j < i -> registered f (suffixed name j) = true)
    end.
Proof. apply getUniqueBlockName_cases. Qed.

(** X20: Whatever names are asked for, and whatever was registered before,
    the names that a run of calls with non-empty identifiers returns are
    pairwise distinct; none of them was registered before the run, all
    are afterwards, and no registration is lost. *)
Theorem unique_block_names_distinct (reqs : list NameRequest) (f : Factory) :
  Forall (fun q => reqIdentifier q <> EmptyString) reqs ->
  exists rs f',
    getUniqueBlockNames reqs f = Some (rs, f') /\
    length rs = length reqs /\
    NoDup (omap id rs) /\
    Forall (fun n => registered f n = false /\ registered f' n = true)
      (omap id rs) /\
    forall k, registered f k = true -> registered f' k = true.
Proof.
  intros Hreqs. revert f.
  induction Hreqs as [|q reqs Hq _ IH]; intros f; simpl.
  - exists [], f. split; [done|]. split; [done|].
    split; [constructor|]. split; [constructor|done].
  - destruct (getUniqueBlockName_cases (reqName q) (reqIdentifier q)
                (reqDoNotOverride q) f) as (r & f1 & -> & Hr).
    simpl. destruct (IH f1) as (rs & f' & -> & Hlen & Hnd & Hall & Hmono).
    simpl. exists (r :: rs), f'. split; [done|]. split; [simpl; by f_equal|].
    destruct r as [n|]; simpl.
    + destruct Hr as (Hfree & -> & _).
      pose proof (registered_assign_same f n _ Hfree Hq) as Hn1.
      split; [|split].
      * constructor; [|done]. intros Hin%list_elem_of_In.
        rewrite List.Forall_forall in Hall. apply Hall in Hin as [Hn _].
        congruence.
      * constructor; [by auto|].
        eapply Forall_impl; [exact Hall|]. simpl. intros k [Hk1 Hk'].
        split; [|done]. destruct (registered f k) eqn:Hk; [|done].
        rewrite (registered_assign_mono f n _ k Hfree Hk) in Hk1. done.
      * intros k Hk. apply Hmono. by apply registered_assign_mono.
    + destruct Hr as (_ & _ & ->). done.
Qed.

Lemma unique_block_names_distinct_witness :
  exists rs f',
    getUniqueBlockNames
      [nameRequest "nav" "/a/nav.css" false;
       nameRequest "nav" "/b/nav.css" false;
       nameRequest "nav" "/c/nav.css" true;
       nameRequest "nav-2" "/d/nav-2.css" false] newFactory = Some (rs, f') /\
    length rs = 4 /\
    NoDup (omap id rs) /\
    Forall (fun n => registered newFactory n = false /\ registered f' n = true)
      (omap id rs) /\
    forall k, registered newFactory k = true -> registered f' k = true.
Proof.
  apply (unique_block_names_distinct
           [nameRequest "nav" "/a/nav.css" false;
            nameRequest "nav" "/b/nav.css" false;
            nameRequest "nav" "/c/nav.css" true;
            nameRequest "nav-2" "/d/nav-2.css" false] newFactory).
  repeat constructor; simpl; discriminate.
Defined.

Example getUniqueBlockNames_example :
  fst <$> getUniqueBlockNames
            [nameRequest "nav" "/a/nav.css" false;
             nameRequest "nav" "/b/nav.css" false;
             nameRequest "nav" "/c/nav.css" true;
             nameRequest "nav-2" "/d/nav-2.css" false] newFactory
  = Some [Some "nav"; Some "nav-2"; None; Some "nav-2-2"].
Proof. vm_compute. reflexivity. Qed.

(** With an empty identifier the registration reads as free again. *)
Example getUniqueBlockNames_empty_identifier :
  fst <$> getUniqueBlockNames
            [nameRequest "nav" EmptyString false;
             nameRequest "nav" "/b/nav.css" false] newFactory
  = Some [Some "nav"; Some "nav"].
Proof. vm_compute. reflexivity. Qed.

End BlockFactoryProperties.

Section GuidProperties.
Import BlockFactory.

(** X21: In a run of [registerGuid] calls, a call answers [true] exactly
    when its guid is neither among the guids the factory held before
    the run nor among those of the earlier calls of the run. *)
Theorem registerGuid_accepts_once (gs : list string) (f : Factory) :
  length (fst (registerGuids gs f)) = length gs /\
  forall k g, gs !! k = Some g ->
    fst (registerGuids gs f) !! k
    = Some (bool_decide (g ∉ guids f ++ take k gs)).
Proof.
  revert f. induction gs as [|g0 gs IH]; intros f; simpl.
  - split; [done|]. intros k g Hk. by rewrite lookup_nil in Hk.
  - destruct (registerGuid g0 f) as [r f1] eqn:Hr0.
    destruct (IH f1) as [Hlen Hat].
    destruct (registerGuids gs f1) as [rs f2]. simpl in *.
    split; [by f_equal|].
    assert (Hguids : forall x, x ∈ guids f1 <-> x ∈ guids f \/ x = g0).
    { intros x. unfold registerGuid in Hr0. case_bool_decide as Hin.
      - injection Hr0 as <- <-. split; [by left|]. by intros [?| ->].
      - injection Hr0 as <- <-. simpl.
        by rewrite elem_of_app, list_elem_of_singleton. }
    intros [|k] g Hk; simpl in *.
    + injection Hk as ->. f_equal. rewrite app_nil_r.
      unfold registerGuid in Hr0. case_bool_decide as Hin.
      * injection Hr0 as <- _. symmetry. apply bool_decide_eq_false. tauto.
      * injection Hr0 as <- _. symmetry. by apply bool_decide_eq_true.
    + rewrite (Hat k g Hk). f_equal. apply bool_decide_ext.
      rewrite !elem_of_app, elem_of_cons, Hguids. tauto.
Qed.

(** X22: A name that is a property of [Object.prototype] reads as taken in a
    dictionary that has no own property of that name: such a block name
    is never handed out as it is, but with a suffix, and with
    [doNotOverride] the answer is [null]. *)
Theorem prototype_names_read_as_taken (k identifier : string) (f : Factory) :
  k ∈ objectPrototypeKeys -> blockNames f !! k = None ->
  getUniqueBlockName k identifier true f = Some (None, f) /\
  exists i, 2 <= i /\
    fst <$> getUniqueBlockName k identifier false f
    = Some (Some (suffixed k i)).
Proof.
  intros Hk Hown.
  assert (Hreg : registered f k = true).
  { unfold registered. rewrite Hown. by apply bool_decide_eq_true. }
  unfold getUniqueBlockName. rewrite Hreg. cbn [negb]. split; [done|].
  destruct (freeSuffix_total f k 2) as [i Hi]. rewrite Hi.
  apply freeSuffix_Some in Hi as [Hle _]. by exists i.
Qed.

Lemma prototype_names_read_as_taken_witness :
  getUniqueBlockName "constructor" "/a/constructor.css" true newFactory
  = Some (None, newFactory) /\
  exists i, 2 <= i /\
    fst <$> getUniqueBlockName "constructor" "/a/constructor.css" false
              newFactory
    = Some (Some (suffixed "constructor" i)).
Proof.
  apply (prototype_names_read_as_taken "constructor" "/a/constructor.css"
           newFactory).
  - unfold objectPrototypeKeys. apply elem_of_cons. by left.
  - reflexivity.
Defined.

Lemma registerGuid_accepts_once_witness :
  fst (registerGuids ["a1b2c"; "d3e4f"; "a1b2c"] newFactory) !! 2
  = Some (bool_decide ("a1b2c" ∉ guids newFactory ++ take 2 ["a1b2c"; "d3e4f"; "a1b2c"])).
Proof.
  apply (proj2 (registerGuid_accepts_once ["a1b2c"; "d3e4f"; "a1b2c"] newFactory)
           2 "a1b2c").
  reflexivity.
Defined.

End GuidProperties.
